(** * Navigator: the accessibility-aware routing service

    A shallow embedding of [src/services/AccessibilityroutingService.ts]
    (class [AccessibilityRoutingService]) and of the types of
    [src/types/index.ts], with the properties of the routing core that
    the specification states.

    Numbers.  A finite JavaScript [number] is modelled by the rational
    it denotes, in canonical form ([Qc]): coordinates are finite, and
    the string key [`${latitude},${longitude}`] is the pair of
    coordinates.  What the source computes from them is a [number]: a
    rational, [Infinity] or [NaN].  NaN comes from [Math.sqrt] of a
    negative number, which the haversine formula reaches when its term
    [a] leaves the interval from 0 to 1 (in the source by rounding, for
    points that are nearly antipodal; in the model when the [Math]
    functions at hand are not exact), and it propagates as in
    ECMAScript: every comparison with NaN is false.  Rounding, overflow
    and signed zeros are outside the model.  The functions of the
    [Math] object are implementation-approximated in ECMAScript; they
    are an interface ([MathLib]) of which the development is generic. *)

From Stdlib Require Import QArith Qcanon ZArith List String Sorting.Sorted Permutation.
From stdpp Require Import base option list gmap.

Local Open Scope Qc_scope.

(** ** The [Math] object *)

Class MathLib := {
  Math_PI : Qc;
  Math_sin : Qc -> Qc;
  Math_cos : Qc -> Qc;
  Math_sqrt : Qc -> Qc;
  Math_atan2 : Qc -> Qc -> Qc
}.

(** What ECMA-262 and the usual implementations guarantee of these
    functions, as far as the properties below need it. *)
Class MathLaws (M : MathLib) : Prop := {
  Math_sin_0 : Math_sin 0 = 0;
  Math_sin_odd : forall x, Math_sin (- x) = - Math_sin x;
  Math_sqrt_0 : Math_sqrt 0 = 0;
  Math_sqrt_nonneg : forall x, 0 <= Math_sqrt x;
  Math_atan2_0 : forall x, 0 <= x -> Math_atan2 0 x = 0;
  Math_atan2_nonneg : forall y x, 0 <= y -> 0 <= Math_atan2 y x
}.

(** Decimal literals of the source. *)
Definition dec (n : Z) (d : positive) : Qc := Q2Qc (n # d).

(** ** Numbers with [Infinity] and [NaN]

    Negative infinity is not among the numbers of the model: the
    source forms sums of distances and weights, products with positive
    factors and differences of distances, and none of them yields it. *)

Inductive number : Type :=
| Fin (q : Qc)
| Infinity
| NaN.

Global Instance number_eq_dec : EqDecision number.
Proof. solve_decision. Defined.

Definition Qc_ltb (x y : Qc) : bool := bool_decide (x < y).

(** [a + b]. *)
Definition number_add (a b : number) : number :=
  match a, b with
  | NaN, _ | _, NaN => NaN
  | Fin x, Fin y => Fin (x + y)
  | _, _ => Infinity
  end.

(** [a - b]; a finite number minus [Infinity] would be negative
    infinity, and is left as NaN. *)
Definition number_sub (a b : number) : number :=
  match a, b with
  | Fin x, Fin y => Fin (x - y)
  | Infinity, Fin _ => Infinity
  | _, _ => NaN
  end.

(** [a * b]; [Infinity] times 0 is NaN, and [Infinity] times a negative
    number would be negative infinity, and is left as NaN. *)
Definition number_mul (a b : number) : number :=
  match a, b with
  | NaN, _ | _, NaN => NaN
  | Fin x, Fin y => Fin (x * y)
  | Infinity, Infinity => Infinity
  | Infinity, Fin q | Fin q, Infinity => if Qc_ltb 0 q then Infinity else NaN
  end.

(** [a < b]: false when an operand is NaN. *)
Definition number_ltb (a b : number) : bool :=
  match a, b with
  | Fin x, Fin y => Qc_ltb x y
  | Fin _, Infinity => true
  | _, _ => false
  end.

(** [a <= b] and [a === b]: false when an operand is NaN. *)
Definition number_leb (a b : number) : bool :=
  match a, b with
  | Fin x, Fin y => negb (Qc_ltb y x)
  | Fin _, Infinity | Infinity, Infinity => true
  | _, _ => false
  end.

Definition number_eqb (a b : number) : bool :=
  match a, b with
  | Fin x, Fin y => bool_decide (x = y)
  | Infinity, Infinity => true
  | _, _ => false
  end.

(** [Math.sqrt] and [Math.atan2] on numbers: the square root of a
    negative number is NaN, and NaN propagates. *)
Definition number_sqrt `{MathLib} (x : number) : number :=
  match x with
  | Fin q => if Qc_ltb q 0 then NaN else Fin (Math_sqrt q)
  | Infinity => Infinity
  | NaN => NaN
  end.

Definition number_atan2 `{MathLib} (y x : number) : number :=
  match y, x with
  | NaN, _ | _, NaN => NaN
  | Fin y, Fin x => Fin (Math_atan2 y x)
  | Infinity, Fin _ => Fin (Math_PI / dec 2 1)
  | Fin _, Infinity => Fin 0
  | Infinity, Infinity => Fin (Math_PI / dec 4 1)
  end.

(** ** Data model ([src/types/index.ts]) *)

(** Modelled from the spec: the type [Location] that the service
    imports from the types is not declared there ([NavigationLocation]
    is, with the optional [altitude], [heading] and [accuracy]); the
    spec's GeoPoint is a latitude and a longitude in degrees.  These are
    the fields that the service reads and that it gives to the
    neighbours it creates. *)
Record Location : Type := mkLocation {
  latitude : Qc;
  longitude : Qc
}.

Inductive FeatureType : Type :=
| ramp | elevator | wide_pathway | rest_area | well_lit | tactile_paving.

Inductive ObstacleType : Type :=
| stairs | construction | narrow_path | poor_lighting | uneven_surface.

Record AccessibilityFeature : Type := mkFeature {
  ftype : FeatureType;
  flocation : Location;
  fdescription : string;
  isActive : bool
}.

Record AccessibilityObstacle : Type := mkObstacle {
  otype : ObstacleType;
  olocation : Location;
  odescription : string;
  temporaryUntil : option Z
}.

Record AccessibilityPreferences : Type := mkPreferences {
  requiresWheelchairAccess : bool;
  preferWellLit : bool;
  needsRestStops : bool;
  maximumSlope : option Qc;
  minimumPathWidth : option Qc
}.

Global Instance Location_eq_dec : EqDecision Location.
Proof. solve_decision. Defined.

Global Instance FeatureType_eq_dec : EqDecision FeatureType.
Proof. solve_decision. Defined.

Global Instance ObstacleType_eq_dec : EqDecision ObstacleType.
Proof. solve_decision. Defined.

(** The private members of the class. *)
Record Service : Type := mkService {
  features : list AccessibilityFeature;
  obstacles : list AccessibilityObstacle;
  userPreferences : option AccessibilityPreferences
}.

Definition constructor (initialFeatures : list AccessibilityFeature)
    (initialObstacles : list AccessibilityObstacle) : Service :=
  {| features := initialFeatures;
     obstacles := initialObstacles;
     userPreferences := None |}.

Definition setUserPreferences (preferences : AccessibilityPreferences)
    (this : Service) : Service :=
  {| features := features this;
     obstacles := obstacles this;
     userPreferences := Some preferences |}.

Definition addFeature (feature : AccessibilityFeature) (this : Service) : Service :=
  {| features := features this ++ [feature];
     obstacles := obstacles this;
     userPreferences := userPreferences this |}.

Definition addObstacle (obstacle : AccessibilityObstacle) (this : Service) : Service :=
  {| features := features this;
     obstacles := obstacles this ++ [obstacle];
     userPreferences := userPreferences this |}.

(** The two errors that the class throws, and how a call completes. *)
Inductive Error : Type :=
| NoAccessibleRouteFound
| NoNodesInOpenSet.

Inductive Completion (A : Type) : Type :=
| Return (a : A)
| Throw (e : Error).
Arguments Return {A} a.
Arguments Throw {A} e.

Section Routing.

Context {M : MathLib}.

(** ** Geodesy: the haversine formula *)

(** The term [a] is finite, as the coordinates are; [Math.sqrt(a)] and
    [Math.sqrt(1 - a)] are NaN when [a] is below 0 or above 1, and then
    so is the distance. *)
Definition calculateBaseDistance (start end_ : Location) : number :=
  let R := dec 6371000 1 in
  let phi1 := (latitude start * Math_PI) / dec 180 1 in
  let phi2 := (latitude end_ * Math_PI) / dec 180 1 in
  let dphi := ((latitude end_ - latitude start) * Math_PI) / dec 180 1 in
  let dlambda := ((longitude end_ - longitude start) * Math_PI) / dec 180 1 in
  let a := Math_sin (dphi / dec 2 1) * Math_sin (dphi / dec 2 1) +
           Math_cos phi1 * Math_cos phi2 *
           Math_sin (dlambda / dec 2 1) * Math_sin (dlambda / dec 2 1) in
  let c := number_mul (Fin (dec 2 1))
             (number_atan2 (number_sqrt (Fin a)) (number_sqrt (Fin (1 - a)))) in
  number_mul (Fin R) c.

(** [calculateDistance] of [src/utils/navigation.ts], the same formula. *)
Definition calculateDistance (start end_ : Location) : number :=
  let R := dec 6371000 1 in
  let phi1 := (latitude start * Math_PI) / dec 180 1 in
  let phi2 := (latitude end_ * Math_PI) / dec 180 1 in
  let dphi := ((latitude end_ - latitude start) * Math_PI) / dec 180 1 in
  let dlambda := ((longitude end_ - longitude start) * Math_PI) / dec 180 1 in
  let a := Math_sin (dphi / dec 2 1) * Math_sin (dphi / dec 2 1) +
           Math_cos phi1 * Math_cos phi2 * Math_sin (dlambda / dec 2 1) *
           Math_sin (dlambda / dec 2 1) in
  let c := number_mul (Fin (dec 2 1))
             (number_atan2 (number_sqrt (Fin a)) (number_sqrt (Fin (1 - a)))) in
  number_mul (Fin R) c.

Definition estimateDistance (a b : Location) : number := calculateBaseDistance a b.

Definition isAtDestination (current end_ : Location) : bool :=
  number_ltb (calculateBaseDistance current end_) (Fin (dec 5 1)).

Definition isPointNearLine (point lineStart lineEnd : Location) (threshold : Qc) : bool :=
  let d1 := calculateBaseDistance point lineStart in
  let d2 := calculateBaseDistance point lineEnd in
  let lineLength := calculateBaseDistance lineStart lineEnd in
  number_ltb (number_add d1 d2) (number_add lineLength (Fin threshold)).

(** ** Knowledge base *)

Definition removeObstacle (location : Location) (this : Service) : Service :=
  {| features := features this;
     obstacles := filter (fun obs =>
         number_ltb (Fin (dec 1 1))
           (calculateBaseDistance (olocation obs) location) = true) (obstacles this);
     userPreferences := userPreferences this |}.

Definition findFeaturesOnPath (this : Service) (start end_ : Location)
    : list AccessibilityFeature :=
  filter (fun feature =>
    isPointNearLine (flocation feature) start end_ (dec 20 1) = true) (features this).

Definition findObstaclesOnPath (this : Service) (start end_ : Location)
    : list AccessibilityObstacle :=
  filter (fun obstacle =>
    isPointNearLine (olocation obstacle) start end_ (dec 20 1) = true) (obstacles this).

(** The test [obstacle.type === 'stairs' || obstacle.type === 'narrow_path']. *)
Definition isBarrier (t : ObstacleType) : bool :=
  bool_decide (t = stairs) || bool_decide (t = narrow_path).

Definition isLocationAccessible (this : Service) (location : Location)
    (preferences : AccessibilityPreferences) : bool :=
  let nearbyObstacles := filter (fun obstacle =>
      number_ltb (calculateBaseDistance location (olocation obstacle))
        (Fin (dec 20 1)) = true) (obstacles this) in
  (fix loop (l : list AccessibilityObstacle) : bool :=
     match l with
     | [] => true
     | obstacle :: rest =>
         if requiresWheelchairAccess preferences && isBarrier (otype obstacle)
         then false
         else loop rest
     end) nearbyObstacles.

(** ** Path cost model *)

(** The loop over the obstacles of [calculatePathWeight]; [None] is the
    early [return Infinity]. *)
Fixpoint obstaclesLoop (preferences : AccessibilityPreferences) (weight : number)
    (l : list AccessibilityObstacle) : option number :=
  match l with
  | [] => Some weight
  | obstacle :: rest =>
      if requiresWheelchairAccess preferences && isBarrier (otype obstacle)
      then None
      else obstaclesLoop preferences
             (if preferWellLit preferences && bool_decide (otype obstacle = poor_lighting)
              then number_mul weight (Fin (dec 15 10)) else weight)
             rest
  end.

Fixpoint featuresLoop (preferences : AccessibilityPreferences) (weight : number)
    (l : list AccessibilityFeature) : number :=
  match l with
  | [] => weight
  | feature :: rest =>
      let weight1 :=
        if requiresWheelchairAccess preferences &&
           (bool_decide (ftype feature = ramp) || bool_decide (ftype feature = elevator))
        then number_mul weight (Fin (dec 8 10)) else weight in
      let weight2 :=
        if needsRestStops preferences && bool_decide (ftype feature = rest_area)
        then number_mul weight1 (Fin (dec 9 10)) else weight1 in
      featuresLoop preferences weight2 rest
  end.

Definition calculatePathWeight (this : Service) (start end_ : Location)
    (preferences : AccessibilityPreferences) : number :=
  let weight := calculateBaseDistance start end_ in
  let obstaclesOnPath := findObstaclesOnPath this start end_ in
  match obstaclesLoop preferences weight obstaclesOnPath with
  | None => Infinity
  | Some weight' =>
      let featuresOnPath := findFeaturesOnPath this start end_ in
      featuresLoop preferences weight' featuresOnPath
  end.

(** ** Route annotation *)

(** [Array.prototype.sort] with a comparator: the sort is stable and,
    where the comparator is consistent, its result is the stable
    insertion of each element by the sign of [compareFn].  A result of
    NaN counts as 0; where NaN makes the comparator inconsistent the
    order is implementation-defined in ECMAScript, and the model is
    the same insertion. *)
Fixpoint Array_insert {A} (compareFn : A -> A -> number) (x : A) (l : list A) : list A :=
  match l with
  | [] => [x]
  | y :: ys =>
      if number_ltb (Fin 0) (compareFn x y) then y :: Array_insert compareFn x ys
      else x :: y :: ys
  end.

Fixpoint Array_sort {A} (compareFn : A -> A -> number) (l : list A) : list A :=
  match l with
  | [] => []
  | x :: xs => Array_insert compareFn x (Array_sort compareFn xs)
  end.

Definition sameCoordinates (f feature : AccessibilityFeature) : bool :=
  bool_decide (latitude (flocation f) = latitude (flocation feature)) &&
  bool_decide (longitude (flocation f) = longitude (flocation feature)).

(** The body of [featuresOnSegment.forEach]. *)
Definition pushIfNew (relevantFeatures : list AccessibilityFeature)
    (feature : AccessibilityFeature) : list AccessibilityFeature :=
  if existsb (fun f => sameCoordinates f feature) relevantFeatures
  then relevantFeatures
  else relevantFeatures ++ [feature].

Definition featuresOnSegment (this : Service) (startPoint endPoint : Location)
    : list AccessibilityFeature :=
  filter (fun feature =>
    (if isActive feature
     then isPointNearLine (flocation feature) startPoint endPoint (dec 20 1)
     else false) = true) (features this).

(** The loop [for (let i = 0; i < route.length - 1; i++)]. *)
Fixpoint segmentsLoop (this : Service) (route : list Location)
    (relevantFeatures : list AccessibilityFeature) : list AccessibilityFeature :=
  match route with
  | startPoint :: ((endPoint :: _) as rest) =>
      segmentsLoop this rest
        (fold_left pushIfNew (featuresOnSegment this startPoint endPoint)
           relevantFeatures)
  | _ => relevantFeatures
  end.

Definition getAccessibleFeaturesOnRoute (this : Service) (route : list Location)
    : list AccessibilityFeature :=
  match route with
  | route0 :: _ :: _ =>
      Array_sort (fun a b =>
          number_sub (calculateBaseDistance route0 (flocation a))
                     (calculateBaseDistance route0 (flocation b)))
        (segmentsLoop this route [])
  | _ => []
  end.

(** ** Grid-expansion A* search *)

(** The string [`${latitude},${longitude}`]: two locations have the
    same key exactly when they have the same coordinates. *)
Definition locationToKey (location : Location) : Qc * Qc :=
  (latitude location, longitude location).

(** A [Location] object on the heap: its identity and its value.  The
    open set is a [Set<Location>], a set of object identities in
    insertion order. *)
Definition Obj : Type := nat * Location.

(** [Set.prototype.add] and [delete] compare objects by identity. *)
Definition Set_add (s : list Obj) (o : Obj) : list Obj :=
  if existsb (fun e => Nat.eqb (fst e) (fst o)) s then s else s ++ [o].

Definition Set_delete (s : list Obj) (o : Obj) : list Obj :=
  filter (fun e => fst e ≠ fst o) s.

Record SearchState : Type := mkSearchState {
  openSet : list Obj;
  cameFrom : gmap (Qc * Qc) Location;
  gScore : gmap (Qc * Qc) number;
  fScore : gmap (Qc * Qc) number;
  nextId : nat
}.

Definition getLowestFScore (openSet : list Obj) (fScore : gmap (Qc * Qc) number)
    : option Obj :=
  snd (fold_left (fun (acc : number * option Obj) node =>
         let score := default Infinity (fScore !! locationToKey (snd node)) in
         if number_ltb score (fst acc) then (score, Some node) else acc)
       openSet (Infinity, None)).

Definition gridSize : Qc := dec 1 10000.

Definition gridOffsets : list (Z * Z) :=
  flat_map (fun i => flat_map (fun j =>
    if (Z.eqb i 0 && Z.eqb j 0)%bool then [] else [(i, j)]) [-1; 0; 1]%Z) [-1; 0; 1]%Z.

(** Every neighbour is a new object: the [n]-th object literal of the
    call gets the identity [next + n]. *)
Definition getAccessibleNeighbors (this : Service) (current : Location)
    (preferences : AccessibilityPreferences) (next : nat) : list Obj :=
  omap (fun '(n, (i, j)) =>
      let neighbor := {| latitude := latitude current + dec i 1 * gridSize;
                         longitude := longitude current + dec j 1 * gridSize |} in
      if isLocationAccessible this neighbor preferences
      then Some ((next + n)%nat, neighbor) else None)
    (imap (fun n ij => (n, ij)) gridOffsets).

(** The body of the loop over the neighbours.  A missing [gScore] of
    [current] would make [tentativeGScore] NaN, and the comparison
    false. *)
Definition relax (this : Service) (end_ : Location)
    (preferences : AccessibilityPreferences) (current : Location)
    (st : SearchState) (neighbor : Obj) : SearchState :=
  match gScore st !! locationToKey current with
  | None => st
  | Some g =>
      let tentativeGScore :=
        number_add g (calculatePathWeight this current (snd neighbor) preferences) in
      if number_ltb tentativeGScore
           (default Infinity (gScore st !! locationToKey (snd neighbor)))
      then {| openSet := Set_add (openSet st) neighbor;
              cameFrom := <[locationToKey (snd neighbor) := current]> (cameFrom st);
              gScore := <[locationToKey (snd neighbor) := tentativeGScore]> (gScore st);
              fScore := <[locationToKey (snd neighbor) :=
                            number_add tentativeGScore
                              (estimateDistance (snd neighbor) end_)]> (fScore st);
              nextId := nextId st |}
      else st
  end.

Definition expand (this : Service) (end_ : Location)
    (preferences : AccessibilityPreferences) (current : Obj)
    (st : SearchState) : SearchState :=
  fold_left (relax this end_ preferences (snd current))
    (getAccessibleNeighbors this (snd current) preferences (nextId st))
    {| openSet := Set_delete (openSet st) current;
       cameFrom := cameFrom st;
       gScore := gScore st;
       fScore := fScore st;
       nextId := (nextId st + length gridOffsets)%nat |}.

(** One turn of [while (openSet.size > 0)]. *)
Inductive StepResult : Type :=
| Continue (st : SearchState)
| Arrived (current : Location)
| Exhausted
| Failed (e : Error).

Definition searchStep (this : Service) (end_ : Location)
    (preferences : AccessibilityPreferences) (st : SearchState) : StepResult :=
  match openSet st with
  | [] => Exhausted
  | _ :: _ =>
      match getLowestFScore (openSet st) (fScore st) with
      | None => Failed NoNodesInOpenSet
      | Some current =>
          if isAtDestination (snd current) end_ then Arrived (snd current)
          else Continue (expand this end_ preferences current st)
      end
  end.

(** [reconstructPath]: the loop [while (cameFrom.has(currentKey))]. *)
Fixpoint reconstructLoop (fuel : nat) (cameFrom : gmap (Qc * Qc) Location)
    (currentKey : Qc * Qc) (path : list Location) : option (list Location) :=
  match fuel with
  | O => None
  | S fuel' =>
      match cameFrom !! currentKey with
      | Some current =>
          reconstructLoop fuel' cameFrom (locationToKey current) (current :: path)
      | None => Some path
      end
  end.

Definition reconstructPath (fuel : nat) (cameFrom : gmap (Qc * Qc) Location)
    (current : Location) : option (list Location) :=
  reconstructLoop fuel cameFrom (locationToKey current) [current].

Fixpoint searchLoop (fuel : nat) (this : Service) (end_ : Location)
    (preferences : AccessibilityPreferences) (st : SearchState)
    : option (Completion (list Location)) :=
  match fuel with
  | O => None
  | S fuel' =>
      match searchStep this end_ preferences st with
      | Exhausted => Some (Throw NoAccessibleRouteFound)
      | Failed e => Some (Throw e)
      | Arrived current => Return <$> reconstructPath fuel' (cameFrom st) current
      | Continue st' => searchLoop fuel' this end_ preferences st'
      end
  end.

Definition initialState (start end_ : Location) : SearchState :=
  {| openSet := [(O, start)];
     cameFrom := ∅;
     gScore := {[ locationToKey start := Fin 0 ]};
     fScore := {[ locationToKey start := estimateDistance start end_ ]};
     nextId := 1 |}.

(** The method; [None] when [fuel] turns of the loops do not complete
    the call.  The second component is the service after the call. *)
Definition findAccessibleRoute (fuel : nat) (start end_ : Location)
    (preferences : AccessibilityPreferences) (this : Service)
    : option (Completion (list Location) * Service) :=
  (fun c => (c, this)) <$>
    searchLoop fuel this end_ preferences (initialState start end_).

(** The state after [n] complete turns of the loop, if the loop makes
    that many. *)
Fixpoint turns (n : nat) (this : Service) (end_ : Location)
    (preferences : AccessibilityPreferences) (st : SearchState)
    : option SearchState :=
  match n with
  | O => Some st
  | S n' =>
      match searchStep this end_ preferences st with
      | Continue st' => turns n' this end_ preferences st'
      | _ => None
      end
  end.

End Routing.

(** ** A reference [Math] library

    Twelve-digit fixed-point evaluations of the Taylor polynomials, good
    for the small angles of the test scenarios (grid steps of 0.0001
    degrees near the equator; the haversine formula calls [atan2] with
    a small non-negative [y] and an [x] near 1).  It runs the scenarios
    below and shows that [MathLaws] can be met. *)

Module Ref.

Definition scale : Z := 10 ^ 12.

Definition toFix (x : Qc) : Z :=
  Z.quot (Qnum (this x) * scale) (Zpos (Qden (this x))).

Definition ofFix (n : Z) : Qc := Q2Qc (n # 1000000000000).

Definition fmul (a b : Z) : Z := Z.quot (a * b) scale.

Definition PI : Qc := dec 3141592653589793 1000000000000000.

Definition sin (x : Qc) : Qc :=
  let q := toFix x in
  let q2 := fmul q q in
  let q3 := fmul q2 q in
  let q5 := fmul q3 q2 in
  ofFix (q - Z.quot q3 6 + Z.quot q5 120).

Definition cos (x : Qc) : Qc :=
  let q := toFix x in
  let q2 := fmul q q in
  let q4 := fmul q2 q2 in
  let q6 := fmul q4 q2 in
  ofFix (scale - Z.quot q2 2 + Z.quot q4 24 - Z.quot q6 720).

Definition sqrt (x : Qc) : Qc :=
  ofFix (Z.sqrt (Z.quot (Qnum (this x) * (scale * scale)) (Zpos (Qden (this x))))).

Definition atan2 (y x : Qc) : Qc :=
  if bool_decide (0 < x) then
    let z := toFix (y / x) in
    let z2 := fmul z z in
    let z3 := fmul z2 z in
    let z5 := fmul z3 z2 in
    let p := (z - Z.quot z3 3 + Z.quot z5 5)%Z in
    ofFix (if bool_decide (0 <= y) then Z.max 0 p else Z.min 0 p)
  else if bool_decide (0 < y) then PI / dec 2 1
  else if bool_decide (y < 0) then - (PI / dec 2 1)
  else 0.

#[global] Instance lib : MathLib :=
  {| Math_PI := PI; Math_sin := sin; Math_cos := cos;
     Math_sqrt := sqrt; Math_atan2 := atan2 |}.

(** Coordinates in units of 0.00001 degrees. *)
Definition at_ (lat lon : Z) : Location :=
  {| latitude := dec lat 100000; longitude := dec lon 100000 |}.

End Ref.

(** ** Test scenarios, on the reference library *)

Module Scenario.

Import Ref.

Definition origin : Location := at_ 0 0.
Definition east10 : Location := at_ 0 10.
Definition east30 : Location := at_ 0 30.
Definition east100 : Location := at_ 0 100.

Definition plain : AccessibilityPreferences :=
  {| requiresWheelchairAccess := false; preferWellLit := false;
     needsRestStops := false; maximumSlope := None; minimumPathWidth := None |}.

Definition wheelchair : AccessibilityPreferences :=
  {| requiresWheelchairAccess := true; preferWellLit := true;
     needsRestStops := false; maximumSlope := None; minimumPathWidth := None |}.

Definition wheelchairReserved : AccessibilityPreferences :=
  {| requiresWheelchairAccess := true; preferWellLit := true;
     needsRestStops := false;
     maximumSlope := Some (dec 5 1); minimumPathWidth := Some (dec 12 10) |}.

Definition wellLit : AccessibilityPreferences :=
  {| requiresWheelchairAccess := false; preferWellLit := true;
     needsRestStops := false; maximumSlope := None; minimumPathWidth := None |}.

(** A dark stretch, stairs and a ramp, all halfway between [origin] and
    [east10]. *)
Definition darkStairs : AccessibilityObstacle :=
  {| otype := poor_lighting; olocation := at_ 0 5;
     odescription := "unlit stairwell"%string; temporaryUntil := None |}.

Definition theStairs : AccessibilityObstacle :=
  {| otype := stairs; olocation := at_ 0 5;
     odescription := "stairs"%string; temporaryUntil := None |}.

Definition theRamp : AccessibilityFeature :=
  {| ftype := ramp; flocation := at_ 0 5;
     fdescription := "ramp beside the stairs"%string; isActive := true |}.

Definition stairsService : Service := constructor [theRamp] [darkStairs; theStairs].

(** A ramp that is out of service, at [origin]. *)
Definition closedRamp : AccessibilityFeature :=
  {| ftype := ramp; flocation := origin;
     fdescription := "ramp, out of service"%string; isActive := false |}.

Definition closedRampService : Service := constructor [closedRamp] [].

(** A dark spot north-west of [origin]: near the diagonal edge from
    [origin] to the north-east, away from the edges that go around it. *)
Definition darkSpot : AccessibilityObstacle :=
  {| otype := poor_lighting; olocation := at_ 13 (-3);
     odescription := "broken street lamp"%string; temporaryUntil := None |}.

Definition darkSpotService : Service := constructor [] [darkSpot].

Definition emptyService : Service := constructor [] [].

(** Stairs at [origin]: every grid neighbour of [origin] is within 20 m
    of them. *)
Definition stairsAtOrigin : AccessibilityObstacle :=
  {| otype := stairs; olocation := origin;
     odescription := "stairs"%string; temporaryUntil := None |}.

Definition blockedService : Service := constructor [] [stairsAtOrigin].

(** An entrance with a ramp and an elevator at the same coordinates, a
    bench further east, a tactile strip that is out of service, and a
    lamp far from the route. *)
Definition entranceRamp : AccessibilityFeature :=
  {| ftype := ramp; flocation := at_ 0 5;
     fdescription := "entrance ramp"%string; isActive := true |}.

Definition entranceElevator : AccessibilityFeature :=
  {| ftype := elevator; flocation := at_ 0 5;
     fdescription := "entrance elevator"%string; isActive := true |}.

Definition bench : AccessibilityFeature :=
  {| ftype := rest_area; flocation := at_ 0 15;
     fdescription := "bench"%string; isActive := true |}.

Definition tactileStrip : AccessibilityFeature :=
  {| ftype := tactile_paving; flocation := at_ 0 10;
     fdescription := "tactile strip, removed"%string; isActive := false |}.

Definition farLamp : AccessibilityFeature :=
  {| ftype := well_lit; flocation := at_ 500 500;
     fdescription := "street lamp"%string; isActive := true |}.

Definition annotatedService : Service :=
  constructor [bench; farLamp; entranceRamp; tactileStrip; entranceElevator] [].

Definition threePoints : list Location := [origin; east10; at_ 0 20].

(** A distance in millimetres, rounded toward zero, for display; -1
    for a distance that is not finite. *)
Definition millimetres (n : number) : Z :=
  match n with
  | Fin q => Z.quot (Qnum (this q) * 1000) (Zpos (Qden (this q)))
  | _ => -1
  end.

(** The route that a search returns, if it returns one. *)
Definition routeOf (r : option (Completion (list Location) * Service))
    : list Location :=
  match r with
  | Some (Return route, _) => route
  | _ => []
  end.

(** Coordinates in units of 0.00001 degrees, for display. *)
Definition coordinates (l : Location) : Z * Z :=
  (Z.quot (Qnum (this (latitude l)) * 100000) (Zpos (Qden (this (latitude l)))),
   Z.quot (Qnum (this (longitude l)) * 100000) (Zpos (Qden (this (longitude l))))).

(** The open set as identities and coordinates. *)
Definition showOpenSet (st : SearchState) : list (Z * (Z * Z)) :=
  (fun o : Obj => (Z.of_nat (fst o), coordinates (snd o))) <$> openSet st.

End Scenario.

(** ** Predicates of the specification *)

Section Specification.

Context {M : MathLib}.

(** The point passes the segment-near test (threshold 20) for some pair
    of consecutive points of the route. *)
Definition nearSomeSegment (route : list Location) (point : Location) : Prop :=
  exists i startPoint endPoint,
    route !! i = Some startPoint /\
    route !! S i = Some endPoint /\
    isPointNearLine point startPoint endPoint (dec 20 1) = true.

(** The term [a] of the haversine formula for two points. *)
Definition haversineTerm (start end_ : Location) : Qc :=
  let phi1 := (latitude start * Math_PI) / dec 180 1 in
  let phi2 := (latitude end_ * Math_PI) / dec 180 1 in
  let dphi := ((latitude end_ - latitude start) * Math_PI) / dec 180 1 in
  let dlambda := ((longitude end_ - longitude start) * Math_PI) / dec 180 1 in
  Math_sin (dphi / dec 2 1) * Math_sin (dphi / dec 2 1) +
  Math_cos phi1 * Math_cos phi2 *
  Math_sin (dlambda / dec 2 1) * Math_sin (dlambda / dec 2 1).

(** Two preference records that differ at most in the reserved fields
    [maximumSlope] and [minimumPathWidth]. *)
Definition samePreferences (p p' : AccessibilityPreferences) : Prop :=
  requiresWheelchairAccess p = requiresWheelchairAccess p' /\
  preferWellLit p = preferWellLit p' /\
  needsRestStops p = needsRestStops p'.

(** What the search maintains: every open point has a [gScore]; every
    scored key is the start's or has a back-pointer; every back-pointer
    leads to a scored point. *)
Definition searchInv (start : Location) (st : SearchState) : Prop :=
  (forall o, o ∈ openSet st ->
     is_Some (gScore st !! locationToKey (snd o))) /\
  (forall k, is_Some (gScore st !! k) ->
     k = locationToKey start \/ is_Some (cameFrom st !! k)) /\
  (forall k c, cameFrom st !! k = Some c ->
     is_Some (gScore st !! locationToKey c)).

(** The feature collection restricted to the active features. *)
Definition activeOnly (this : Service) : Service :=
  {| features := filter (fun f => isActive f = true) (features this);
     obstacles := obstacles this;
     userPreferences := userPreferences this |}.

(** No two entries of the open set have the same coordinates. *)
Definition openSetDistinct (st : SearchState) : Prop :=
  NoDup (locationToKey <$> (snd <$> openSet st)).

(** [b] is one of the eight grid neighbours of [a]. *)
Definition gridStep (a b : Location) : Prop :=
  exists i j, (i, j) ∈ gridOffsets /\
    b = {| latitude := latitude a + dec i 1 * gridSize;
           longitude := longitude a + dec j 1 * gridSize |}.

(** Every back-pointer goes one grid step back. *)
Definition searchGrid (st : SearchState) : Prop :=
  forall k c, cameFrom st !! k = Some c ->
    exists b, locationToKey b = k /\ gridStep c b.

(** The order in which back-pointers descend: by [gScore], then by a
    stamp [T] of the keys. *)
Definition scoreOf (gScore : gmap (Qc * Qc) number) (k : Qc * Qc) : Qc :=
  match gScore !! k with
  | Some (Fin q) => q
  | _ => 0
  end.

Definition before (gScore : gmap (Qc * Qc) number) (T : Qc * Qc -> nat)
    (k' k : Qc * Qc) : Prop :=
  scoreOf gScore k' < scoreOf gScore k \/
  (scoreOf gScore k' = scoreOf gScore k /\ (T k' < T k)%nat).

(** Scores are finite and not negative, and every back-pointer leads to
    a key that is [before] its source. *)
Definition searchOrder (st : SearchState) : Prop :=
  (forall k v, gScore st !! k = Some v -> exists q, v = Fin q /\ 0 <= q) /\
  exists T, forall k c,
    cameFrom st !! k = Some c -> before (gScore st) T (locationToKey c) k.

Global Instance openSetDistinct_dec st : Decision (openSetDistinct st).
Proof. unfold openSetDistinct. apply _. Defined.

End Specification.

(** * The rest of the code

    The other functions of the service's surroundings: the navigation
    utilities ([src/utils/navigation.ts]), the guidance of
    [NavigationAssistant] and the handlers of [MainScreen], which call
    the service and the utilities. *)

From Stdlib Require Import Qround Lqa.
From stdpp Require Import pretty.

Local Open Scope Qc_scope.

(** ** More of the [Math] object and of the numbers *)

(** The range of [Math.atan2], from minus pi to pi. *)
Class MathRange (M : MathLib) : Prop := {
  Math_PI_pos : 0 < Math_PI;
  Math_atan2_range : forall y x, - Math_PI <= Math_atan2 y x /\ Math_atan2 y x <= Math_PI
}.

(** [Math.round]: the integer nearest to [x], halves upward. *)
Definition Math_round (x : Qc) : Z := Qfloor (this x + (1 # 2)).

(** The integer part of a number, toward zero. *)
Definition number_trunc (x : Qc) : Z :=
  Z.quot (Qnum (this x)) (Zpos (Qden (this x))).

(** The remainder [n % d] of numbers: it has the sign of [n]. *)
Definition number_rem (n d : Qc) : Qc := n - d * dec (number_trunc (n / d)) 1.

(** A template literal's rendering of an integer-valued number (below
    10^21 in magnitude, as rounded distances in metres are), of
    [Math.round] of a number, and of a string that may be
    [undefined]. *)
Definition showNumber (n : Z) : string := pretty n.

Definition showRounded (n : number) : string :=
  match n with
  | Fin q => showNumber (Math_round q)
  | Infinity => "Infinity"%string
  | NaN => "NaN"%string
  end.

Definition showString (s : option string) : string := default "undefined"%string s.

(** ** Navigation utilities ([src/utils/navigation.ts]) *)

Section Navigation.

Context {M : MathLib}.

Definition getBearing (start end_ : Location) : Qc :=
  let lambda1 := (longitude start * Math_PI) / dec 180 1 in
  let lambda2 := (longitude end_ * Math_PI) / dec 180 1 in
  let phi1 := (latitude start * Math_PI) / dec 180 1 in
  let phi2 := (latitude end_ * Math_PI) / dec 180 1 in
  let y := Math_sin (lambda2 - lambda1) * Math_cos phi2 in
  let x := Math_cos phi1 * Math_sin phi2 -
           Math_sin phi1 * Math_cos phi2 * Math_cos (lambda2 - lambda1) in
  let theta := Math_atan2 y x in
  number_rem ((theta * dec 180 1) / Math_PI + dec 360 1) (dec 360 1).

End Navigation.

Definition directions : list string :=
  ["north"; "northeast"; "east"; "southeast";
   "south"; "southwest"; "west"; "northwest"]%string.

(** [directions[Math.round(bearing / 45) % 8]]: both operands of [%]
    are integers, and an index that is negative or past the end gives
    [undefined]. *)
Definition getCardinalDirection (bearing : Qc) : option string :=
  let index := Z.rem (Math_round (bearing / dec 45 1)) 8 in
  if (index <? 0)%Z then None else directions !! Z.to_nat index.

(** ** The guidance of [NavigationAssistant] *)

Inductive HapticFeedback : Type :=
| NotificationSuccess
| ImpactHeavy
| ImpactMedium
| ImpactLight.

Record SpeechOptions : Type := mkSpeechOptions {
  language : string;
  pitch : Qc;
  rate : Qc
}.

(** The calls to the device and to React that the components make. *)
Inductive Effect (State : Type) : Type :=
| Haptics (h : HapticFeedback)
| SpeechStop
| SpeechSpeak (message : string) (options : option SpeechOptions)
| ConsoleError (label : string)
| AlertAlert (title message : string)
| SetState (updater : State -> State).
Arguments Haptics {State} h.
Arguments SpeechStop {State}.
Arguments SpeechSpeak {State} message options.
Arguments ConsoleError {State} label.
Arguments AlertAlert {State} title message.
Arguments SetState {State} updater.

Definition guidanceVoice : SpeechOptions :=
  {| language := "en"; pitch := dec 10 10; rate := dec 9 10 |}.

(** The two refs of the component. *)
Record GuidanceRefs : Type := mkGuidanceRefs {
  lastAnnouncementRef : Qc;
  lastDistanceRef : number
}.

Definition initialRefs : GuidanceRefs :=
  {| lastAnnouncementRef := 0; lastDistanceRef := Fin 0 |}.

Section Assistant.

Context {M : MathLib}.

Definition minAnnouncementInterval (distance : number) : Qc :=
  if number_ltb distance (Fin (dec 50 1)) then dec 3000 1
  else if number_ltb distance (Fin (dec 100 1)) then dec 5000 1
  else dec 10000 1.

(** [provideGuidance]; [now] is the value of [Date.now()].  The result
    is the refs after the call and the calls made, in order. *)
Definition provideGuidance (now : Qc) (refs : GuidanceRefs)
    (current dest : Location) : GuidanceRefs * list (Effect unit) :=
  let timeSinceLastAnnouncement := now - lastAnnouncementRef refs in
  let distance := calculateDistance current dest in
  let bearing := getBearing current dest in
  let direction := getCardinalDirection bearing in
  let isGettingCloser := number_ltb distance (lastDistanceRef refs) in
  let refs1 := {| lastAnnouncementRef := lastAnnouncementRef refs;
                  lastDistanceRef := distance |} in
  if Qc_ltb timeSinceLastAnnouncement (minAnnouncementInterval distance)
  then (refs1, [])
  else
    let refs2 := {| lastAnnouncementRef := now; lastDistanceRef := distance |} in
    let '(message, haptics) :=
      if number_ltb distance (Fin (dec 5 1)) then
        ("You have arrived at your destination"%string,
         [Haptics NotificationSuccess])
      else if number_ltb distance (Fin (dec 20 1)) then
        (("Your destination is " ++ showRounded distance ++
          " meters ahead. Head " ++ showString direction)%string,
         [Haptics ImpactHeavy])
      else if number_ltb distance (Fin (dec 50 1)) then
        (("Getting close. " ++ showRounded distance ++
          " meters to go. Continue " ++ showString direction)%string,
         [Haptics ImpactMedium])
      else
        (("Continue " ++ showString direction ++ " for " ++
          showRounded distance ++ " meters")%string,
         if isGettingCloser then [Haptics ImpactLight] else [])
    in
    (refs2, haptics ++ [SpeechStop; SpeechSpeak message (Some guidanceVoice)]).

End Assistant.

(** ** The handlers of [MainScreen] *)

(** [NavigationLocation] of the types, and the coordinates of a
    location object of the device. *)
Module Nav.
Record NavigationLocation : Type := mkNavigationLocation {
  latitude : Qc;
  longitude : Qc;
  altitude : option Qc;
  heading : option Qc;
  accuracy : option Qc
}.
End Nav.

Module Expo.
Record LocationObjectCoords : Type := mkCoords {
  latitude : Qc;
  longitude : Qc;
  altitude : option Qc;
  heading : option Qc;
  accuracy : option Qc
}.
End Expo.

(** A [NavigationLocation] where a [Location] is expected is read
    through its latitude and longitude. *)
Definition toLocation (l : Nav.NavigationLocation) : Location :=
  {| latitude := Nav.latitude l; longitude := Nav.longitude l |}.

(** [value || undefined] on a number that may be [null]: 0 is falsy. *)
Definition orUndefined (value : option Qc) : option Qc :=
  match value with
  | Some v => if bool_decide (v = 0) then None else Some v
  | None => None
  end.

Definition convertToNavigationLocation (coords : Expo.LocationObjectCoords)
    : Nav.NavigationLocation :=
  {| Nav.latitude := Expo.latitude coords;
     Nav.longitude := Expo.longitude coords;
     Nav.altitude := orUndefined (Expo.altitude coords);
     Nav.heading := orUndefined (Expo.heading coords);
     Nav.accuracy := orUndefined (Expo.accuracy coords) |}.

(** The route is the array that the service returns. *)
Record NavigationState : Type := mkNavigationState {
  currentLocation : option Nav.NavigationLocation;
  destination : option Nav.NavigationLocation;
  route : list Location;
  isNavigating : bool
}.

(** The state of the screen: the navigation state and the preferences. *)
Record ScreenState : Type := mkScreenState {
  navigationState : NavigationState;
  accessibilityPreferences : AccessibilityPreferences
}.

(** [const routingService = new AccessibilityRoutingService()]: the
    constructor's default arguments are empty arrays. *)
Definition routingService : Service := constructor [] [].

Section Screen.

Context {M : MathLib}.

(** [Array.prototype.join]. *)
Fixpoint join (separator : string) (l : list string) : string :=
  match l with
  | [] => EmptyString
  | [s] => s
  | s :: rest => (s ++ separator ++ join separator rest)%string
  end.

Definition startNavigation (navigationState : NavigationState)
    (destination : Nav.NavigationLocation) (accessibleRoute : list Location)
    : list (Effect ScreenState) :=
  match currentLocation navigationState with
  | None =>
      [AlertAlert "Error" "Unable to start navigation without current location"]
  | Some current =>
      let distance := calculateDistance (toLocation current) (toLocation destination) in
      let bearing := getBearing (toLocation current) (toLocation destination) in
      let direction := getCardinalDirection bearing in
      let features := getAccessibleFeaturesOnRoute routingService accessibleRoute in
      [Haptics NotificationSuccess;
       SpeechSpeak
         "Starting accessible navigation. Please hold your device in front of you."
         (Some guidanceVoice);
       SpeechSpeak
         ("Your destination is " ++ showRounded distance ++
          " meters away. I'll guide you along an accessible route. Head " ++
          showString direction)
         (Some guidanceVoice)] ++
      (if (0 <? length features)%nat then
         [SpeechSpeak
            ("Along this route, you'll find: " ++
             join ". " (fdescription <$> features))
            (Some guidanceVoice)]
       else [])
  end.

(** [handleDestinationSelect]: the calls made, in order; [None] when
    [fuel] turns do not complete the search. *)
Definition handleDestinationSelect (fuel : nat) (screen : ScreenState)
    (location : Nav.NavigationLocation) : option (list (Effect ScreenState)) :=
  let failure :=
    [ConsoleError "Error finding accessible route:";
     AlertAlert "Navigation Error"
       "Unable to find an accessible route to this destination. Please try another destination or adjust your accessibility preferences."] in
  match currentLocation (navigationState screen) with
  | None => Some failure
  | Some current =>
      match findAccessibleRoute fuel (toLocation current) (toLocation location)
              (accessibilityPreferences screen) routingService with
      | None => None
      | Some (Throw _, _) => Some failure
      | Some (Return accessibleRoute, _) =>
          Some (SetState (fun prev =>
                  {| navigationState :=
                       {| currentLocation := currentLocation (navigationState prev);
                          destination := Some location;
                          route := accessibleRoute;
                          isNavigating := true |};
                     accessibilityPreferences := accessibilityPreferences prev |})
                :: startNavigation (navigationState screen) location accessibleRoute)
      end
  end.

(** [handlePreferencesSave]. *)
Definition handlePreferencesSave (fuel : nat) (screen : ScreenState)
    (preferences : AccessibilityPreferences) : option (list (Effect ScreenState)) :=
  let save :=
    SetState (fun prev =>
      {| navigationState := navigationState prev;
         accessibilityPreferences := preferences |}) in
  match destination (navigationState screen),
        currentLocation (navigationState screen) with
  | Some dest, Some current =>
      match findAccessibleRoute fuel (toLocation current) (toLocation dest)
              preferences routingService with
      | None => None
      | Some (Throw _, _) =>
          Some [save;
                ConsoleError "Error updating route:";
                AlertAlert "Error"
                  "Unable to find an accessible route with these preferences"]
      | Some (Return newRoute, _) =>
          Some [save;
                SetState (fun prev =>
                  {| navigationState :=
                       {| currentLocation := currentLocation (navigationState prev);
                          destination := destination (navigationState prev);
                          route := newRoute;
                          isNavigating := isNavigating (navigationState prev) |};
                     accessibilityPreferences := accessibilityPreferences prev |});
                Haptics NotificationSuccess;
                SpeechSpeak "Route updated based on your accessibility preferences"
                  None]
      end
  | _, _ => Some [save]
  end.

End Screen.

(** ** More for the scenarios *)

(** The reference library with the result of [atan2] cut off at minus
    pi and pi, the range of [Math.atan2]: it shows that [MathRange]
    can be met. *)
Module Clamped.

Definition atan2 (y x : Qc) : Qc :=
  let theta := Ref.atan2 y x in
  if Qc_ltb theta (- Ref.PI) then - Ref.PI
  else if Qc_ltb Ref.PI theta then Ref.PI
  else theta.

Definition lib : MathLib :=
  {| Math_PI := Ref.PI; Math_sin := Ref.sin; Math_cos := Ref.cos;
     Math_sqrt := Ref.sqrt; Math_atan2 := atan2 |}.

End Clamped.

(** Stairs beside the way east of [origin]: 17.6 m from the points
    (10, 10) and (10, 20), more than 20 m from the points of the way. *)
Module Beside.

Definition sideStairs : AccessibilityObstacle :=
  {| otype := stairs; olocation := Ref.at_ 25 15;
     odescription := "stairs to the terrace"%string; temporaryUntil := None |}.

Definition sideStairsService : Service := constructor [] [sideStairs].

(** A point 3.3 m east of [origin]. *)
Definition nearby : Location := Ref.at_ 0 3.

(** A point 38 m from [origin] that no point of the grid of [origin]
    is within 5 m of: the nearest, (0, 30), is 5.6 m away. *)
Definition offGrid : Location := Ref.at_ 3 34.

(** A user who requires wheelchair access and nothing else. *)
Definition wheelchairOnly : AccessibilityPreferences :=
  {| requiresWheelchairAccess := true; preferWellLit := false;
     needsRestStops := false; maximumSlope := None; minimumPathWidth := None |}.

(** The weight of an edge, if it is finite. *)
Definition weightOf (weight : number) : Qc :=
  match weight with
  | Fin w => w
  | _ => 0
  end.

End Beside.

(** Two points that are nearly antipodal, (8, 0) and (-8, -180): the
    haversine term of the pair exceeds 1 (in the source by rounding, to
    1.0000000000000002; in the reference library by the error of its
    polynomials), so their distance is NaN.  Around the second point, a
    short way from south to north with three features on it. *)
Module Antipodes.

Definition here : Location := Ref.at_ 800000 0.
Definition there : Location := Ref.at_ (-800000) (-18000000).

Definition southOfThere : Location := Ref.at_ (-800010) (-18000000).
Definition northOfThere : Location := Ref.at_ (-799990) (-18000000).

Definition farWay : list Location := [here; southOfThere; northOfThere].

Definition farRamp : AccessibilityFeature :=
  {| ftype := ramp; flocation := Ref.at_ (-800003) (-18000000);
     fdescription := "ramp"%string; isActive := true |}.

Definition farLift : AccessibilityFeature :=
  {| ftype := elevator; flocation := there;
     fdescription := "lift"%string; isActive := true |}.

Definition farBench : AccessibilityFeature :=
  {| ftype := rest_area; flocation := Ref.at_ (-799992) (-18000000);
     fdescription := "bench"%string; isActive := true |}.

Definition farService : Service := constructor [farRamp; farLift; farBench] [].

Definition farCone : AccessibilityObstacle :=
  {| otype := construction; olocation := there;
     odescription := "road works"%string; temporaryUntil := None |}.

Definition coneService : Service := constructor [] [farCone].

End Antipodes.

(** ** Predicates on the search, for the properties of the rest *)

Section SearchPredicates.

Context {M : MathLib}.

(** The score that [getLowestFScore] reads for a node. *)
Definition scoreOfNode (fScore : gmap (Qc * Qc) number) (node : Obj) : number :=
  default Infinity (fScore !! locationToKey (snd node)).

(** Every back-pointer was set for an accessible point, over an edge
    of finite weight. *)
Definition searchSafe (this : Service) (preferences : AccessibilityPreferences)
    (st : SearchState) : Prop :=
  forall k c, cameFrom st !! k = Some c ->
    exists b, locationToKey b = k /\
      isLocationAccessible this b preferences = true /\
      exists w, calculatePathWeight this c b preferences = Fin w.

(** Nothing can block: wheelchair access is not required, or the
    knowledge base has no [stairs] and no [narrow_path] obstacle. *)
Definition unobstructed (this : Service) (preferences : AccessibilityPreferences)
    : Prop :=
  requiresWheelchairAccess preferences = false \/
  forall o, o ∈ obstacles this -> isBarrier (otype o) = false.

(** The grid neighbour to the north, and that the step to it has a
    distance (in the source its haversine term is about 7.6e-13). *)
Definition northOf (a : Location) : Location :=
  {| latitude := latitude a + dec 1 1 * gridSize;
     longitude := longitude a + dec 0 1 * gridSize |}.

Definition northMeasured : Prop :=
  forall a, exists d, calculateBaseDistance a (northOf a) = Fin d.

(** What the search keeps when nothing can block: stored scores are
    finite, the start is scored, the objects of the open set are
    distinct and older than [nextId], and every scored key has an open
    point at its latitude or north of it. *)
Definition searchOpen (start : Location) (st : SearchState) : Prop :=
  (forall k v, gScore st !! k = Some v -> exists q, v = Fin q) /\
  is_Some (gScore st !! locationToKey start) /\
  NoDup (fst <$> openSet st) /\
  (forall o, o ∈ openSet st -> (fst o < nextId st)%nat) /\
  (forall k, is_Some (gScore st !! k) ->
     exists o, o ∈ openSet st /\ fst k <= latitude (snd o)).

End SearchPredicates.

(** * Properties *)

(** ** The reference library meets [MathLaws] *)

Lemma Ref_toFix_opp x : Ref.toFix (- x) = (- Ref.toFix x)%Z.
Proof.
  unfold Ref.toFix. destruct x as [q Hq]. simpl.
  rewrite Qred_opp, Hq. destruct q as [n d]. simpl.
  rewrite Z.mul_opp_l. apply Z.quot_opp_l. discriminate.
Qed.

Lemma Ref_ofFix_opp n : Ref.ofFix (- n) = - Ref.ofFix n.
Proof.
  unfold Ref.ofFix. apply Qc_is_canon. simpl.
  rewrite !Qred_correct. reflexivity.
Qed.

Lemma Ref_fmul_opp_opp a b : Ref.fmul (- a) (- b) = Ref.fmul a b.
Proof. unfold Ref.fmul. now rewrite Z.mul_opp_opp. Qed.

Lemma Ref_fmul_opp_r a b : Ref.fmul a (- b) = (- Ref.fmul a b)%Z.
Proof. unfold Ref.fmul. rewrite Z.mul_opp_r. apply Z.quot_opp_l. discriminate. Qed.

Lemma Ref_fmul_opp_l a b : Ref.fmul (- a) b = (- Ref.fmul a b)%Z.
Proof. unfold Ref.fmul. rewrite Z.mul_opp_l. apply Z.quot_opp_l. discriminate. Qed.

Lemma Ref_ofFix_nonneg n : (0 <= n)%Z -> 0 <= Ref.ofFix n.
Proof.
  intros Hn. unfold Ref.ofFix, Qcle. simpl. rewrite !Qred_correct.
  unfold Qle. simpl. lia.
Qed.

Lemma Ref_sin_odd x : Ref.sin (- x) = - Ref.sin x.
Proof.
  unfold Ref.sin. cbv zeta.
  rewrite Ref_toFix_opp, Ref_fmul_opp_opp, Ref_fmul_opp_r, Ref_fmul_opp_l.
  rewrite <- Ref_ofFix_opp. f_equal.
  rewrite !Z.quot_opp_l by discriminate. lia.
Qed.

Lemma Ref_atan2_nonneg y x : 0 <= y -> 0 <= Ref.atan2 y x.
Proof.
  intros Hy. unfold Ref.atan2. case_bool_decide.
  - apply Ref_ofFix_nonneg. rewrite bool_decide_eq_true_2 by exact Hy. lia.
  - case_bool_decide; [now vm_compute|].
    rewrite bool_decide_eq_false_2; [apply Qcle_refl|].
    intros Hlt. exact (Qcle_not_lt _ _ Hy Hlt).
Qed.

Lemma Ref_atan2_0 x : 0 <= x -> Ref.atan2 0 x = 0.
Proof.
  intros Hx. unfold Ref.atan2. case_bool_decide.
  - replace (0 / x) with 0 by (unfold Qcdiv; ring). now apply Qc_is_canon.
  - rewrite !bool_decide_eq_false_2; try reflexivity;
      intros H0; now vm_compute in H0.
Qed.

Lemma Ref_sqrt_nonneg x : 0 <= Ref.sqrt x.
Proof. apply Ref_ofFix_nonneg, Z.sqrt_nonneg. Qed.

#[global] Instance Ref_laws : MathLaws Ref.lib.
Proof.
  split.
  - now apply Qc_is_canon.
  - exact Ref_sin_odd.
  - now apply Qc_is_canon.
  - exact Ref_sqrt_nonneg.
  - exact Ref_atan2_0.
  - exact Ref_atan2_nonneg.
Qed.

(** ** Comparisons *)

Lemma Qc_ltb_true x y : Qc_ltb x y = true <-> x < y.
Proof. unfold Qc_ltb. apply bool_decide_eq_true. Qed.

Lemma Qc_ltb_false x y : Qc_ltb x y = false <-> y <= x.
Proof.
  unfold Qc_ltb. rewrite bool_decide_eq_false. split.
  - apply Qcnot_lt_le.
  - intros Hle Hlt. exact (Qcle_not_lt _ _ Hle Hlt).
Qed.

Lemma number_ltb_Fin_r a q : number_ltb a (Fin q) = true -> exists p, a = Fin p /\ p < q.
Proof.
  destruct a as [p| |]; simpl; [|discriminate..].
  intros H. exists p. split; [reflexivity|]. now apply Qc_ltb_true.
Qed.

Lemma number_ltb_is_Fin a b : number_ltb a b = true -> exists p, a = Fin p.
Proof. destruct a as [p| |]; simpl; [eauto|discriminate..]. Qed.

Lemma number_ltb_Fin_l q a :
  number_ltb (Fin q) a = true <-> a = Infinity \/ exists p, a = Fin p /\ q < p.
Proof.
  destruct a as [p| |]; simpl.
  - rewrite Qc_ltb_true. split.
    + intros H. right. now exists p.
    + intros [H|(p' & [= <-] & H)]; [discriminate|exact H].
  - split; [now left|reflexivity].
  - split; [discriminate|]. intros [H|(p & H & _)]; discriminate.
Qed.

Lemma number_add_Fin a b q :
  number_add a b = Fin q -> exists x y, a = Fin x /\ b = Fin y /\ q = x + y.
Proof.
  destruct a as [x| |], b as [y| |]; simpl; try discriminate.
  intros [= <-]. now exists x, y.
Qed.

Lemma number_mul_Fin a b q :
  number_mul a b = Fin q -> exists x y, a = Fin x /\ b = Fin y /\ q = x * y.
Proof.
  destruct a as [x| |], b as [y| |]; simpl; try discriminate.
  - intros [= <-]. now exists x, y.
  - destruct (Qc_ltb 0 x); discriminate.
  - destruct (Qc_ltb 0 y); discriminate.
Qed.

Lemma number_eqb_true a b : number_eqb a b = true <-> a = b /\ a <> NaN.
Proof.
  destruct a as [x| |], b as [y| |]; simpl;
    try (split; [discriminate|intros [H1 H2]; congruence]).
  - rewrite bool_decide_eq_true. split.
    + intros ->. split; [reflexivity|discriminate].
    + now intros [[= ->] _].
  - split; [intros _; split; [reflexivity|discriminate]|reflexivity].
Qed.

Lemma number_leb_false a q :
  number_leb a (Fin q) = false <-> a = NaN \/ a = Infinity \/ exists p, a = Fin p /\ q < p.
Proof.
  destruct a as [p| |]; simpl.
  - rewrite negb_false_iff, Qc_ltb_true. split.
    + intros H. right. right. now exists p.
    + intros [H|[H|(p' & [= <-] & H)]]; [discriminate..|exact H].
  - split; [intros _; right; now left|reflexivity].
  - split; [now left|reflexivity].
Qed.

Lemma isBarrier_spec t : isBarrier t = true <-> t = stairs \/ t = narrow_path.
Proof.
  unfold isBarrier. rewrite orb_true_iff, !bool_decide_eq_true. reflexivity.
Qed.

Section Properties.

Context {M : MathLib}.

(** ** Knowledge base and cost model *)

Lemma obstaclesLoop_barrier preferences l :
  requiresWheelchairAccess preferences = true ->
  (exists obstacle, obstacle ∈ l /\ isBarrier (otype obstacle) = true) ->
  forall weight, obstaclesLoop preferences weight l = None.
Proof.
  intros Hw. induction l as [|o l IH]; intros [x [Hin Hb]] weight.
  - inversion Hin.
  - simpl. rewrite Hw. simpl.
    destruct (isBarrier (otype o)) eqn:Ho; [reflexivity|].
    apply IH. exists x. split; [|exact Hb].
    inversion Hin; subst; [congruence|assumption].
Qed.

(** C1. With [requiresWheelchairAccess], an edge that has a [stairs] or
    [narrow_path] obstacle passing the segment-near test (threshold 20)
    weighs [Infinity], whatever the features and the other obstacles. *)
Theorem calculatePathWeight_hard_exclusion this start end_ preferences obstacle :
  requiresWheelchairAccess preferences = true ->
  obstacle ∈ obstacles this ->
  otype obstacle = stairs \/ otype obstacle = narrow_path ->
  isPointNearLine (olocation obstacle) start end_ (dec 20 1) = true ->
  calculatePathWeight this start end_ preferences = Infinity.
Proof.
  intros Hw Hin Ht Hnear. unfold calculatePathWeight.
  rewrite obstaclesLoop_barrier; [reflexivity|exact Hw|].
  exists obstacle. split.
  - unfold findObstaclesOnPath. apply list_elem_of_filter. now split.
  - now apply isBarrier_spec.
Qed.

Lemma isLocationAccessible_loop_false preferences l :
  (fix loop (l : list AccessibilityObstacle) : bool :=
     match l with
     | [] => true
     | obstacle :: rest =>
         if requiresWheelchairAccess preferences && isBarrier (otype obstacle)
         then false
         else loop rest
     end) l = false <->
  requiresWheelchairAccess preferences = true /\
  exists obstacle, obstacle ∈ l /\ isBarrier (otype obstacle) = true.
Proof.
  induction l as [|o l IH].
  - split; [discriminate|]. intros [_ [x [Hx _]]]. inversion Hx.
  - destruct (requiresWheelchairAccess preferences && isBarrier (otype o)) eqn:E.
    + apply andb_true_iff in E as [Hw Hb]. split; [|reflexivity].
      intros _. split; [exact Hw|]. exists o. split; [left|exact Hb].
    + rewrite IH. split.
      * intros [Hw [x [Hx Hb]]]. split; [exact Hw|]. exists x. split; [now right|exact Hb].
      * intros [Hw [x [Hx Hb]]]. split; [exact Hw|]. exists x. split; [|exact Hb].
        inversion Hx; subst; [|assumption].
        rewrite Hw, Hb in E. discriminate.
Qed.

Lemma isLocationAccessible_false this location preferences :
  isLocationAccessible this location preferences = false <->
  requiresWheelchairAccess preferences = true /\
  exists obstacle, obstacle ∈ obstacles this /\
    (otype obstacle = stairs \/ otype obstacle = narrow_path) /\
    number_ltb (calculateBaseDistance location (olocation obstacle))
      (Fin (dec 20 1)) = true.
Proof.
  unfold isLocationAccessible. rewrite isLocationAccessible_loop_false.
  split; intros [Hw [x Hx]]; (split; [exact Hw|]); exists x.
  - destruct Hx as [Hx Hb]. apply list_elem_of_filter in Hx as [Hd Hx].
    repeat split; [exact Hx| now apply isBarrier_spec | exact Hd].
  - destruct Hx as [Hx [Hb Hd]]. split; [|now apply isBarrier_spec].
    apply list_elem_of_filter. now split.
Qed.

(** C5. A point is inaccessible exactly when the preferences require
    wheelchair access and some [stairs] or [narrow_path] obstacle lies
    within 20 m of it (the source's strict [< 20]); the features, and
    the obstacles of the other types, do not enter the result. *)
Theorem isLocationAccessible_spec this location preferences :
  (isLocationAccessible this location preferences = false <->
   requiresWheelchairAccess preferences = true /\
   exists obstacle, obstacle ∈ obstacles this /\
     (otype obstacle = stairs \/ otype obstacle = narrow_path) /\
     number_ltb (calculateBaseDistance location (olocation obstacle))
       (Fin (dec 20 1)) = true) /\
  (forall fs prefs',
     isLocationAccessible
       {| features := fs; obstacles := obstacles this; userPreferences := prefs' |}
       location preferences =
     isLocationAccessible this location preferences) /\
  (forall this',
     filter (fun o => isBarrier (otype o) = true) (obstacles this') =
     filter (fun o => isBarrier (otype o) = true) (obstacles this) ->
     isLocationAccessible this' location preferences =
     isLocationAccessible this location preferences).
Proof.
  split; [apply isLocationAccessible_false|]. split; [reflexivity|].
  intros this' Hf.
  assert (Hiff : isLocationAccessible this' location preferences = false <->
                 isLocationAccessible this location preferences = false).
  { rewrite !isLocationAccessible_false.
    assert (Hmem : forall o, isBarrier (otype o) = true ->
                     (o ∈ obstacles this' <-> o ∈ obstacles this)).
    { intros o Hb.
      assert (H1 := list_elem_of_filter (fun o => isBarrier (otype o) = true)
                      (obstacles this') o).
      assert (H2 := list_elem_of_filter (fun o => isBarrier (otype o) = true)
                      (obstacles this) o).
      rewrite Hf in H1. tauto. }
    split; intros [Hw [x [Hx [Hb Hd]]]]; (split; [exact Hw|]); exists x;
      (split; [|now split]); apply Hmem; try assumption; now apply isBarrier_spec. }
  destruct (isLocationAccessible this' location preferences),
           (isLocationAccessible this location preferences); try reflexivity.
  - destruct Hiff as [_ Hiff]. now rewrite Hiff.
  - destruct Hiff as [Hiff _]. now rewrite Hiff.
Qed.


(** ** Geodesy *)

(** The distance is NaN when the haversine term is below 0 or above
    1, and the formula's value otherwise. *)
Lemma calculateBaseDistance_cases a b :
  calculateBaseDistance a b =
  if Qc_ltb (haversineTerm a b) 0 || Qc_ltb (1 - haversineTerm a b) 0 then NaN
  else Fin (dec 6371000 1 *
            (dec 2 1 * Math_atan2 (Math_sqrt (haversineTerm a b))
                                  (Math_sqrt (1 - haversineTerm a b)))).
Proof.
  unfold calculateBaseDistance, haversineTerm. cbv zeta. unfold number_sqrt.
  destruct (Qc_ltb _ 0); [reflexivity|].
  destruct (Qc_ltb _ 0); reflexivity.
Qed.

Lemma calculateBaseDistance_NaN a b :
  calculateBaseDistance a b = NaN <->
  haversineTerm a b < 0 \/ 1 < haversineTerm a b.
Proof.
  rewrite calculateBaseDistance_cases.
  destruct (Qc_ltb (haversineTerm a b) 0) eqn:E1; simpl.
  - apply Qc_ltb_true in E1. split; [now left|reflexivity].
  - destruct (Qc_ltb (1 - haversineTerm a b) 0) eqn:E2.
    + apply Qc_ltb_true in E2. split; [|reflexivity]. intros _. right.
      apply Qclt_minus_iff. apply Qclt_minus_iff in E2.
      now replace (haversineTerm a b + - 1) with (0 + - (1 - haversineTerm a b))
        by ring.
    + apply Qc_ltb_false in E1, E2. split; [discriminate|].
      intros [H|H]; exfalso.
      * exact (Qcle_not_lt _ _ E1 H).
      * apply (Qcle_not_lt _ _ E2). apply Qclt_minus_iff.
        apply Qclt_minus_iff in H.
        now replace (0 + - (1 - haversineTerm a b)) with (haversineTerm a b + - 1)
          by ring.
Qed.

Lemma calculateBaseDistance_not_Infinity a b : calculateBaseDistance a b <> Infinity.
Proof.
  rewrite calculateBaseDistance_cases. destruct (_ || _); discriminate.
Qed.

Lemma calculateBaseDistance_Fin a b :
  calculateBaseDistance a b <> NaN <-> exists d, calculateBaseDistance a b = Fin d.
Proof.
  rewrite calculateBaseDistance_cases. destruct (_ || _).
  - split; [congruence|]. intros [d Hd]. discriminate.
  - split; [eauto|discriminate].
Qed.

Lemma haversineTerm_same {L : MathLaws M} a : haversineTerm a a = 0.
Proof.
  unfold haversineTerm. cbv zeta.
  replace (latitude a - latitude a) with 0 by ring.
  replace (longitude a - longitude a) with 0 by ring.
  replace (0 * Math_PI / dec 180 1 / dec 2 1) with 0 by (unfold Qcdiv; ring).
  rewrite Math_sin_0. ring.
Qed.

Lemma haversineTerm_sym {L : MathLaws M} a b :
  haversineTerm a b = haversineTerm b a.
Proof.
  unfold haversineTerm. cbv zeta.
  replace ((latitude a - latitude b) * Math_PI / dec 180 1 / dec 2 1)
    with (- ((latitude b - latitude a) * Math_PI / dec 180 1 / dec 2 1))
    by (unfold Qcdiv; ring).
  replace ((longitude a - longitude b) * Math_PI / dec 180 1 / dec 2 1)
    with (- ((longitude b - longitude a) * Math_PI / dec 180 1 / dec 2 1))
    by (unfold Qcdiv; ring).
  rewrite !Math_sin_odd. ring.
Qed.

Lemma calculateBaseDistance_same {L : MathLaws M} a :
  calculateBaseDistance a a = Fin 0.
Proof.
  rewrite calculateBaseDistance_cases, haversineTerm_same.
  replace (1 - 0) with 1 by ring.
  replace (Qc_ltb 0 0 || Qc_ltb 1 0) with false by reflexivity.
  rewrite Math_sqrt_0, Math_atan2_0 by apply Math_sqrt_nonneg.
  apply f_equal. ring.
Qed.

Lemma calculateBaseDistance_sym {L : MathLaws M} a b :
  calculateBaseDistance a b = calculateBaseDistance b a.
Proof.
  now rewrite !calculateBaseDistance_cases, (haversineTerm_sym a b).
Qed.

Lemma calculateDistance_eq a b : calculateDistance a b = calculateBaseDistance a b.
Proof. reflexivity. Qed.


(** ** Route annotation *)

Section Sorting.

Context {A : Type}.

Lemma Array_insert_perm (compareFn : A -> A -> number) x l :
  Permutation (x :: l) (Array_insert compareFn x l).
Proof.
  induction l as [|y l IH]; cbn [Array_insert]; [reflexivity|].
  destruct (number_ltb (Fin 0) (compareFn x y)); [|reflexivity].
  rewrite perm_swap. now constructor.
Qed.

Lemma Array_sort_perm (compareFn : A -> A -> number) l :
  Permutation l (Array_sort compareFn l).
Proof.
  induction l as [|x l IH]; cbn [Array_sort]; [constructor|].
  rewrite <- Array_insert_perm. now constructor.
Qed.

(** The sort reads the comparator on the elements of the array only. *)
Lemma Array_insert_ext (f g : A -> A -> number) x l :
  (forall y, y ∈ l -> f x y = g x y) ->
  Array_insert f x l = Array_insert g x l.
Proof.
  induction l as [|y l IH]; intros H; cbn [Array_insert]; [reflexivity|].
  rewrite (H y) by left. rewrite IH; [reflexivity|].
  intros z Hz. apply H. now right.
Qed.

Lemma Array_sort_ext (f g : A -> A -> number) l :
  (forall x y, x ∈ l -> y ∈ l -> f x y = g x y) ->
  Array_sort f l = Array_sort g l.
Proof.
  induction l as [|x l IH]; intros H; cbn [Array_sort]; [reflexivity|].
  rewrite IH by (intros a b Ha Hb; apply H; now right).
  apply Array_insert_ext. intros y Hy. apply H; [left|].
  right. apply list_elem_of_In.
  apply (Permutation_in _ (Permutation_sym (Array_sort_perm g l))).
  now apply list_elem_of_In.
Qed.

(** A comparator by finite keys is consistent, and the result is
    sorted by the keys. *)
Variable key : A -> Qc.

Let byKey (a b : A) : number := number_sub (Fin (key a)) (Fin (key b)).

Lemma Qc_ltb_0_minus x y : Qc_ltb 0 (x - y) = Qc_ltb y x.
Proof.
  destruct (Qc_ltb y x) eqn:E.
  - apply Qc_ltb_true in E. apply Qc_ltb_true.
    apply Qclt_minus_iff in E. exact E.
  - apply Qc_ltb_false in E. apply Qc_ltb_false.
    apply Qcle_minus_iff in E.
    replace (y + - x) with (- (x - y)) in E by ring.
    apply Qcopp_le_compat in E.
    replace (- - (x - y)) with (x - y) in E by ring.
    exact E.
Qed.

Lemma byKey_ltb x y : number_ltb (Fin 0) (byKey x y) = Qc_ltb (key y) (key x).
Proof. unfold byKey. simpl. apply Qc_ltb_0_minus. Qed.

Lemma Array_insert_sorted x l :
  Sorted (fun a b => key a <= key b) l ->
  Sorted (fun a b => key a <= key b) (Array_insert byKey x l).
Proof.
  induction l as [|y l IH]; intros Hs; cbn [Array_insert].
  - repeat constructor.
  - rewrite byKey_ltb.
    destruct (Qc_ltb (key y) (key x)) eqn:E.
    + apply Qc_ltb_true in E. inversion Hs as [|? ? Hs' Hhd]; subst.
      constructor; [now apply IH|].
      destruct l as [|z l]; cbn [Array_insert].
      * constructor. now apply Qclt_le_weak.
      * rewrite byKey_ltb.
        destruct (Qc_ltb (key z) (key x)).
        -- constructor. now inversion Hhd.
        -- constructor. now apply Qclt_le_weak.
    + apply Qc_ltb_false in E. constructor; [exact Hs|]. now constructor.
Qed.

Lemma Array_sort_sorted l :
  StronglySorted (fun a b => key a <= key b) (Array_sort byKey l).
Proof.
  apply Sorted_StronglySorted.
  - intros a b c. apply Qcle_trans.
  - induction l as [|x l IH]; cbn [Array_sort]; [constructor|].
    now apply Array_insert_sorted.
Qed.

End Sorting.

Lemma sameCoordinates_spec f feature :
  sameCoordinates f feature = true <-> flocation f = flocation feature.
Proof.
  unfold sameCoordinates. rewrite andb_true_iff, !bool_decide_eq_true.
  destruct (flocation f), (flocation feature); simpl.
  split; [intros [-> ->]; reflexivity|intros [= -> ->]; now split].
Qed.

Lemma existsb_sameCoordinates acc feature :
  existsb (fun f => sameCoordinates f feature) acc = true <->
  flocation feature ∈ flocation <$> acc.
Proof.
  rewrite existsb_exists, list_elem_of_fmap. split.
  - intros [f [Hin Hs]]. exists f. split.
    + symmetry. now apply sameCoordinates_spec.
    + now apply list_elem_of_In.
  - intros [f [Heq Hin]]. exists f. split.
    + now apply list_elem_of_In.
    + apply sameCoordinates_spec. now symmetry.
Qed.

Lemma pushIfNew_elem acc feature f :
  f ∈ pushIfNew acc feature -> f ∈ acc \/ f = feature.
Proof.
  unfold pushIfNew. destruct (existsb _ acc); [now left|].
  rewrite elem_of_app, list_elem_of_singleton. tauto.
Qed.

Lemma pushIfNew_mono acc feature f : f ∈ acc -> f ∈ pushIfNew acc feature.
Proof.
  unfold pushIfNew. destruct (existsb _ acc); [tauto|].
  rewrite elem_of_app. tauto.
Qed.

Lemma pushIfNew_covers acc feature :
  flocation feature ∈ flocation <$> pushIfNew acc feature.
Proof.
  unfold pushIfNew.
  destruct (existsb (fun f => sameCoordinates f feature) acc) eqn:E.
  - now apply existsb_sameCoordinates.
  - rewrite fmap_app, elem_of_app. right. simpl. left.
Qed.

Lemma pushIfNew_NoDup acc feature :
  NoDup (flocation <$> acc) -> NoDup (flocation <$> pushIfNew acc feature).
Proof.
  intros Hnd. unfold pushIfNew.
  destruct (existsb (fun f => sameCoordinates f feature) acc) eqn:E; [exact Hnd|].
  rewrite fmap_app. apply NoDup_app. split; [exact Hnd|]. split.
  - intros x Hx Hx'. simpl in Hx'. apply list_elem_of_singleton in Hx'. subst x.
    apply existsb_sameCoordinates in Hx. congruence.
  - simpl. apply NoDup_singleton.
Qed.

Lemma fold_pushIfNew_elem l acc f :
  f ∈ fold_left pushIfNew l acc -> f ∈ acc \/ f ∈ l.
Proof.
  revert acc. induction l as [|x l IH]; intros acc Hf; simpl in *; [now left|].
  apply IH in Hf as [Hf|Hf]; [|right; now right].
  apply pushIfNew_elem in Hf as [Hf| ->]; [now left|right; left].
Qed.

Lemma fold_pushIfNew_mono l acc f :
  f ∈ acc -> f ∈ fold_left pushIfNew l acc.
Proof.
  revert acc. induction l as [|x l IH]; intros acc Hf; simpl; [exact Hf|].
  apply IH. now apply pushIfNew_mono.
Qed.

Lemma fold_pushIfNew_covers l acc f :
  f ∈ l -> flocation f ∈ flocation <$> fold_left pushIfNew l acc.
Proof.
  revert acc. induction l as [|x l IH]; intros acc Hf; simpl; [inversion Hf|].
  apply elem_of_cons in Hf as [<-|Hf].
  - assert (H := pushIfNew_covers acc f).
    apply list_elem_of_fmap in H as [g [Hg Hin]].
    apply list_elem_of_fmap. exists g. split; [exact Hg|].
    now apply fold_pushIfNew_mono.
  - now apply IH.
Qed.

Lemma fold_pushIfNew_NoDup l acc :
  NoDup (flocation <$> acc) -> NoDup (flocation <$> fold_left pushIfNew l acc).
Proof.
  revert acc. induction l as [|x l IH]; intros acc Hnd; simpl; [exact Hnd|].
  apply IH. now apply pushIfNew_NoDup.
Qed.

Lemma featuresOnSegment_elem this startPoint endPoint f :
  f ∈ featuresOnSegment this startPoint endPoint <->
  f ∈ features this /\ isActive f = true /\
  isPointNearLine (flocation f) startPoint endPoint (dec 20 1) = true.
Proof.
  unfold featuresOnSegment. rewrite list_elem_of_filter.
  destruct (isActive f); intuition congruence.
Qed.

Lemma nearSomeSegment_cons a route point :
  nearSomeSegment route point -> nearSomeSegment (a :: route) point.
Proof. intros (i & s & e & Hs & He & Hn). exists (S i), s, e. now repeat split. Qed.

Lemma nearSomeSegment_inv a b rest point :
  nearSomeSegment (a :: b :: rest) point ->
  isPointNearLine point a b (dec 20 1) = true \/ nearSomeSegment (b :: rest) point.
Proof.
  intros (i & s & e & Hs & He & Hn). destruct i as [|i].
  - left. simpl in Hs, He. congruence.
  - right. exists i, s, e. now repeat split.
Qed.

Lemma segmentsLoop_step this a b rest acc :
  segmentsLoop this (a :: b :: rest) acc =
  segmentsLoop this (b :: rest)
    (fold_left pushIfNew (featuresOnSegment this a b) acc).
Proof. reflexivity. Qed.

Lemma segmentsLoop_elem this route acc f :
  f ∈ segmentsLoop this route acc ->
  f ∈ acc \/
  (f ∈ features this /\ isActive f = true /\ nearSomeSegment route (flocation f)).
Proof.
  revert acc. induction route as [|a route IH]; intros acc Hf; simpl in Hf; [now left|].
  destruct route as [|b rest]; [now left|].
  apply IH in Hf as [Hf|(H1 & H2 & H3)].
  - apply fold_pushIfNew_elem in Hf as [Hf|Hf]; [now left|right].
    apply featuresOnSegment_elem in Hf as (H1 & H2 & H3).
    repeat split; try assumption. exists 0%nat, a, b. now repeat split.
  - right. repeat split; try assumption. now apply nearSomeSegment_cons.
Qed.

Lemma segmentsLoop_mono this route acc f :
  f ∈ acc -> f ∈ segmentsLoop this route acc.
Proof.
  revert acc. induction route as [|a route IH]; intros acc Hf; simpl; [exact Hf|].
  destruct route as [|b rest]; [exact Hf|].
  apply IH. now apply fold_pushIfNew_mono.
Qed.

Lemma segmentsLoop_covers this route acc f :
  f ∈ features this -> isActive f = true ->
  nearSomeSegment route (flocation f) ->
  flocation f ∈ flocation <$> segmentsLoop this route acc.
Proof.
  intros Hin Hact. revert acc.
  induction route as [|a route IH]; intros acc Hn.
  - destruct Hn as (i & s & e & Hs & _). destruct i; discriminate.
  - destruct route as [|b rest].
    + destruct Hn as (i & s & e & _ & He & _). destruct i; discriminate.
    + apply nearSomeSegment_inv in Hn as [Hn|Hn].
      * rewrite segmentsLoop_step.
        assert (H : flocation f ∈ flocation <$>
                      fold_left pushIfNew (featuresOnSegment this a b) acc).
        { apply fold_pushIfNew_covers. now apply featuresOnSegment_elem. }
        apply list_elem_of_fmap in H as [g [Hg Hgin]].
        apply list_elem_of_fmap. exists g. split; [exact Hg|].
        now apply segmentsLoop_mono.
      * rewrite segmentsLoop_step. now apply IH.
Qed.

Lemma segmentsLoop_NoDup this route acc :
  NoDup (flocation <$> acc) -> NoDup (flocation <$> segmentsLoop this route acc).
Proof.
  revert acc. induction route as [|a route IH]; intros acc Hnd; simpl; [exact Hnd|].
  destruct route as [|b rest]; [exact Hnd|].
  apply IH. now apply fold_pushIfNew_NoDup.
Qed.

Lemma StronglySorted_on {A} (R R' : A -> A -> Prop) l :
  (forall a b, a ∈ l -> b ∈ l -> R a b -> R' a b) ->
  StronglySorted R l -> StronglySorted R' l.
Proof.
  intros HR Hs. induction Hs as [|a l Hs IH Hall]; constructor.
  - apply IH. intros x y Hx Hy. apply HR; now right.
  - apply Forall_forall. intros b Hb.
    apply HR; [left|right; exact Hb|].
    rewrite Forall_forall in Hall. now apply Hall.
Qed.


(** ** Reserved preference fields *)

Lemma omap_pointwise {A B} (f g : A -> option B) (l : list A) :
  (forall x, f x = g x) -> omap f l = omap g l.
Proof.
  intros Hfg. induction l as [|x l IH]; [reflexivity|].
  cbn. now rewrite Hfg, IH.
Qed.

Section Reserved.

Variables p p' : AccessibilityPreferences.
Hypothesis Hsame : samePreferences p p'.

Lemma obstaclesLoop_reserved l weight :
  obstaclesLoop p weight l = obstaclesLoop p' weight l.
Proof.
  destruct Hsame as (Hw & Hl & _).
  revert weight. induction l as [|o l IH]; intros weight; simpl; [reflexivity|].
  rewrite Hw, Hl, IH. reflexivity.
Qed.

Lemma featuresLoop_reserved l weight :
  featuresLoop p weight l = featuresLoop p' weight l.
Proof.
  destruct Hsame as (Hw & _ & Hr).
  revert weight. induction l as [|f l IH]; intros weight; simpl; [reflexivity|].
  rewrite Hw, Hr, IH. reflexivity.
Qed.

Lemma calculatePathWeight_reserved this start end_ :
  calculatePathWeight this start end_ p = calculatePathWeight this start end_ p'.
Proof.
  unfold calculatePathWeight. rewrite obstaclesLoop_reserved.
  destruct (obstaclesLoop p' _ _); [|reflexivity].
  now rewrite featuresLoop_reserved.
Qed.

Lemma isLocationAccessible_reserved this location :
  isLocationAccessible this location p = isLocationAccessible this location p'.
Proof.
  destruct Hsame as (Hw & _ & _). unfold isLocationAccessible.
  now rewrite Hw.
Qed.

Lemma getAccessibleNeighbors_reserved this current next :
  getAccessibleNeighbors this current p next =
  getAccessibleNeighbors this current p' next.
Proof.
  unfold getAccessibleNeighbors. apply omap_pointwise.
  intros [n [i j]]. now rewrite isLocationAccessible_reserved.
Qed.

Lemma relax_reserved this end_ current st neighbor :
  relax this end_ p current st neighbor = relax this end_ p' current st neighbor.
Proof. unfold relax. now rewrite calculatePathWeight_reserved. Qed.

Lemma expand_reserved this end_ current st :
  expand this end_ p current st = expand this end_ p' current st.
Proof.
  unfold expand. rewrite getAccessibleNeighbors_reserved.
  generalize (getAccessibleNeighbors this current.2 p' (nextId st)).
  intros l.
  generalize ({| openSet := Set_delete (openSet st) current;
                 cameFrom := cameFrom st; gScore := gScore st;
                 fScore := fScore st;
                 nextId := (nextId st + length gridOffsets)%nat |}).
  induction l as [|n l IH]; intros s0; simpl; [reflexivity|].
  now rewrite relax_reserved, IH.
Qed.

Lemma searchStep_reserved this end_ st :
  searchStep this end_ p st = searchStep this end_ p' st.
Proof.
  unfold searchStep. destruct (openSet st); [reflexivity|].
  destruct (getLowestFScore _ _); [|reflexivity].
  now rewrite expand_reserved.
Qed.

Lemma searchLoop_reserved fuel this end_ st :
  searchLoop fuel this end_ p st = searchLoop fuel this end_ p' st.
Proof.
  revert st. induction fuel as [|fuel IH]; intros st; simpl; [reflexivity|].
  rewrite searchStep_reserved.
  destruct (searchStep this end_ p' st); try reflexivity. apply IH.
Qed.

End Reserved.

(** C9. The reserved fields are not consulted: for preference records
    that differ at most in [maximumSlope] and [minimumPathWidth], the
    edge weight, the accessibility of a point and the route search give
    the same results on all inputs. *)
Theorem reserved_fields_unused p p' :
  samePreferences p p' ->
  (forall this start end_,
     calculatePathWeight this start end_ p =
     calculatePathWeight this start end_ p') /\
  (forall this location,
     isLocationAccessible this location p =
     isLocationAccessible this location p') /\
  (forall fuel start end_ this,
     findAccessibleRoute fuel start end_ p this =
     findAccessibleRoute fuel start end_ p' this).
Proof.
  intros Hsame. split; [|split].
  - intros. now apply calculatePathWeight_reserved.
  - intros. now apply isLocationAccessible_reserved.
  - intros. unfold findAccessibleRoute. now rewrite (searchLoop_reserved p p').
Qed.

(** ** The search *)

Lemma locationToKey_inj a b : locationToKey a = locationToKey b -> a = b.
Proof. destruct a, b. unfold locationToKey. simpl. now intros [= -> ->]. Qed.

Lemma getLowestFScore_fold_elem (fScore : gmap (Qc * Qc) number) l acc :
  forall o,
    snd (fold_left (fun (acc : number * option Obj) node =>
           let score := default Infinity (fScore !! locationToKey (snd node)) in
           if number_ltb score (fst acc) then (score, Some node) else acc)
         l acc) = Some o ->
    snd acc = Some o \/ o ∈ l.
Proof.
  revert acc. induction l as [|x l IH]; intros acc o Ho; simpl in Ho.
  - now left.
  - apply IH in Ho as [Ho|Ho]; [|right; now right].
    destruct (number_ltb _ (fst acc)); [|now left].
    simpl in Ho. injection Ho as <-. right. left.
Qed.

Lemma getLowestFScore_elem (open : list Obj) (fScore : gmap (Qc * Qc) number) o :
  getLowestFScore open fScore = Some o -> o ∈ open.
Proof.
  unfold getLowestFScore. intros Ho.
  apply getLowestFScore_fold_elem in Ho as [Ho|Ho]; [discriminate|exact Ho].
Qed.

Lemma getLowestFScore_fold_Some (fScore : gmap (Qc * Qc) number) l acc :
  is_Some (snd acc) ->
  is_Some (snd (fold_left (fun (acc : number * option Obj) node =>
           let score := default Infinity (fScore !! locationToKey (snd node)) in
           if number_ltb score (fst acc) then (score, Some node) else acc)
         l acc)).
Proof.
  revert acc. induction l as [|x l IH]; intros acc Hacc; simpl; [exact Hacc|].
  apply IH. destruct (number_ltb _ (fst acc)); [now eexists|exact Hacc].
Qed.

Lemma getLowestFScore_is_Some (open : list Obj) (fScore : gmap (Qc * Qc) number) :
  open <> [] ->
  (forall o, o ∈ open -> exists q, fScore !! locationToKey (snd o) = Some (Fin q)) ->
  is_Some (getLowestFScore open fScore).
Proof.
  intros Hne Hfin. unfold getLowestFScore.
  destruct open as [|x l]; [congruence|]. simpl.
  apply getLowestFScore_fold_Some.
  destruct (Hfin x) as [q Hq]; [left|]. rewrite Hq. simpl. now eexists.
Qed.

Lemma Set_add_elem s o x : x ∈ Set_add s o -> x ∈ s \/ x = o.
Proof.
  unfold Set_add. destruct (existsb (fun e => Nat.eqb (fst e) (fst o)) s); [now left|].
  rewrite elem_of_app, list_elem_of_singleton. tauto.
Qed.

Lemma Set_delete_elem s o x : x ∈ Set_delete s o -> x ∈ s.
Proof. unfold Set_delete. rewrite list_elem_of_filter. tauto. Qed.

Section SearchInvariant.

Variables (this : Service) (start end_ : Location).
Variable preferences : AccessibilityPreferences.

Lemma searchInv_initial : searchInv start (initialState start end_).
Proof.
  unfold searchInv, initialState. simpl. split; [|split].
  - intros o Ho. apply list_elem_of_singleton in Ho. subst o. simpl.
    rewrite lookup_singleton_eq. eauto.
  - intros k [g Hg]. apply lookup_singleton_Some in Hg as [<- _]. now left.
  - intros k c Hc. rewrite lookup_empty in Hc. discriminate.
Qed.

Lemma searchInv_relax current st neighbor :
  searchInv start st ->
  searchInv start (relax this end_ preferences current st neighbor).
Proof.
  intros Hinv. unfold relax.
  destruct (gScore st !! locationToKey current) as [g|] eqn:Hg; [|exact Hinv].
  destruct (number_ltb _ _) eqn:Hlt; [|exact Hinv].
  destruct Hinv as (I1 & I2 & I3).
  split; [|split]; simpl.
  - intros o Ho.
    destruct (decide (locationToKey neighbor.2 = locationToKey o.2)) as [E|E].
    + rewrite E, lookup_insert_eq. eauto.
    + rewrite lookup_insert_ne by exact E.
      apply Set_add_elem in Ho as [Ho| ->]; [now apply I1|congruence].
  - intros k Hk.
    destruct (decide (locationToKey neighbor.2 = k)) as [E|E].
    + right. rewrite E, lookup_insert_eq. eauto.
    + rewrite lookup_insert_ne in Hk by exact E.
      rewrite lookup_insert_ne by exact E. now apply I2.
  - intros k c Hc.
    assert (Hold : is_Some (gScore st !! locationToKey c)).
    { destruct (decide (locationToKey neighbor.2 = k)) as [E|E].
      - rewrite E, lookup_insert_eq in Hc. injection Hc as <-. eauto.
      - rewrite lookup_insert_ne in Hc by exact E. now apply I3 with k. }
    destruct (decide (locationToKey neighbor.2 = locationToKey c)) as [E|E].
    + rewrite E, lookup_insert_eq. eauto.
    + now rewrite lookup_insert_ne by exact E.
Qed.

Lemma searchInv_fold_relax current l st :
  searchInv start st ->
  searchInv start (fold_left (relax this end_ preferences current) l st).
Proof.
  revert st. induction l as [|n l IH]; intros st Hst; simpl; [exact Hst|].
  apply IH. now apply searchInv_relax.
Qed.

Lemma searchInv_expand current st :
  searchInv start st ->
  searchInv start (expand this end_ preferences current st).
Proof.
  intros (I1 & I2 & I3). unfold expand. apply searchInv_fold_relax.
  split; [|split]; simpl; [|exact I2|exact I3].
  intros o Ho. apply I1. now apply Set_delete_elem in Ho.
Qed.

Lemma searchInv_step st st' :
  searchInv start st ->
  searchStep this end_ preferences st = Continue st' ->
  searchInv start st'.
Proof.
  intros Hinv. unfold searchStep.
  destruct (openSet st); [discriminate|].
  destruct (getLowestFScore _ _) as [current|]; [|discriminate].
  destruct (isAtDestination _ _); [discriminate|].
  intros [= <-]. now apply searchInv_expand.
Qed.

Lemma searchStep_Arrived st current :
  searchInv start st ->
  searchStep this end_ preferences st = Arrived current ->
  isAtDestination current end_ = true /\
  is_Some (gScore st !! locationToKey current).
Proof.
  intros (I1 & _ & _). unfold searchStep.
  destruct (openSet st) as [|o1 rest] eqn:Hopen; [discriminate|]. rewrite <- Hopen.
  destruct (getLowestFScore _ _) as [o|] eqn:Hlow; [|discriminate].
  destruct (isAtDestination _ _) eqn:Hat; [|discriminate].
  intros [= <-]. split; [exact Hat|].
  apply getLowestFScore_elem in Hlow. rewrite Hopen in Hlow. now apply I1.
Qed.

Lemma searchStep_Exhausted st :
  searchStep this end_ preferences st = Exhausted <-> openSet st = [].
Proof.
  unfold searchStep. destruct (openSet st); [tauto|].
  destruct (getLowestFScore _ _); [|split; discriminate].
  destruct (isAtDestination _ _); split; discriminate.
Qed.

(** The path that [reconstructPath] builds ends with the points it
    started from and begins at a scored point without back-pointer. *)
Lemma reconstructLoop_spec st fuel current path route :
  searchInv start st ->
  is_Some (gScore st !! locationToKey current) ->
  reconstructLoop fuel (cameFrom st) (locationToKey current) (current :: path)
    = Some route ->
  head route = Some start /\ exists prefix, route = prefix ++ current :: path.
Proof.
  intros (I1 & I2 & I3). revert current path.
  induction fuel as [|fuel IH]; intros current path Hg Hr; simpl in Hr; [discriminate|].
  destruct (cameFrom st !! locationToKey current) as [c|] eqn:Hc.
  - apply IH in Hr as [Hhd [prefix Hp]]; [|now apply I3 with (locationToKey current)].
    split; [exact Hhd|]. exists (prefix ++ [c]). now rewrite <- app_assoc.
  - injection Hr as <-. split; [|now exists []].
    simpl. f_equal. apply locationToKey_inj.
    destruct (I2 _ Hg) as [E|[x Hx]]; [exact E|congruence].
Qed.

Lemma searchLoop_Return fuel st route :
  searchInv start st ->
  searchLoop fuel this end_ preferences st = Some (Return route) ->
  head route = Some start /\
  exists final, last route = Some final /\
    exists d, calculateBaseDistance final end_ = Fin d /\ d < dec 5 1.
Proof.
  revert st. induction fuel as [|fuel IH]; intros st Hinv Hr; simpl in Hr; [discriminate|].
  destruct (searchStep this end_ preferences st) as [st'|current| |e] eqn:Hstep.
  - apply IH with st'; [|exact Hr]. now apply searchInv_step with st.
  - apply searchStep_Arrived in Hstep as [Hat Hg]; [|exact Hinv].
    unfold reconstructPath in Hr.
    destruct (reconstructLoop fuel _ _ _) as [r|] eqn:Hrec; [|discriminate].
    injection Hr as <-.
    apply reconstructLoop_spec in Hrec as [Hhd [prefix ->]]; try assumption.
    split; [exact Hhd|]. exists current. split.
    + rewrite last_app. reflexivity.
    + now apply number_ltb_Fin_r.
  - discriminate.
  - discriminate.
Qed.

(** Consecutive points of a returned route are one grid step apart. *)
Lemma getAccessibleNeighbors_gridStep current next n :
  n ∈ getAccessibleNeighbors this current preferences next ->
  gridStep current n.2.
Proof.
  unfold getAccessibleNeighbors. intros Hn.
  apply list_elem_of_omap in Hn as [[idx [i j]] [Hx Hf]].
  apply elem_of_lookup_imap in Hx as (idx' & ij & [= -> <-] & Hl).
  destruct (isLocationAccessible _ _ _); [|discriminate].
  injection Hf as <-. simpl. exists i, j. split; [|reflexivity].
  now apply list_elem_of_lookup_2 in Hl.
Qed.

Lemma searchGrid_relax current st neighbor :
  gridStep current neighbor.2 -> searchGrid st ->
  searchGrid (relax this end_ preferences current st neighbor).
Proof.
  intros Hstep Hg. unfold relax.
  destruct (gScore st !! locationToKey current); [|exact Hg].
  destruct (number_ltb _ _); [|exact Hg].
  intros k c Hc. simpl in Hc.
  destruct (decide (locationToKey neighbor.2 = k)) as [E|E].
  - rewrite E, lookup_insert_eq in Hc. injection Hc as <-.
    exists neighbor.2. now split.
  - rewrite lookup_insert_ne in Hc by exact E. now apply Hg.
Qed.

Lemma searchGrid_fold_relax current l st :
  (forall n, n ∈ l -> gridStep current n.2) -> searchGrid st ->
  searchGrid (fold_left (relax this end_ preferences current) l st).
Proof.
  revert st. induction l as [|n l IH]; intros st Hl Hg; simpl; [exact Hg|].
  apply IH.
  - intros x Hx. apply Hl. now right.
  - apply searchGrid_relax; [apply Hl; left|exact Hg].
Qed.

Lemma searchGrid_step st st' :
  searchGrid st ->
  searchStep this end_ preferences st = Continue st' ->
  searchGrid st'.
Proof.
  intros Hg. unfold searchStep.
  destruct (openSet st) as [|o1 rest]; [discriminate|].
  destruct (getLowestFScore _ _) as [current|]; [|discriminate].
  destruct (isAtDestination _ _); [discriminate|].
  intros [= <-]. unfold expand. apply searchGrid_fold_relax; [|exact Hg].
  intros n Hn. now apply getAccessibleNeighbors_gridStep in Hn.
Qed.

Lemma reconstructLoop_linked cf fuel current path route :
  (forall i a b, (current :: path) !! i = Some a ->
     (current :: path) !! S i = Some b -> cf !! locationToKey b = Some a) ->
  reconstructLoop fuel cf (locationToKey current) (current :: path) = Some route ->
  forall i a b, route !! i = Some a -> route !! S i = Some b ->
    cf !! locationToKey b = Some a.
Proof.
  revert current path. induction fuel as [|fuel IH]; intros current path Hl Hr;
    simpl in Hr; [discriminate|].
  destruct (cf !! locationToKey current) as [c|] eqn:Hc.
  - refine (IH c (current :: path) _ Hr).
    intros [|i] a b Ha Hb.
    + simpl in Ha, Hb. congruence.
    + now apply Hl with i.
  - injection Hr as <-. exact Hl.
Qed.

Lemma searchLoop_Return_steps fuel st route :
  searchGrid st ->
  searchLoop fuel this end_ preferences st = Some (Return route) ->
  forall i a b, route !! i = Some a -> route !! S i = Some b -> gridStep a b.
Proof.
  revert st. induction fuel as [|fuel IH]; intros st Hg Hr; simpl in Hr; [discriminate|].
  destruct (searchStep this end_ preferences st) as [st'|current| |e] eqn:Hstep.
  - apply IH with st'; [|exact Hr]. now apply searchGrid_step with st.
  - unfold reconstructPath in Hr.
    destruct (reconstructLoop fuel _ _ _) as [r|] eqn:Hrec; [|discriminate].
    injection Hr as <-. intros i a b Ha Hb.
    assert (Hone : forall i a b, [current] !! i = Some a ->
              [current] !! S i = Some b ->
              cameFrom st !! locationToKey b = Some a)
      by (intros n x y _ Hy; destruct n; discriminate Hy).
    assert (Hl := reconstructLoop_linked _ _ _ _ _ Hone Hrec i a b Ha Hb).
    apply Hg in Hl as (b' & Hk & Hs).
    apply locationToKey_inj in Hk. now subst b'.
  - discriminate.
  - discriminate.
Qed.

Lemma searchGrid_initial : searchGrid (initialState start end_).
Proof. intros k c Hc. simpl in Hc. rewrite lookup_empty in Hc. discriminate. Qed.

(** A call throws either of the two errors: the open set is empty, or
    no entry of it has a score below [Infinity]. *)
Lemma searchLoop_Throw fuel st e :
  searchLoop fuel this end_ preferences st = Some (Throw e) ->
  e = NoAccessibleRouteFound \/ e = NoNodesInOpenSet.
Proof.
  revert st. induction fuel as [|fuel IH]; intros st Hr; simpl in Hr; [discriminate|].
  destruct (searchStep this end_ preferences st) as [st'|current| |e'] eqn:Hstep.
  - now apply IH with st'.
  - destruct (reconstructPath _ _ _); discriminate.
  - left. now injection Hr as <-.
  - right. injection Hr as <-. unfold searchStep in Hstep.
    destruct (openSet st); [discriminate|].
    destruct (getLowestFScore _ _); [|congruence].
    destruct (isAtDestination _ _); discriminate.
Qed.

Lemma searchLoop_exhausted_turns fuel st :
  searchLoop fuel this end_ preferences st = Some (Throw NoAccessibleRouteFound) ->
  exists n st', (n < fuel)%nat /\
    turns n this end_ preferences st = Some st' /\ openSet st' = [].
Proof.
  revert st. induction fuel as [|fuel IH]; intros st Hr; simpl in Hr; [discriminate|].
  destruct (searchStep this end_ preferences st) as [st'|current| |e'] eqn:Hstep.
  - apply IH in Hr as (n & st'' & Hn & Ht & Ho).
    exists (S n), st''. simpl. rewrite Hstep. repeat split; [lia|exact Ht|exact Ho].
  - destruct (reconstructPath _ _ _); discriminate.
  - exists 0%nat, st. repeat split; [lia|]. now apply searchStep_Exhausted.
  - unfold searchStep in Hstep. destruct (openSet st); [discriminate|].
    destruct (getLowestFScore _ _); [|congruence].
    destruct (isAtDestination _ _); discriminate.
Qed.

Lemma turns_exhausted_searchLoop n st st' fuel :
  turns n this end_ preferences st = Some st' -> openSet st' = [] ->
  (n < fuel)%nat ->
  searchLoop fuel this end_ preferences st = Some (Throw NoAccessibleRouteFound).
Proof.
  revert st fuel. induction n as [|n IH]; intros st fuel Ht Ho Hfuel.
  - injection Ht as <-. destruct fuel as [|fuel]; [lia|]. simpl.
    apply searchStep_Exhausted in Ho. now rewrite Ho.
  - simpl in Ht. destruct fuel as [|fuel]; [lia|]. simpl.
    destruct (searchStep this end_ preferences st); try discriminate.
    apply IH; [exact Ht|exact Ho|lia].
Qed.

End SearchInvariant.

(** *** [reconstructPath] terminates *)

Lemma dec_nonneg n d : (0 <= n)%Z -> 0 <= dec n d.
Proof.
  intros Hn. unfold dec, Qcle. simpl. rewrite !Qred_correct.
  unfold Qle. simpl. lia.
Qed.

Section Termination.

Context {L : MathLaws M}.

Lemma calculateBaseDistance_nonneg a b d :
  calculateBaseDistance a b = Fin d -> 0 <= d.
Proof.
  rewrite calculateBaseDistance_cases. destruct (_ || _); [discriminate|].
  intros [= <-].
  apply Qcmult_nonneg_nonneg; [now apply dec_nonneg|].
  apply Qcmult_nonneg_nonneg; [now apply dec_nonneg|].
  apply Math_atan2_nonneg, Math_sqrt_nonneg.
Qed.

(** A weight that is a finite number is not negative. *)
Let nonneg (weight : number) : Prop := forall w, weight = Fin w -> 0 <= w.

Lemma nonneg_mul weight factor :
  nonneg weight -> 0 <= factor -> nonneg (number_mul weight (Fin factor)).
Proof.
  intros Hw Hf w E. apply number_mul_Fin in E as (x & y & -> & [= <-] & ->).
  apply Qcmult_nonneg_nonneg; [now apply Hw|exact Hf].
Qed.

Lemma obstaclesLoop_nonneg preferences l weight weight' :
  nonneg weight ->
  obstaclesLoop preferences weight l = Some weight' -> nonneg weight'.
Proof.
  revert weight. induction l as [|o l IH]; intros weight Hw Hl; simpl in Hl.
  - now injection Hl as <-.
  - destruct (requiresWheelchairAccess preferences && isBarrier (otype o));
      [discriminate|].
    apply IH in Hl; [exact Hl|].
    destruct (preferWellLit preferences && _); [|exact Hw].
    apply nonneg_mul; [exact Hw|now apply dec_nonneg].
Qed.

Lemma featuresLoop_nonneg preferences l weight :
  nonneg weight -> nonneg (featuresLoop preferences weight l).
Proof.
  revert weight. induction l as [|f l IH]; intros weight Hw; simpl; [exact Hw|].
  apply IH.
  assert (H1 : nonneg (if requiresWheelchairAccess preferences &&
                          (bool_decide (ftype f = ramp) ||
                           bool_decide (ftype f = elevator))
                       then number_mul weight (Fin (dec 8 10)) else weight)).
  { destruct (requiresWheelchairAccess preferences && _); [|exact Hw].
    apply nonneg_mul; [exact Hw|now apply dec_nonneg]. }
  destruct (needsRestStops preferences && _); [|exact H1].
  apply nonneg_mul; [exact H1|now apply dec_nonneg].
Qed.

Lemma calculatePathWeight_nonneg this start end_ preferences w :
  calculatePathWeight this start end_ preferences = Fin w -> 0 <= w.
Proof.
  unfold calculatePathWeight.
  destruct (obstaclesLoop _ _ _) as [w'|] eqn:Ho; [|discriminate].
  intros Hw. apply (featuresLoop_nonneg _ _ _ (fun x Hx =>
    obstaclesLoop_nonneg _ _ _ _ (fun d => calculateBaseDistance_nonneg _ _ d) Ho x Hx)
    w Hw).
Qed.

Lemma before_trans g T a b c : before g T a b -> before g T b c -> before g T a c.
Proof.
  unfold before. intros [H1|[H1 H1']] [H2|[H2 H2']].
  - left. now apply Qclt_trans with (scoreOf g b).
  - left. now rewrite <- H2.
  - left. now rewrite H1.
  - right. split; [congruence|lia].
Qed.

Lemma before_irrefl g T a : ~ before g T a a.
Proof.
  unfold before. intros [H|[_ H]]; [|lia].
  now apply Qclt_not_eq in H.
Qed.

Lemma scoreOf_insert_eq (g : gmap (Qc * Qc) number) k q :
  scoreOf (<[k := Fin q]> g) k = q.
Proof. unfold scoreOf. now rewrite lookup_insert_eq. Qed.

Lemma scoreOf_insert_ne (g : gmap (Qc * Qc) number) k k' v :
  k <> k' -> scoreOf (<[k := v]> g) k' = scoreOf g k'.
Proof. intros Hne. unfold scoreOf. now rewrite lookup_insert_ne. Qed.

Variables (this : Service) (start end_ : Location).
Variable preferences : AccessibilityPreferences.

Lemma searchOrder_initial : searchOrder (initialState start end_).
Proof.
  split; simpl.
  - intros k v Hv. apply lookup_singleton_Some in Hv as [_ <-].
    exists 0. split; [reflexivity|apply Qcle_refl].
  - exists (fun _ => 0%nat). intros k c Hc. rewrite lookup_empty in Hc. discriminate.
Qed.

Lemma searchOrder_relax current st neighbor :
  searchInv start st -> searchOrder st ->
  searchOrder (relax this end_ preferences current st neighbor).
Proof.
  intros (_ & _ & I3) Hord. unfold relax.
  destruct (gScore st !! locationToKey current) as [g|] eqn:Hg; [|exact Hord].
  destruct (number_ltb _ _) eqn:Hlt; [|exact Hord].
  destruct Hord as (J1 & T & J2).
  destruct (J1 _ _ Hg) as (gc & -> & Hgc).
  destruct (calculatePathWeight this current neighbor.2 preferences) as [w| |] eqn:Hw;
    [|discriminate..].
  apply calculatePathWeight_nonneg in Hw. simpl in Hlt.
  set (n := locationToKey neighbor.2) in *.
  assert (Hsc : scoreOf (gScore st) (locationToKey current) = gc).
  { unfold scoreOf. now rewrite Hg. }
  assert (Hle : gc <= gc + w).
  { rewrite <- (Qcplus_0_r gc) at 1. now apply Qcplus_le_mono_l. }
  assert (Hnew : forall gn, gScore st !! n = Some (Fin gn) -> gc + w < gn).
  { intros gn Hgn. rewrite Hgn in Hlt. simpl in Hlt. now apply Qc_ltb_true. }
  assert (Hne : locationToKey current <> n).
  { intros E. rewrite E in Hg. apply Hnew in Hg.
    exact (Qcle_not_lt _ _ Hle Hg). }
  split; simpl.
  - intros k v Hv. destruct (decide (n = k)) as [E|E].
    + rewrite E, lookup_insert_eq in Hv. injection Hv as <-.
      exists (gc + w). split; [reflexivity|].
      now apply Qcplus_nonneg_nonneg.
    + rewrite lookup_insert_ne in Hv by exact E. now apply J1 with k.
  - exists (fun k => if decide (k = n) then S (T (locationToKey current)) else T k).
    intros k c Hc. unfold before.
    destruct (decide (n = k)) as [E|E].
    + rewrite <- E, lookup_insert_eq in Hc. injection Hc as <-.
      rewrite <- E, scoreOf_insert_eq.
      rewrite scoreOf_insert_ne by (intros E'; now apply Hne).
      rewrite Hsc. rewrite decide_False by exact Hne.
      rewrite decide_True by reflexivity.
      apply Qcle_lt_or_eq in Hle as [Hlt'|Heq]; [now left|right; split; [exact Heq|lia]].
    + rewrite lookup_insert_ne in Hc by exact E.
      rewrite (scoreOf_insert_ne _ n k) by exact E.
      rewrite (decide_False (P := k = n)) by (intros E'; now apply E).
      destruct (decide (locationToKey c = n)) as [Ec|Ec].
      * left. rewrite Ec, scoreOf_insert_eq.
        destruct (I3 _ _ Hc) as [v Hv]. rewrite Ec in Hv.
        destruct (J1 _ _ Hv) as (gn & -> & _).
        apply Hnew in Hv as Hlt'.
        assert (Hold := J2 _ _ Hc). rewrite Ec in Hold.
        assert (Hs : scoreOf (gScore st) n = gn) by (unfold scoreOf; now rewrite Hv).
        unfold before in Hold. rewrite Hs in Hold.
        destruct Hold as [Hold|[Hold _]].
        -- now apply Qclt_trans with gn.
        -- now rewrite <- Hold.
      * rewrite scoreOf_insert_ne by (intros E'; now apply Ec).
        exact (J2 _ _ Hc).
Qed.

Lemma searchInv_searchOrder_fold current l st :
  searchInv start st -> searchOrder st ->
  searchOrder (fold_left (relax this end_ preferences current) l st).
Proof.
  revert st. induction l as [|n l IH]; intros st Hinv Hord; simpl; [exact Hord|].
  apply IH; [now apply searchInv_relax|now apply searchOrder_relax].
Qed.

Lemma searchOrder_step st st' :
  searchInv start st -> searchOrder st ->
  searchStep this end_ preferences st = Continue st' ->
  searchOrder st'.
Proof.
  intros Hinv Hord. unfold searchStep.
  destruct (openSet st) as [|o1 rest]; [discriminate|].
  destruct (getLowestFScore _ _) as [current|]; [|discriminate].
  destruct (isAtDestination _ _); [discriminate|].
  intros [= <-]. unfold expand. apply searchInv_searchOrder_fold.
  - destruct Hinv as (I1 & I2 & I3). split; [|split]; simpl; [|exact I2|exact I3].
    intros o Ho. apply I1. now apply Set_delete_elem in Ho.
  - exact Hord.
Qed.

Lemma searchOrder_turns n st st' :
  searchInv start st -> searchOrder st ->
  turns n this end_ preferences st = Some st' ->
  searchInv start st' /\ searchOrder st'.
Proof.
  revert st. induction n as [|n IH]; intros st Hinv Hord Ht; simpl in Ht.
  - injection Ht as <-. now split.
  - destruct (searchStep this end_ preferences st) as [st1| | |] eqn:Hstep;
      try discriminate.
    apply IH with st1; [|
      now apply searchOrder_step with st|exact Ht].
    now apply (searchInv_step this start end_ preferences st).
Qed.

(** The loop of [reconstructPath] ends: each turn goes to a key that is
    [before] the current one, and the keys at or before the current one,
    among those with a back-pointer, become fewer. *)
Lemma reconstructLoop_terminates st (T : Qc * Qc -> nat) :
  (forall k c, cameFrom st !! k = Some c ->
     before (gScore st) T (locationToKey c) k) ->
  forall fuel k path,
    (size (filter (fun k' => k' = k \/ before (gScore st) T k' k)
             (dom (cameFrom st))) < fuel)%nat ->
    is_Some (reconstructLoop fuel (cameFrom st) k path).
Proof.
  intros J2. induction fuel as [|fuel IH]; intros k path Hsize; [lia|].
  simpl. destruct (cameFrom st !! k) as [c|] eqn:Hc; [|now eexists].
  apply IH.
  assert (Hsub : filter (fun k' => k' = locationToKey c \/
                           before (gScore st) T k' (locationToKey c))
                   (dom (cameFrom st)) ⊂
                 filter (fun k' => k' = k \/ before (gScore st) T k' k)
                   (dom (cameFrom st))).
  { assert (Hck := J2 _ _ Hc). split.
    - intros x. rewrite !elem_of_filter. intros [[->|Hx] Hd]; (split; [|exact Hd]).
      + now right.
      + right. now apply before_trans with (locationToKey c).
    - intros Hsub. specialize (Hsub k). rewrite !elem_of_filter in Hsub.
      destruct Hsub as [[E|Hb] _].
      + split; [now left|]. apply elem_of_dom. rewrite Hc. now eexists.
      + rewrite E in Hck. now apply before_irrefl in Hck.
      + apply (before_irrefl (gScore st) T k).
        now apply before_trans with (locationToKey c). }
  apply subset_size in Hsub. lia.
Qed.

Lemma reconstructPath_terminates st current fuel :
  searchOrder st -> (size (cameFrom st) < fuel)%nat ->
  is_Some (reconstructPath fuel (cameFrom st) current).
Proof.
  intros (_ & T & J2) Hfuel. unfold reconstructPath.
  apply (reconstructLoop_terminates st T J2).
  eapply Nat.le_lt_trans; [|exact Hfuel].
  rewrite <- size_dom. apply subseteq_size.
  intros x. rewrite elem_of_filter. tauto.
Qed.

Lemma searchLoop_arrival n st st' current fuel :
  searchInv start st -> searchOrder st ->
  turns n this end_ preferences st = Some st' ->
  searchStep this end_ preferences st' = Arrived current ->
  (n + S (size (cameFrom st')) < fuel)%nat ->
  exists route, searchLoop fuel this end_ preferences st = Some (Return route).
Proof.
  revert st fuel. induction n as [|n IH]; intros st fuel Hinv Hord Ht Hstep Hfuel.
  - injection Ht as <-. destruct fuel as [|fuel]; [lia|]. simpl. rewrite Hstep.
    destruct (reconstructPath_terminates st current fuel Hord) as [route Hr]; [lia|].
    exists route. now rewrite Hr.
  - simpl in Ht. destruct fuel as [|fuel]; [lia|]. simpl.
    destruct (searchStep this end_ preferences st) as [st1| | |] eqn:Hs;
      try discriminate.
    apply IH; try assumption; [| |lia].
    + now apply (searchInv_step this start end_ preferences st).
    + now apply searchOrder_step with st.
Qed.

End Termination.

(** C2. When [findAccessibleRoute] returns a route, the route is not
    empty, its first point is the [start] argument, and its last point
    is less than 5 m from [end]. *)
Theorem findAccessibleRoute_route fuel start end_ preferences this route this' :
  findAccessibleRoute fuel start end_ preferences this = Some (Return route, this') ->
  route <> [] /\
  head route = Some start /\
  exists final, last route = Some final /\
    exists d, calculateBaseDistance final end_ = Fin d /\ d < dec 5 1.
Proof.
  unfold findAccessibleRoute. intros Hr.
  destruct (searchLoop fuel this end_ preferences (initialState start end_))
    as [c|] eqn:Hloop; [|discriminate].
  simpl in Hr. injection Hr as -> _.
  apply searchLoop_Return with (start := start) in Hloop as [Hhd Hlast];
    [|apply searchInv_initial].
  split; [|now split]. intros ->. discriminate.
Qed.

(** More fuel does not change the outcome of a call that completes. *)
Lemma reconstructLoop_fuel_mono fuel fuel' cf k path route :
  reconstructLoop fuel cf k path = Some route -> (fuel <= fuel')%nat ->
  reconstructLoop fuel' cf k path = Some route.
Proof.
  revert fuel' k path. induction fuel as [|fuel IH]; intros fuel' k path Hr Hle;
    simpl in Hr; [discriminate|].
  destruct fuel' as [|fuel']; [lia|]. simpl.
  destruct (cf !! k) as [c|]; [|exact Hr].
  apply IH; [exact Hr|lia].
Qed.

Lemma searchLoop_fuel_mono fuel fuel' this end_ preferences st c :
  searchLoop fuel this end_ preferences st = Some c -> (fuel <= fuel')%nat ->
  searchLoop fuel' this end_ preferences st = Some c.
Proof.
  revert fuel' st. induction fuel as [|fuel IH]; intros fuel' st Hr Hle;
    simpl in Hr; [discriminate|].
  destruct fuel' as [|fuel']; [lia|]. simpl.
  destruct (searchStep this end_ preferences st) as [st'|current| |e];
    try exact Hr.
  - apply IH; [exact Hr|lia].
  - unfold reconstructPath in *.
    destruct (reconstructLoop fuel _ _ _) as [r|] eqn:Hrec; [|discriminate].
    rewrite (reconstructLoop_fuel_mono fuel fuel' _ _ _ r Hrec); [exact Hr|lia].
Qed.


End Properties.

(** ** The scenarios *)

Import Scenario.

Lemma calculatePathWeight_hard_exclusion_witness :
  calculatePathWeight stairsService origin east10 wheelchair = Infinity.
Proof.
  apply (calculatePathWeight_hard_exclusion stairsService origin east10
           wheelchair theStairs).
  - reflexivity.
  - right. left.
  - left. reflexivity.
  - vm_compute. reflexivity.
Defined.


(** One grid step along the equator has a haversine term within the
    bounds, and the two distances are equal numbers. *)
Example distance_east10_sym :
  number_eqb (calculateBaseDistance origin east10)
    (calculateBaseDistance east10 origin) = true.
Proof. vm_compute. reflexivity. Qed.





(** To a point that is more than 5 m from every point of the grid,
    here 38 m east and 3 m north of the start, the search is still
    going after 8 turns: nothing blocks, and no point of the grid is at
    the destination. *)
Example search_off_grid :
  findAccessibleRoute 8 origin Beside.offGrid plain emptyService = None.
Proof. vm_compute. reflexivity. Qed.

Lemma reserved_fields_unused_witness :
  (forall this start end_,
     calculatePathWeight this start end_ wheelchair =
     calculatePathWeight this start end_ wheelchairReserved) /\
  (forall this location,
     isLocationAccessible this location wheelchair =
     isLocationAccessible this location wheelchairReserved) /\
  (forall fuel start end_ this,
     findAccessibleRoute fuel start end_ wheelchair this =
     findAccessibleRoute fuel start end_ wheelchairReserved this).
Proof.
  apply (reserved_fields_unused wheelchair wheelchairReserved).
  repeat split; reflexivity.
Defined.

(** One grid step along the equator is 11.119 m. *)
Example grid_step_length :
  millimetres (calculateBaseDistance origin east10) = 11119%Z.
Proof. vm_compute. reflexivity. Qed.

(** The annotation of a route of three points: the bench is nearer to
    the second segment but is listed by its distance from the first
    point; the elevator has the coordinates of the ramp and is not
    listed; the strip is inactive and the lamp is far. *)
Example annotation_threePoints :
  fdescription <$> getAccessibleFeaturesOnRoute annotatedService threePoints
  = ["entrance ramp"; "bench"]%string.
Proof. vm_compute. reflexivity. Qed.

(** The search from [origin] to a point 33 m to the east goes three
    steps east. *)
Example route_east30 :
  coordinates <$> routeOf (findAccessibleRoute 10 origin east30 plain emptyService)
  = [(0, 0); (0, 10); (0, 20); (0, 30)]%Z.
Proof. vm_compute. reflexivity. Qed.

(** With stairs at the start, a wheelchair user has no accessible
    neighbour: the open set is empty after the first turn and the call
    throws. *)
Example blocked_start_throws :
  findAccessibleRoute 2 origin east100 wheelchair blockedService
  = Some (Throw NoAccessibleRouteFound, blockedService).
Proof. vm_compute. reflexivity. Qed.

Lemma findAccessibleRoute_route_witness :
  let route := routeOf (findAccessibleRoute 10 origin east30 plain emptyService) in
  route <> [] /\
  head route = Some origin /\
  exists final, last route = Some final /\
    exists d, calculateBaseDistance final east30 = Fin d /\ d < dec 5 1.
Proof.
  apply (findAccessibleRoute_route 10 origin east30 plain emptyService _ emptyService).
  vm_compute. reflexivity.
Defined.


(** C4 (the code departs from the claim). [findFeaturesOnPath] does not
    filter by [isActive]: with a ramp that is out of service at the
    start of the edge, a wheelchair user's edge weight is discounted,
    and differs from the weight on the active features alone. *)
Theorem calculatePathWeight_counts_inactive :
  calculatePathWeight closedRampService origin east10 wheelchair <>
  calculatePathWeight (activeOnly closedRampService) origin east10 wheelchair.
Proof.
  assert (H : bool_decide
                (calculatePathWeight closedRampService origin east10 wheelchair =
                 calculatePathWeight (activeOnly closedRampService) origin east10
                   wheelchair) = false)
    by (vm_compute; reflexivity).
  now apply bool_decide_eq_false in H.
Qed.

(** The open set after two turns of the search around the dark spot,
    as identities and coordinates: the objects 8 and 15 are both at
    (10, 10). *)
Example openSet_after_two_turns :
  showOpenSet <$>
    turns 2 darkSpotService east100 wellLit (initialState origin east100)
  = Some [(1, (-10, -10)); (2, (-10, 0)); (3, (-10, 10)); (4, (0, -10));
          (6, (10, -10)); (7, (10, 0)); (8, (10, 10)); (11, (-10, 20));
          (13, (0, 20)); (15, (10, 10)); (16, (10, 20))]%Z.
Proof. vm_compute. reflexivity. Qed.

(** C7 (the code departs from the claim). The open set is a set of
    objects, and every neighbour is a new object: after two turns of
    the search from [origin] to [east100] around the dark spot, the
    open set holds the north-east neighbour of [origin] twice. *)
Theorem openSet_holds_duplicates :
  match turns 2 darkSpotService east100 wellLit (initialState origin east100) with
  | Some st => ~ openSetDistinct st
  | None => False
  end.
Proof.
  assert (H : (fun st => bool_decide (openSetDistinct st)) <$>
                turns 2 darkSpotService east100 wellLit
                  (initialState origin east100) = Some false)
    by (vm_compute; reflexivity).
  destruct (turns 2 darkSpotService east100 wellLit (initialState origin east100));
    [|discriminate].
  simpl in H. injection H as H. now apply bool_decide_eq_false in H.
Qed.

(** * Properties of the rest of the code *)

(** ** The knowledge base *)

Section KnowledgeBase.

Context {M : MathLib}.

(** X1. An obstacle that is added and then removed at its own location
    is gone: removing at the location of [obstacle] after adding it
    gives the service that the removal alone gives. *)
Theorem removeObstacle_addObstacle {L : MathLaws M} obstacle this :
  removeObstacle (olocation obstacle) (addObstacle obstacle this) =
  removeObstacle (olocation obstacle) this.
Proof.
  unfold removeObstacle, addObstacle. simpl. f_equal.
  rewrite filter_app. rewrite (filter_cons_False _ obstacle []).
  - simpl. apply app_nil_r.
  - rewrite calculateBaseDistance_same. intros H. now vm_compute in H.
Qed.

(** X2. Removals are idempotent and commute. *)
Theorem removeObstacle_idempotent_commute p q this :
  removeObstacle p (removeObstacle p this) = removeObstacle p this /\
  removeObstacle p (removeObstacle q this) = removeObstacle q (removeObstacle p this).
Proof.
  unfold removeObstacle. simpl. split; f_equal.
  - rewrite list_filter_filter. apply list_filter_iff. tauto.
  - rewrite !list_filter_filter. apply list_filter_iff. tauto.
Qed.

Lemma featuresOnSegment_addFeature_inactive feature this a b :
  isActive feature = false ->
  featuresOnSegment (addFeature feature this) a b = featuresOnSegment this a b.
Proof.
  intros Hf. unfold featuresOnSegment, addFeature. simpl.
  rewrite filter_app, (filter_cons_False _ feature []).
  - simpl. apply app_nil_r.
  - rewrite Hf. discriminate.
Qed.

(** X4. Adding a feature that is not active does not change the
    annotation of any route. *)
Theorem getAccessibleFeaturesOnRoute_addFeature_inactive feature this route :
  isActive feature = false ->
  getAccessibleFeaturesOnRoute (addFeature feature this) route =
  getAccessibleFeaturesOnRoute this route.
Proof.
  intros Hf. unfold getAccessibleFeaturesOnRoute.
  destruct route as [|route0 [|route1 rest]]; try reflexivity.
  f_equal. generalize (@nil AccessibilityFeature).
  generalize (route0 :: route1 :: rest). intros l.
  induction l as [|a l IH]; intros acc; [reflexivity|].
  destruct l as [|b l]; [reflexivity|].
  rewrite !segmentsLoop_step, featuresOnSegment_addFeature_inactive by exact Hf.
  apply IH.
Qed.

End KnowledgeBase.

(** ** The cost model *)

Section CostModel.

Context {M : MathLib}.

Lemma obstaclesLoop_None preferences l weight :
  obstaclesLoop preferences weight l = None <->
  requiresWheelchairAccess preferences = true /\
  exists obstacle, obstacle ∈ l /\ isBarrier (otype obstacle) = true.
Proof.
  split.
  - revert weight. induction l as [|o l IH]; intros weight H; simpl in H; [discriminate|].
    destruct (requiresWheelchairAccess preferences && isBarrier (otype o)) eqn:E.
    + apply andb_true_iff in E as [Hw Hb]. split; [exact Hw|].
      exists o. split; [left|exact Hb].
    + apply IH in H as [Hw [x [Hx Hb]]]. split; [exact Hw|].
      exists x. split; [now right|exact Hb].
  - intros [Hw Hex]. now apply obstaclesLoop_barrier.
Qed.

Lemma obstaclesLoop_no_penalty preferences l weight weight' :
  preferWellLit preferences = false ->
  obstaclesLoop preferences weight l = Some weight' -> weight' = weight.
Proof.
  intros Hl. revert weight. induction l as [|o l IH]; intros weight H; simpl in H.
  - now injection H as <-.
  - destruct (requiresWheelchairAccess preferences && isBarrier (otype o));
      [discriminate|].
    rewrite Hl in H. simpl in H. now apply IH.
Qed.

Lemma number_mul_Infinity weight factor :
  number_mul weight (Fin factor) = Infinity -> weight = Infinity.
Proof.
  destruct weight as [w| |]; simpl; [discriminate|reflexivity|discriminate].
Qed.

Lemma featuresLoop_Infinity preferences l weight :
  featuresLoop preferences weight l = Infinity -> weight = Infinity.
Proof.
  revert weight. induction l as [|f l IH]; intros weight H; simpl in H; [exact H|].
  apply IH in H.
  destruct (needsRestStops preferences && _);
    [apply number_mul_Infinity in H|];
    (destruct (requiresWheelchairAccess preferences && _);
       [now apply number_mul_Infinity in H|exact H]).
Qed.

(** X7. Without [preferWellLit], when no factor above 1 is applied, an
    edge weighs [Infinity] only as a hard exclusion: exactly when the
    preferences require wheelchair access and a [stairs] or
    [narrow_path] obstacle passes the segment-near test for the edge. *)
Theorem calculatePathWeight_Infinity_iff this start end_ preferences :
  preferWellLit preferences = false ->
  (calculatePathWeight this start end_ preferences = Infinity <->
   requiresWheelchairAccess preferences = true /\
   exists obstacle, obstacle ∈ obstacles this /\
     (otype obstacle = stairs \/ otype obstacle = narrow_path) /\
     isPointNearLine (olocation obstacle) start end_ (dec 20 1) = true).
Proof.
  intros Hlit. unfold calculatePathWeight.
  destruct (obstaclesLoop preferences _ _) as [w|] eqn:Ho.
  - split.
    + intros H. apply featuresLoop_Infinity in H.
      apply obstaclesLoop_no_penalty in Ho; [|exact Hlit]. subst w.
      now apply calculateBaseDistance_not_Infinity in H.
    + intros [Hw [o [Hin [Ht Hn]]]].
      assert (Hnone : obstaclesLoop preferences (calculateBaseDistance start end_)
                        (findObstaclesOnPath this start end_) = None).
      { apply obstaclesLoop_None. split; [exact Hw|]. exists o. split.
        - unfold findObstaclesOnPath. apply list_elem_of_filter. now split.
        - now apply isBarrier_spec. }
      congruence.
  - split; [intros _|reflexivity].
    apply obstaclesLoop_None in Ho as [Hw [o [Hin Hb]]]. split; [exact Hw|].
    unfold findObstaclesOnPath in Hin. apply list_elem_of_filter in Hin as [Hn Hin].
    exists o. repeat split; [exact Hin|now apply isBarrier_spec|exact Hn].
Qed.

End CostModel.

Section CostBounds.

Context {M : MathLib} {L : MathLaws M}.

Lemma Qc_scale_down w n d :
  0 <= w -> (0 <= n <= Zpos d)%Z -> 0 <= w * dec n d /\ w * dec n d <= w.
Proof.
  intros Hw Hn. split.
  - apply Qcmult_nonneg_nonneg; [exact Hw|]. apply dec_nonneg. lia.
  - rewrite <- (Qcmult_1_r w) at 2. apply Qcmult_le_mono_nonneg_l; [exact Hw|].
    unfold dec, Qcle. simpl. rewrite !Qred_correct. unfold Qle. simpl. lia.
Qed.

Lemma Qc_scale_up w n d : 0 <= w -> (Zpos d <= n)%Z -> w <= w * dec n d.
Proof.
  intros Hw Hn. rewrite <- (Qcmult_1_r w) at 1.
  apply Qcmult_le_mono_nonneg_l; [exact Hw|].
  unfold dec, Qcle. simpl. rewrite !Qred_correct. unfold Qle. simpl. lia.
Qed.

Lemma scaled_Fin (c : bool) weight factor w' :
  (if c then number_mul weight (Fin factor) else weight) = Fin w' ->
  exists w, weight = Fin w /\ w' = if c then w * factor else w.
Proof.
  destruct c; intros H.
  - apply number_mul_Fin in H as (x & y & -> & [= <-] & ->). now exists x.
  - now exists w'.
Qed.

(** A finite result of the loop over the features comes from a finite
    weight, and is not above it. *)
Lemma featuresLoop_le preferences l weight w' :
  featuresLoop preferences weight l = Fin w' ->
  exists w, weight = Fin w /\ (0 <= w -> w' <= w).
Proof.
  revert weight. induction l as [|f l IH]; intros weight H; simpl in H.
  - exists w'. split; [exact H|intros _; apply Qcle_refl].
  - apply IH in H as (w2 & H2 & Hle2).
    apply scaled_Fin in H2 as (w1 & H1 & ->).
    apply scaled_Fin in H1 as (w & -> & ->).
    exists w. split; [reflexivity|]. intros Hw.
    assert (B1 : 0 <= (if requiresWheelchairAccess preferences &&
                          (bool_decide (ftype f = ramp) ||
                           bool_decide (ftype f = elevator))
                       then w * dec 8 10 else w) <= w).
    { destruct (requiresWheelchairAccess preferences && _).
      - apply Qc_scale_down; [exact Hw|lia].
      - split; [exact Hw|apply Qcle_refl]. }
    destruct B1 as [B1 B1'].
    set (w1 := if requiresWheelchairAccess preferences && _
               then w * dec 8 10 else w) in *.
    assert (B2 : 0 <= (if needsRestStops preferences &&
                          bool_decide (ftype f = rest_area)
                       then w1 * dec 9 10 else w1) <= w1).
    { destruct (needsRestStops preferences && _).
      - apply Qc_scale_down; [exact B1|lia].
      - split; [exact B1|apply Qcle_refl]. }
    destruct B2 as [B2 B2'].
    eapply Qcle_trans; [apply Hle2, B2|].
    eapply Qcle_trans; [apply B2'|apply B1'].
Qed.

Lemma featuresLoop_no_discount preferences l weight :
  requiresWheelchairAccess preferences = false ->
  needsRestStops preferences = false ->
  featuresLoop preferences weight l = weight.
Proof.
  intros Hw Hr. revert weight. induction l as [|f l IH]; intros weight; simpl;
    [reflexivity|].
  rewrite Hw, Hr. simpl. apply IH.
Qed.

(** A finite result of the loop over the obstacles comes from a finite
    weight, and is not below it. *)
Lemma obstaclesLoop_ge preferences l weight w' :
  obstaclesLoop preferences weight l = Some (Fin w') ->
  exists w, weight = Fin w /\ (0 <= w -> w <= w').
Proof.
  revert weight. induction l as [|o l IH]; intros weight H; simpl in H.
  - injection H as ->. exists w'. split; [reflexivity|intros _; apply Qcle_refl].
  - destruct (requiresWheelchairAccess preferences && isBarrier (otype o));
      [discriminate|].
    apply IH in H as (w1 & H1 & Hle).
    apply scaled_Fin in H1 as (w & -> & ->).
    exists w. split; [reflexivity|]. intros Hw.
    destruct (preferWellLit preferences && _).
    + apply Qcle_trans with (w * dec 15 10).
      * apply Qc_scale_up; [exact Hw|lia].
      * apply Hle. apply Qcmult_nonneg_nonneg; [exact Hw|now apply dec_nonneg].
    + now apply Hle.
Qed.

(** X9. A finite edge weight comes from a distance that is a number,
    and is not negative; without [preferWellLit] it is at most the
    distance, and with neither [requiresWheelchairAccess] nor
    [needsRestStops] it is at least the distance. *)
Theorem calculatePathWeight_bounds this start end_ preferences w :
  calculatePathWeight this start end_ preferences = Fin w ->
  exists d, calculateBaseDistance start end_ = Fin d /\
    0 <= w /\
    (preferWellLit preferences = false -> w <= d) /\
    (requiresWheelchairAccess preferences = false ->
     needsRestStops preferences = false ->
     d <= w).
Proof.
  intros Hw. assert (Hpos := calculatePathWeight_nonneg _ _ _ _ _ Hw).
  unfold calculatePathWeight in Hw.
  destruct (obstaclesLoop preferences _ _) as [w'|] eqn:Ho; [|discriminate].
  destruct (featuresLoop_le _ _ _ _ Hw) as (w1 & -> & Hle1).
  destruct (obstaclesLoop_ge _ _ _ _ Ho) as (d & Hd & Hle2).
  assert (Hd0 := calculateBaseDistance_nonneg _ _ _ Hd).
  exists d. split; [exact Hd|]. split; [exact Hpos|]. split.
  - intros Hl. apply obstaclesLoop_no_penalty in Ho; [|exact Hl].
    rewrite Hd in Ho. injection Ho as ->. now apply Hle1.
  - intros Hc Hr. rewrite featuresLoop_no_discount in Hw by assumption.
    injection Hw as <-. now apply Hle2.
Qed.

Lemma number_add_comm a b : number_add a b = number_add b a.
Proof.
  destruct a as [x| |], b as [y| |]; simpl; try reflexivity.
  f_equal. ring.
Qed.

(** X10. The segment-near test does not depend on the direction of the
    segment.  With the threshold 20 that the service uses, both ends of
    a segment whose length is a number are near it; and nothing is near
    a segment whose length is NaN, not even its ends. *)
Theorem isPointNearLine_ends point a b threshold :
  isPointNearLine point a b threshold = isPointNearLine point b a threshold /\
  (calculateBaseDistance a b <> NaN ->
   isPointNearLine a a b (dec 20 1) = true /\
   isPointNearLine b a b (dec 20 1) = true) /\
  (calculateBaseDistance a b = NaN ->
   isPointNearLine point a b threshold = false).
Proof.
  unfold isPointNearLine. split; [|split].
  - rewrite (calculateBaseDistance_sym b a), number_add_comm. reflexivity.
  - intros Hd. apply calculateBaseDistance_Fin in Hd as [d Hd].
    rewrite !calculateBaseDistance_same, (calculateBaseDistance_sym b a), Hd.
    cbn [number_add number_ltb].
    assert (H : d < d + dec 20 1).
    { rewrite <- (Qcplus_0_r d) at 1. now apply Qcplus_lt_mono_l. }
    rewrite Qcplus_0_l, Qcplus_0_r. split; now apply Qc_ltb_true.
  - intros ->. cbn [number_add].
    now destruct (number_add _ _).
Qed.

End CostBounds.

(** ** What the search depends on *)

Section SearchCongruence.

Context {M : MathLib}.

Variables (this this' : Service) (p p' : AccessibilityPreferences).
Hypothesis Hweight : forall a b,
  calculatePathWeight this a b p = calculatePathWeight this' a b p'.
Hypothesis Haccessible : forall l,
  isLocationAccessible this l p = isLocationAccessible this' l p'.

Lemma getAccessibleNeighbors_ext current next :
  getAccessibleNeighbors this current p next =
  getAccessibleNeighbors this' current p' next.
Proof.
  unfold getAccessibleNeighbors. apply omap_pointwise.
  intros [n [i j]]. now rewrite Haccessible.
Qed.

Lemma relax_ext end_ current st neighbor :
  relax this end_ p current st neighbor = relax this' end_ p' current st neighbor.
Proof. unfold relax. now rewrite Hweight. Qed.

Lemma expand_ext end_ current st :
  expand this end_ p current st = expand this' end_ p' current st.
Proof.
  unfold expand. rewrite getAccessibleNeighbors_ext.
  generalize (getAccessibleNeighbors this' current.2 p' (nextId st)).
  intros l.
  generalize ({| openSet := Set_delete (openSet st) current;
                 cameFrom := cameFrom st; gScore := gScore st;
                 fScore := fScore st;
                 nextId := (nextId st + length gridOffsets)%nat |}).
  induction l as [|n l IH]; intros s0; simpl; [reflexivity|].
  now rewrite relax_ext, IH.
Qed.

Lemma searchStep_ext end_ st :
  searchStep this end_ p st = searchStep this' end_ p' st.
Proof.
  unfold searchStep. destruct (openSet st); [reflexivity|].
  destruct (getLowestFScore _ _); [|reflexivity].
  now rewrite expand_ext.
Qed.

Lemma searchLoop_ext fuel end_ st :
  searchLoop fuel this end_ p st = searchLoop fuel this' end_ p' st.
Proof.
  revert st. induction fuel as [|fuel IH]; intros st; simpl; [reflexivity|].
  rewrite searchStep_ext.
  destruct (searchStep this' end_ p' st); try reflexivity. apply IH.
Qed.

Lemma findAccessibleRoute_ext fuel start end_ :
  fst <$> findAccessibleRoute fuel start end_ p this =
  fst <$> findAccessibleRoute fuel start end_ p' this'.
Proof.
  unfold findAccessibleRoute. rewrite searchLoop_ext.
  destruct (searchLoop fuel this' end_ p' _); reflexivity.
Qed.

End SearchCongruence.

Section Dependence.

Context {M : MathLib}.

Lemma segmentsLoop_same_features this this' route acc :
  features this = features this' ->
  segmentsLoop this route acc = segmentsLoop this' route acc.
Proof.
  intros Hf. revert acc. induction route as [|a l IH]; intros acc; [reflexivity|].
  destruct l as [|b l]; [reflexivity|].
  rewrite !segmentsLoop_step. unfold featuresOnSegment at 1 2. rewrite Hf.
  apply IH.
Qed.

(** X3. The preferences stored by [setUserPreferences] are never read:
    the edge weights, the accessibility of points, the annotation of
    routes and the routes found are those of the service before the
    call. *)
Theorem setUserPreferences_unread stored this :
  (forall a b p,
     calculatePathWeight (setUserPreferences stored this) a b p =
     calculatePathWeight this a b p) /\
  (forall l p,
     isLocationAccessible (setUserPreferences stored this) l p =
     isLocationAccessible this l p) /\
  (forall route,
     getAccessibleFeaturesOnRoute (setUserPreferences stored this) route =
     getAccessibleFeaturesOnRoute this route) /\
  (forall fuel start end_ p,
     fst <$> findAccessibleRoute fuel start end_ p (setUserPreferences stored this) =
     fst <$> findAccessibleRoute fuel start end_ p this).
Proof.
  assert (Hw : forall a b p,
            calculatePathWeight (setUserPreferences stored this) a b p =
            calculatePathWeight this a b p) by reflexivity.
  assert (Ha : forall l p,
            isLocationAccessible (setUserPreferences stored this) l p =
            isLocationAccessible this l p) by reflexivity.
  split; [exact Hw|]. split; [exact Ha|]. split.
  - intros route. unfold getAccessibleFeaturesOnRoute.
    destruct route as [|route0 [|route1 rest]]; try reflexivity.
    f_equal. now apply segmentsLoop_same_features.
  - intros fuel start end_ p. apply findAccessibleRoute_ext; intros; [apply Hw|apply Ha].
Qed.

Lemma obstaclesLoop_plain preferences l weight :
  requiresWheelchairAccess preferences = false ->
  preferWellLit preferences = false ->
  obstaclesLoop preferences weight l = Some weight.
Proof.
  intros Hw Hl. induction l as [|o l IH]; simpl; [reflexivity|].
  rewrite Hw, Hl. simpl. exact IH.
Qed.

Lemma isLocationAccessible_not_required this location preferences :
  requiresWheelchairAccess preferences = false ->
  isLocationAccessible this location preferences = true.
Proof.
  intros Hw.
  destruct (isLocationAccessible this location preferences) eqn:E; [reflexivity|].
  apply isLocationAccessible_false in E as [E _]. congruence.
Qed.

(** X5. With none of [requiresWheelchairAccess], [preferWellLit] and
    [needsRestStops], the knowledge base plays no part: every edge
    weighs its distance, every point is accessible, and the search
    gives the same outcome on every service. *)
Theorem no_preference_ignores_knowledge_base preferences this this' :
  requiresWheelchairAccess preferences = false ->
  preferWellLit preferences = false ->
  needsRestStops preferences = false ->
  (forall a b,
     calculatePathWeight this a b preferences = calculateBaseDistance a b) /\
  (forall l, isLocationAccessible this l preferences = true) /\
  (forall fuel start end_,
     fst <$> findAccessibleRoute fuel start end_ preferences this =
     fst <$> findAccessibleRoute fuel start end_ preferences this').
Proof.
  intros Hw Hl Hr.
  assert (Hweight : forall s a b,
            calculatePathWeight s a b preferences = calculateBaseDistance a b).
  { intros s a b. unfold calculatePathWeight.
    rewrite obstaclesLoop_plain by assumption.
    now rewrite featuresLoop_no_discount. }
  split; [apply Hweight|].
  split; [intros; now apply isLocationAccessible_not_required|].
  intros fuel start end_. apply findAccessibleRoute_ext.
  - intros a b. now rewrite !Hweight.
  - intros l. now rewrite !isLocationAccessible_not_required.
Qed.

Lemma findAccessibleRoute_no_knowledge this fuel start end_ p p' :
  features this = [] -> obstacles this = [] ->
  findAccessibleRoute fuel start end_ p this =
  findAccessibleRoute fuel start end_ p' this.
Proof.
  intros Hf Ho.
  assert (H := findAccessibleRoute_ext this this p p').
  assert (Hw : forall a b, calculatePathWeight this a b p =
                           calculatePathWeight this a b p').
  { intros a b. unfold calculatePathWeight, findObstaclesOnPath, findFeaturesOnPath.
    rewrite Hf, Ho. reflexivity. }
  assert (Ha : forall l, isLocationAccessible this l p =
                         isLocationAccessible this l p').
  { intros l. unfold isLocationAccessible. rewrite Ho. reflexivity. }
  specialize (H Hw Ha fuel start end_).
  unfold findAccessibleRoute in *.
  destruct (searchLoop fuel this end_ p _), (searchLoop fuel this end_ p' _);
    simpl in *; congruence.
Qed.

Lemma getAccessibleFeaturesOnRoute_no_features this route :
  features this = [] -> getAccessibleFeaturesOnRoute this route = [].
Proof.
  intros Hf. unfold getAccessibleFeaturesOnRoute.
  destruct route as [|route0 [|route1 rest]]; try reflexivity.
  assert (Hs : forall l acc, segmentsLoop this l acc = acc).
  { induction l as [|a l IH]; intros acc; [reflexivity|].
    destruct l as [|b l]; [reflexivity|].
    rewrite segmentsLoop_step. unfold featuresOnSegment. rewrite Hf. simpl.
    apply IH. }
  rewrite Hs. reflexivity.
Qed.

(** X6. On a service without features and without obstacles the
    preferences play no part: the search gives the same outcome for
    all of them, and the annotation of every route is empty. *)
Theorem empty_knowledge_base_ignores_preferences this :
  features this = [] -> obstacles this = [] ->
  (forall fuel start end_ p p',
     findAccessibleRoute fuel start end_ p this =
     findAccessibleRoute fuel start end_ p' this) /\
  (forall route, getAccessibleFeaturesOnRoute this route = []).
Proof.
  intros Hf Ho. split.
  - intros fuel start end_ p p'. now apply findAccessibleRoute_no_knowledge.
  - intros route. now apply getAccessibleFeaturesOnRoute_no_features.
Qed.

End Dependence.

(** ** More on the search *)

Section SearchProperties.

Context {M : MathLib}.

Lemma number_ltb_irrefl a : number_ltb a a = false.
Proof.
  destruct a as [q| |]; [|reflexivity..]. simpl. apply Qc_ltb_false, Qcle_refl.
Qed.

Lemma number_leb_false_ltb a q q' :
  number_ltb a (Fin q) = false -> q' < q -> number_leb a (Fin q') = false.
Proof.
  intros H Hq. apply number_leb_false. destruct a as [p| |]; [|tauto..].
  right. right. exists p. split; [reflexivity|].
  simpl in H. apply Qc_ltb_false in H. now apply Qclt_le_trans with q.
Qed.

Lemma number_leb_false_lt a q q' :
  number_leb a (Fin q) = false -> q' < q -> number_leb a (Fin q') = false.
Proof.
  intros H Hq. apply number_leb_false_ltb with q; [|exact Hq].
  apply number_leb_false in H as [->|[->|(p & -> & Hp)]]; [reflexivity..|].
  simpl. apply Qc_ltb_false. now apply Qclt_le_weak.
Qed.

Section LowestScore.

Variable fScore : gmap (Qc * Qc) number.

Let lowestSoFar (seen : list Obj) (acc : number * option Obj) : Prop :=
  match acc with
  | (lowest, Some node) =>
      exists before after q,
        seen = before ++ node :: after /\ lowest = Fin q /\
        scoreOfNode fScore node = Fin q /\
        (forall o, o ∈ before -> number_leb (scoreOfNode fScore o) (Fin q) = false) /\
        (forall o, o ∈ after -> number_ltb (scoreOfNode fScore o) (Fin q) = false)
  | (lowest, None) =>
      lowest = Infinity /\
      forall o, o ∈ seen ->
        scoreOfNode fScore o = Infinity \/ scoreOfNode fScore o = NaN
  end.

Lemma lowestSoFar_step seen acc x :
  lowestSoFar seen acc ->
  lowestSoFar (seen ++ [x])
    (if number_ltb (scoreOfNode fScore x) (fst acc)
     then (scoreOfNode fScore x, Some x) else acc).
Proof.
  destruct acc as [lowest [node|]]; simpl.
  - intros (before & after & q & -> & -> & Hs & Hb & Ha).
    destruct (number_ltb (scoreOfNode fScore x) (Fin q)) eqn:E.
    + destruct (number_ltb_Fin_r _ _ E) as (q' & Hq' & Hlt).
      exists (before ++ node :: after), [], q'.
      split; [reflexivity|]. split; [exact Hq'|]. split; [exact Hq'|]. split.
      * intros o Ho.
        apply elem_of_app in Ho as [Ho|Ho].
        -- apply number_leb_false_lt with q; [now apply Hb|exact Hlt].
        -- apply elem_of_cons in Ho as [->|Ho].
           ++ rewrite Hs. simpl. now apply negb_false_iff, Qc_ltb_true.
           ++ apply number_leb_false_ltb with q; [now apply Ha|exact Hlt].
      * intros o Ho. inversion Ho.
    + exists before, (after ++ [x]), q.
      split; [now rewrite <- app_assoc|]. split; [reflexivity|].
      split; [exact Hs|]. split; [exact Hb|].
      intros o Ho. apply elem_of_app in Ho as [Ho|Ho]; [now apply Ha|].
      apply list_elem_of_singleton in Ho. now subst o.
  - intros (-> & Hall).
    destruct (scoreOfNode fScore x) as [q| |] eqn:E; simpl.
    + exists seen, [], q.
      split; [reflexivity|]. split; [reflexivity|]. split; [exact E|]. split.
      * intros o Ho. now destruct (Hall o Ho) as [-> | ->].
      * intros o Ho. inversion Ho.
    + split; [reflexivity|]. intros o Ho.
      apply elem_of_app in Ho as [Ho|Ho]; [now apply Hall|].
      apply list_elem_of_singleton in Ho. subst o. now left.
    + split; [reflexivity|]. intros o Ho.
      apply elem_of_app in Ho as [Ho|Ho]; [now apply Hall|].
      apply list_elem_of_singleton in Ho. subst o. now right.
Qed.

Lemma lowestSoFar_fold l seen acc :
  lowestSoFar seen acc ->
  lowestSoFar (seen ++ l)
    (fold_left (fun (acc : number * option Obj) node =>
         let score := default Infinity (fScore !! locationToKey (snd node)) in
         if number_ltb score (fst acc) then (score, Some node) else acc)
       l acc).
Proof.
  revert seen acc. induction l as [|x l IH]; intros seen acc H.
  - now rewrite app_nil_r.
  - cbn [fold_left]. replace (seen ++ x :: l) with ((seen ++ [x]) ++ l)
      by now rewrite <- app_assoc.
    apply IH. now apply lowestSoFar_step.
Qed.

(** X11. [getLowestFScore] returns the first node of the open set
    whose score is the lowest, and that score is finite: the scores of
    the nodes before it are not at or below it (they are higher, or
    NaN), and those of the nodes after it are not below it.  It finds
    no node exactly when no node of the open set has a finite score:
    each is [Infinity] or NaN. *)
Theorem getLowestFScore_spec (open : list Obj) :
  match getLowestFScore open fScore with
  | Some node =>
      exists before after q,
        open = before ++ node :: after /\
        scoreOfNode fScore node = Fin q /\
        (forall o, o ∈ before -> number_leb (scoreOfNode fScore o) (Fin q) = false) /\
        (forall o, o ∈ after -> number_ltb (scoreOfNode fScore o) (Fin q) = false)
  | None =>
      forall o, o ∈ open ->
        scoreOfNode fScore o = Infinity \/ scoreOfNode fScore o = NaN
  end.
Proof.
  unfold getLowestFScore.
  assert (H := lowestSoFar_fold open [] (Infinity, None)).
  simpl in H.
  match goal with |- context [fold_left ?f open ?a] =>
    destruct (fold_left f open a) as [lowest [node|]] end; simpl in H |- *.
  - destruct H as (before & after & q & H1 & _ & H2 & H3 & H4).
    + split; [reflexivity|]. intros o Ho. inversion Ho.
    + now exists before, after, q.
  - apply H. split; [reflexivity|]. intros o Ho. inversion Ho.
Qed.

End LowestScore.

(** *** The neighbours of a point *)

Lemma gridSize_pos : 0 < gridSize.
Proof. reflexivity. Qed.

Lemma dec_inj i i' : dec i 1 = dec i' 1 -> i = i'.
Proof.
  intros H. apply (f_equal this) in H. unfold dec in H. simpl in H.
  assert (E : (i # 1 == i' # 1)%Q).
  { rewrite <- (Qred_correct (i # 1)), <- (Qred_correct (i' # 1)). now rewrite H. }
  unfold Qeq in E. simpl in E. lia.
Qed.

Lemma grid_inj a i i' :
  a + dec i 1 * gridSize = a + dec i' 1 * gridSize -> i = i'.
Proof.
  intros H. apply dec_inj.
  assert (E : dec i 1 * gridSize = dec i' 1 * gridSize).
  { replace (dec i 1 * gridSize) with (a + dec i 1 * gridSize - a) by ring.
    rewrite H. ring. }
  replace (dec i 1) with (dec i 1 * gridSize / gridSize) by (field; discriminate).
  rewrite E. field. discriminate.
Qed.

Lemma gridOffsets_not_zero : (0, 0)%Z ∉ gridOffsets.
Proof.
  apply (bool_decide_eq_false_1 ((0, 0)%Z ∈ gridOffsets)). reflexivity.
Qed.

Lemma gridOffsets_NoDup : NoDup gridOffsets.
Proof. apply (bool_decide_eq_true_1 (NoDup gridOffsets)). reflexivity. Qed.

Lemma gridStep_inj a i j i' j' :
  {| latitude := latitude a + dec i 1 * gridSize;
     longitude := longitude a + dec j 1 * gridSize |} =
  {| latitude := latitude a + dec i' 1 * gridSize;
     longitude := longitude a + dec j' 1 * gridSize |} ->
  i = i' /\ j = j'.
Proof.
  intros H. split.
  - apply (grid_inj (latitude a)). exact (f_equal latitude H).
  - apply (grid_inj (longitude a)). exact (f_equal longitude H).
Qed.

Lemma gridStep_irrefl a : ~ gridStep a a.
Proof.
  intros (i & j & Hin & E).
  assert (Hi := f_equal latitude E). assert (Hj := f_equal longitude E).
  simpl in Hi, Hj.
  assert (Hz : forall x, x + dec 0 1 * gridSize = x).
  { intros x. replace (dec 0 1) with 0 by now apply Qc_is_canon. ring. }
  assert (i = 0%Z) by (apply (grid_inj (latitude a)); now rewrite Hz).
  assert (j = 0%Z) by (apply (grid_inj (longitude a)); now rewrite Hz).
  subst. now apply gridOffsets_not_zero.
Qed.

Lemma NoDup_omap_inj {A B} (f : A -> option B) (l : list A) :
  NoDup l ->
  (forall x y z, x ∈ l -> y ∈ l -> f x = Some z -> f y = Some z -> x = y) ->
  NoDup (omap f l).
Proof.
  induction 1 as [|x l Hx Hl IH]; intros Hinj; simpl; [constructor|].
  assert (Hrest : NoDup (omap f l)).
  { apply IH. intros a b z Ha Hb. apply Hinj; now right. }
  destruct (f x) as [z|] eqn:Hz; [|exact Hrest].
  constructor; [|exact Hrest].
  intros Hin. apply list_elem_of_omap in Hin as (y & Hy & Hfy).
  assert (x = y) by (apply (Hinj x y z); [left|now right|exact Hz|exact Hfy]).
  now subst y.
Qed.

Lemma length_omap_le {A B} (f : A -> option B) (l : list A) :
  (length (omap f l) <= length l)%nat.
Proof.
  induction l as [|x l IH]; simpl; [lia|].
  change (list_omap A B f l) with (omap f l).
  destruct (f x); simpl; lia.
Qed.

(** X12. The neighbours of a point are the accessible ones of its
    eight grid neighbours, each once and never the point itself. *)
Theorem getAccessibleNeighbors_spec this current preferences next :
  let neighbors := snd <$> getAccessibleNeighbors this current preferences next in
  (forall b, b ∈ neighbors <->
     gridStep current b /\ isLocationAccessible this b preferences = true) /\
  (current ∉ neighbors) /\
  NoDup neighbors /\
  (length neighbors <= 8)%nat.
Proof.
  cbv zeta.
  assert (Hiff : forall b,
    b ∈ snd <$> getAccessibleNeighbors this current preferences next <->
    gridStep current b /\ isLocationAccessible this b preferences = true).
  { intros b. rewrite list_elem_of_fmap. unfold getAccessibleNeighbors. split.
    - intros ([id b'] & -> & Hin). simpl.
      apply list_elem_of_omap in Hin as [[idx [i j]] [Hx Hf]].
      apply elem_of_lookup_imap in Hx as (idx' & ij & [= -> <-] & Hl).
      destruct (isLocationAccessible _ _ _) eqn:Ha; [|discriminate].
      injection Hf as <- <-. split; [|exact Ha].
      exists i, j. split; [|reflexivity]. now apply list_elem_of_lookup_2 in Hl.
    - intros [(i & j & Hin & ->) Ha].
      apply list_elem_of_lookup_1 in Hin as [n Hn].
      eexists (_, _). split; [reflexivity|].
      apply list_elem_of_omap. exists (n, (i, j)). split.
      + apply elem_of_lookup_imap. now exists n, (i, j).
      + cbv beta iota zeta. rewrite Ha. reflexivity. }
  split; [exact Hiff|]. split; [|split].
  - intros Hin. apply Hiff in Hin as [Hstep _]. now apply gridStep_irrefl in Hstep.
  - unfold getAccessibleNeighbors. rewrite list_fmap_omap.
    apply NoDup_omap_inj.
    + apply (bool_decide_eq_true_1 (NoDup (imap (fun n ij => (n, ij)) gridOffsets))).
      reflexivity.
    + intros [n [i j]] [n' [i' j']] z Hx Hy Hfx Hfy.
      apply elem_of_lookup_imap in Hx as (? & ? & [= <- <-] & Hl).
      apply elem_of_lookup_imap in Hy as (? & ? & [= <- <-] & Hl').
      cbv beta iota zeta in Hfx, Hfy.
      destruct (isLocationAccessible this _ preferences); [|discriminate].
      destruct (isLocationAccessible this _ preferences); [|discriminate].
      simpl in Hfx, Hfy. rewrite <- Hfy in Hfx.
      assert (Hfx' := f_equal (default current) Hfx). simpl in Hfx'.
      apply gridStep_inj in Hfx' as [-> ->].
      f_equal. eapply NoDup_lookup; [apply gridOffsets_NoDup|eassumption..].
  - rewrite length_fmap. unfold getAccessibleNeighbors.
    etransitivity; [apply length_omap_le|]. rewrite length_imap. reflexivity.
Qed.

(** *** The routes found are safe *)

Lemma getAccessibleNeighbors_accessible this preferences current next n :
  n ∈ getAccessibleNeighbors this current preferences next ->
  isLocationAccessible this n.2 preferences = true.
Proof.
  unfold getAccessibleNeighbors. intros Hn.
  apply list_elem_of_omap in Hn as [[idx [i j]] [Hx Hf]].
  destruct (isLocationAccessible _ _ _) eqn:Ha; [|discriminate].
  now injection Hf as <-.
Qed.

Section SearchSafety.

Variables (this : Service) (end_ : Location).
Variable preferences : AccessibilityPreferences.

Lemma searchSafe_relax current st neighbor :
  isLocationAccessible this neighbor.2 preferences = true ->
  searchSafe this preferences st ->
  searchSafe this preferences (relax this end_ preferences current st neighbor).
Proof.
  intros Ha Hs. unfold relax.
  destruct (gScore st !! locationToKey current) as [g|]; [|exact Hs].
  destruct (number_ltb _ _) eqn:Hlt; [|exact Hs].
  intros k c Hc. simpl in Hc.
  destruct (decide (locationToKey neighbor.2 = k)) as [E|E].
  - rewrite E, lookup_insert_eq in Hc. injection Hc as <-.
    exists neighbor.2. split; [exact E|]. split; [exact Ha|].
    apply number_ltb_is_Fin in Hlt as [t Ht].
    apply number_add_Fin in Ht as (x & w & _ & Hw & _). now exists w.
  - rewrite lookup_insert_ne in Hc by exact E. now apply Hs.
Qed.

Lemma searchSafe_fold_relax current l st :
  (forall n, n ∈ l -> isLocationAccessible this n.2 preferences = true) ->
  searchSafe this preferences st ->
  searchSafe this preferences (fold_left (relax this end_ preferences current) l st).
Proof.
  revert st. induction l as [|n l IH]; intros st Hl Hs; simpl; [exact Hs|].
  apply IH.
  - intros x Hx. apply Hl. now right.
  - apply searchSafe_relax; [apply Hl; left|exact Hs].
Qed.

Lemma searchSafe_step st st' :
  searchSafe this preferences st ->
  searchStep this end_ preferences st = Continue st' ->
  searchSafe this preferences st'.
Proof.
  intros Hs. unfold searchStep.
  destruct (openSet st) as [|o1 rest]; [discriminate|].
  destruct (getLowestFScore _ _) as [current|]; [|discriminate].
  destruct (isAtDestination _ _); [discriminate|].
  intros [= <-]. unfold expand. apply searchSafe_fold_relax; [|exact Hs].
  intros n Hn. now apply getAccessibleNeighbors_accessible in Hn.
Qed.

Lemma searchLoop_Return_safe fuel st route :
  searchSafe this preferences st ->
  searchLoop fuel this end_ preferences st = Some (Return route) ->
  forall i a b, route !! i = Some a -> route !! S i = Some b ->
    isLocationAccessible this b preferences = true /\
    exists w, calculatePathWeight this a b preferences = Fin w.
Proof.
  revert st. induction fuel as [|fuel IH]; intros st Hs Hr; simpl in Hr; [discriminate|].
  destruct (searchStep this end_ preferences st) as [st'|current| |e] eqn:Hstep.
  - apply IH with st'; [|exact Hr]. now apply searchSafe_step with st.
  - unfold reconstructPath in Hr.
    destruct (reconstructLoop fuel _ _ _) as [r|] eqn:Hrec; [|discriminate].
    injection Hr as <-. intros i a b Ha Hb.
    assert (Hone : forall i a b, [current] !! i = Some a ->
              [current] !! S i = Some b ->
              cameFrom st !! locationToKey b = Some a)
      by (intros n x y _ Hy; destruct n; discriminate Hy).
    assert (Hl := reconstructLoop_linked _ _ _ _ _ Hone Hrec i a b Ha Hb).
    apply Hs in Hl as (b' & Hk & Hacc & Hfin).
    apply locationToKey_inj in Hk. now subst b'.
  - discriminate.
  - discriminate.
Qed.

End SearchSafety.

(** X13. Every step of a route that [findAccessibleRoute] returns goes
    to an accessible point over an edge of finite weight: for a user
    who requires wheelchair access, no [stairs] and no [narrow_path]
    obstacle is less than 20 m from a point of the route after the
    first, and each fails the segment-near test for every edge of the
    route.  (The start itself is not tested.) *)
Theorem findAccessibleRoute_safe fuel start end_ preferences this route this' :
  findAccessibleRoute fuel start end_ preferences this = Some (Return route, this') ->
  forall i a b, route !! i = Some a -> route !! S i = Some b ->
    isLocationAccessible this b preferences = true /\
    (exists w, calculatePathWeight this a b preferences = Fin w) /\
    (requiresWheelchairAccess preferences = true ->
     forall obstacle, obstacle ∈ obstacles this ->
       otype obstacle = stairs \/ otype obstacle = narrow_path ->
       number_ltb (calculateBaseDistance b (olocation obstacle)) (Fin (dec 20 1))
         = false /\
       isPointNearLine (olocation obstacle) a b (dec 20 1) = false).
Proof.
  unfold findAccessibleRoute. intros H.
  destruct (searchLoop fuel this end_ preferences _) as [c|] eqn:Hr; [|discriminate].
  simpl in H. injection H as -> _.
  intros i a b Ha Hb.
  destruct (searchLoop_Return_safe this end_ preferences fuel
              (initialState start end_) route) with i a b
    as [Hacc Hfin]; try assumption.
  { intros k c Hc. simpl in Hc. rewrite lookup_empty in Hc. discriminate. }
  split; [exact Hacc|]. split; [exact Hfin|].
  intros Hw o Ho Ht. split.
  - destruct (number_ltb _ _) eqn:Hd; [|reflexivity].
    assert (Hno : isLocationAccessible this b preferences = false).
    { apply isLocationAccessible_false. split; [exact Hw|]. now exists o. }
    congruence.
  - destruct (isPointNearLine (olocation o) a b (dec 20 1)) eqn:Hn; [|reflexivity].
    exfalso. destruct Hfin as [w Hfin].
    unfold calculatePathWeight in Hfin.
    rewrite obstaclesLoop_barrier in Hfin; [discriminate|exact Hw|].
    exists o. split.
    + unfold findObstaclesOnPath. apply list_elem_of_filter. now split.
    + now apply isBarrier_spec.
Qed.

(** X15. A search that starts within 5 m of the destination returns
    the route that holds only the start, whatever the knowledge base
    and the preferences: the start is not tested for accessibility. *)
Theorem findAccessibleRoute_at_destination fuel start end_ preferences this :
  isAtDestination start end_ = true ->
  findAccessibleRoute (S (S fuel)) start end_ preferences this =
  Some (Return [start], this).
Proof.
  intros Hat.
  assert (Hstep : searchStep this end_ preferences (initialState start end_) =
                  Arrived start).
  { unfold searchStep, initialState, getLowestFScore. simpl.
    rewrite lookup_singleton_eq. simpl.
    apply number_ltb_Fin_r in Hat as Hd. destruct Hd as (d & Hd & _).
    unfold estimateDistance. rewrite Hd. simpl. now rewrite Hat. }
  unfold findAccessibleRoute. remember (S fuel) as fuel' eqn:Hfuel.
  simpl. rewrite Hstep. subst fuel'. unfold reconstructPath. simpl.
  rewrite lookup_empty. reflexivity.
Qed.

(** *** Nothing blocks, nothing fails *)

Lemma Set_add_fresh (s : list Obj) (n : Obj) (b : nat) :
  (forall o, o ∈ s -> (fst o < b)%nat) -> (b <= fst n)%nat ->
  Set_add s n = s ++ [n].
Proof.
  intros Hs Hn. unfold Set_add.
  destruct (existsb (fun e => Nat.eqb (fst e) (fst n)) s) eqn:E; [|reflexivity].
  apply existsb_exists in E as (x & Hx & Heq).
  apply list_elem_of_In, Hs in Hx. apply Nat.eqb_eq in Heq. lia.
Qed.

Lemma NoDup_fst_filter (P : Obj -> Prop) `{forall o, Decision (P o)} (l : list Obj) :
  NoDup (fst <$> l) -> NoDup (fst <$> filter P l).
Proof.
  induction l as [|x l IH]; [intros; constructor|].
  rewrite fmap_cons, NoDup_cons, filter_cons. intros [Hx Hl].
  destruct (decide (P x)); [|now apply IH].
  rewrite fmap_cons. apply NoDup_cons. split; [|now apply IH].
  intros Hin. apply Hx. apply list_elem_of_fmap in Hin as (y & Hy & Hin).
  apply list_elem_of_fmap. exists y. split; [exact Hy|].
  now apply list_elem_of_filter in Hin as [_ Hin].
Qed.

Lemma NoDup_fst_eq (l : list Obj) (o o' : Obj) :
  NoDup (fst <$> l) -> o ∈ l -> o' ∈ l -> fst o = fst o' -> o = o'.
Proof.
  intros Hl Ho Ho' E.
  apply list_elem_of_lookup_1 in Ho as [i Hi].
  apply list_elem_of_lookup_1 in Ho' as [j Hj].
  assert (i = j).
  { apply (NoDup_lookup (fst <$> l) i j (fst o)); [exact Hl| |].
    - rewrite list_lookup_fmap. exact (f_equal (fmap fst) Hi).
    - rewrite list_lookup_fmap, E. exact (f_equal (fmap fst) Hj). }
  subst j. congruence.
Qed.

Section SearchLiveness.

Variables (this : Service) (start end_ : Location).
Variable preferences : AccessibilityPreferences.
Hypothesis Hun : unobstructed this preferences.
Hypothesis Hnorth : northMeasured.

Lemma unobstructed_accessible l :
  isLocationAccessible this l preferences = true.
Proof.
  destruct (isLocationAccessible this l preferences) eqn:E; [reflexivity|].
  apply isLocationAccessible_false in E as (Hw & o & Ho & Ht & _).
  destruct Hun as [H|H]; [congruence|].
  specialize (H o Ho). apply isBarrier_spec in Ht. congruence.
Qed.

Lemma obstaclesLoop_Fin l w :
  obstaclesLoop preferences (Fin w) l = None \/
  exists w', obstaclesLoop preferences (Fin w) l = Some (Fin w').
Proof.
  revert w. induction l as [|o l IH]; intros w; simpl; [right; eauto|].
  destruct (requiresWheelchairAccess preferences && isBarrier (otype o));
    [now left|].
  destruct (preferWellLit preferences && _); apply IH.
Qed.

Lemma featuresLoop_Fin l w :
  exists w', featuresLoop preferences (Fin w) l = Fin w'.
Proof.
  revert w. induction l as [|f l IH]; intros w; simpl; [eauto|].
  destruct (requiresWheelchairAccess preferences && _),
           (needsRestStops preferences && _); apply IH.
Qed.

(** An edge whose length is a number has a finite weight. *)
Lemma unobstructed_measured a b d :
  calculateBaseDistance a b = Fin d ->
  exists w, calculatePathWeight this a b preferences = Fin w.
Proof.
  intros Hd. unfold calculatePathWeight. rewrite Hd.
  destruct (obstaclesLoop_Fin (findObstaclesOnPath this a b) d) as [E|[w' E]];
    rewrite E; [|apply featuresLoop_Fin].
  apply obstaclesLoop_None in E as (Hw & o & Ho & Hb).
  unfold findObstaclesOnPath in Ho. apply list_elem_of_filter in Ho as [_ Ho].
  destruct Hun as [H|H]; [congruence|].
  specialize (H o Ho). congruence.
Qed.

Lemma getAccessibleNeighbors_all current next :
  getAccessibleNeighbors this current preferences next =
  imap (fun n '(i, j) =>
          ((next + n)%nat,
           {| latitude := latitude current + dec i 1 * gridSize;
              longitude := longitude current + dec j 1 * gridSize |}))
       gridOffsets.
Proof.
  unfold getAccessibleNeighbors.
  assert (H : forall l k,
    omap (fun '(n, (i, j)) =>
        let neighbor := {| latitude := latitude current + dec i 1 * gridSize;
                           longitude := longitude current + dec j 1 * gridSize |} in
        if isLocationAccessible this neighbor preferences
        then Some ((next + n)%nat, neighbor) else None)
      (imap (fun n (ij : Z * Z) => ((k + n)%nat, ij)) l) =
    imap (fun n '(i, j) =>
          ((next + (k + n))%nat,
           {| latitude := latitude current + dec i 1 * gridSize;
              longitude := longitude current + dec j 1 * gridSize |})) l).
  { induction l as [|[i j] l IH]; intros k; [reflexivity|].
    rewrite !imap_cons. cbn [omap list_omap]. cbv zeta.
    rewrite unobstructed_accessible. f_equal.
    transitivity (imap (fun n '(i, j) =>
          ((next + (S k + n))%nat,
           {| latitude := latitude current + dec i 1 * gridSize;
              longitude := longitude current + dec j 1 * gridSize |})) l).
    - rewrite <- IH. f_equal. apply imap_ext. intros n [a b] _. simpl.
      f_equal. lia.
    - apply imap_ext. intros n [a b] _. simpl. f_equal. lia. }
  exact (H gridOffsets 0%nat).
Qed.

(** What the relaxations of one turn keep: as [searchOpen], with the
    point that left the open set standing in for itself. *)
Let liveInv (current : Location) (b : nat) (st : SearchState) : Prop :=
  (forall k v, gScore st !! k = Some v -> exists q, v = Fin q) /\
  is_Some (gScore st !! locationToKey start) /\
  is_Some (gScore st !! locationToKey current) /\
  NoDup (fst <$> openSet st) /\
  (forall o, o ∈ openSet st -> (fst o < b)%nat) /\
  (forall k, is_Some (gScore st !! k) ->
     (exists o, o ∈ openSet st /\ fst k <= latitude (snd o)) \/
     fst k <= latitude current).

Lemma relax_live current st n b :
  liveInv current b st -> (b <= fst n)%nat ->
  let st' := relax this end_ preferences current st n in
  liveInv current (S (fst n)) st' /\
  ((exists w, calculatePathWeight this current (snd n) preferences = Fin w) ->
   is_Some (gScore st' !! locationToKey (snd n))) /\
  (forall o, o ∈ openSet st -> o ∈ openSet st') /\
  (forall k, is_Some (gScore st !! k) -> is_Some (gScore st' !! k)) /\
  nextId st' = nextId st.
Proof.
  intros (F & S0 & C & N & B & W) Hb. cbv zeta. unfold relax.
  destruct C as [g Hg]. rewrite Hg.
  destruct (F _ _ Hg) as [gq ->].
  destruct (number_ltb _ _) eqn:Hlt.
  - apply number_ltb_is_Fin in Hlt as [t Ht]. rewrite Ht.
    rewrite (Set_add_fresh _ _ b B Hb). cbn [gScore openSet nextId].
    split; [|split; [|split; [|split]]].
    + split; [|split; [|split; [|split; [|split]]]]; cbn [gScore openSet].
      * intros k v Hk. apply lookup_insert_Some in Hk as [[_ <-]|[_ Hk]]; eauto.
      * apply lookup_insert_is_Some'. now right.
      * apply lookup_insert_is_Some'. right. eauto.
      * rewrite fmap_app. apply NoDup_app. split; [exact N|]. split.
        -- intros x Hx Hin. apply list_elem_of_fmap in Hx as (o & -> & Ho).
           apply B in Ho. simpl in Hin. apply list_elem_of_singleton in Hin. lia.
        -- apply NoDup_singleton.
      * intros o Ho. apply elem_of_app in Ho as [Ho|Ho].
        -- apply B in Ho. lia.
        -- apply list_elem_of_singleton in Ho. subst o. lia.
      * intros k Hk. apply lookup_insert_is_Some in Hk as [<-|[_ Hk]].
        -- left. exists n. split; [apply elem_of_app; right; left|].
           apply Qcle_refl.
        -- destruct (W k Hk) as [(o & Ho & Hle)|Hle]; [left|now right].
           exists o. split; [apply elem_of_app; now left|exact Hle].
    + intros _. rewrite lookup_insert_eq. eauto.
    + intros o Ho. apply elem_of_app. now left.
    + intros k Hk. apply lookup_insert_is_Some'. now right.
    + reflexivity.
  - split; [|split; [|split; [|split]]]; try (intros; assumption); try reflexivity.
    + split; [exact F|]. split; [exact S0|]. split; [eauto|]. split; [exact N|].
      split; [|exact W]. intros o Ho. apply B in Ho. lia.
    + intros [w Hw]. rewrite Hw in Hlt. cbn [number_add] in Hlt.
      destruct (gScore st !! locationToKey (snd n)); [eauto|discriminate].
Qed.

Lemma fold_relax_live current l :
  forall st b,
  liveInv current b st ->
  (forall i n, l !! i = Some n -> fst n = (b + i)%nat) ->
  let st' := fold_left (relax this end_ preferences current) l st in
  liveInv current (b + length l) st' /\
  (forall n, n ∈ l ->
     (exists w, calculatePathWeight this current (snd n) preferences = Fin w) ->
     is_Some (gScore st' !! locationToKey (snd n))) /\
  (forall o, o ∈ openSet st -> o ∈ openSet st') /\
  (forall k, is_Some (gScore st !! k) -> is_Some (gScore st' !! k)) /\
  nextId st' = nextId st.
Proof.
  induction l as [|n l IH]; intros st b Hinv Hids; cbv zeta.
  - simpl. rewrite Nat.add_0_r. split; [exact Hinv|].
    split; [intros n Hn; inversion Hn|].
    split; [intros; assumption|]. split; [intros; assumption|reflexivity].
  - cbn [fold_left].
    assert (Hn : fst n = b) by (rewrite (Hids 0%nat n); [lia|reflexivity]).
    destruct (relax_live current st n b Hinv) as (Hinv' & Hsc & Hmono & Hdom & Hnext);
      [lia|].
    destruct (IH (relax this end_ preferences current st n) (S (fst n)) Hinv')
      as (Hinv'' & Hsc' & Hmono' & Hdom' & Hnext').
    { intros i x Hx. rewrite (Hids (S i) x Hx). lia. }
    cbv zeta in Hinv'', Hsc', Hmono', Hdom', Hnext'.
    split; [|split; [|split; [|split]]].
    + replace (b + length (n :: l))%nat with (S (fst n) + length l)%nat
        by (simpl; lia). exact Hinv''.
    + intros x Hx Hw. apply elem_of_cons in Hx as [->|Hx]; [|now apply Hsc'].
      now apply Hdom', Hsc.
    + intros o Ho. now apply Hmono', Hmono.
    + intros k Hk. now apply Hdom', Hdom.
    + now rewrite Hnext'.
Qed.

Lemma searchOpen_initial : searchOpen start (initialState start end_).
Proof.
  unfold searchOpen, initialState. cbn [gScore openSet nextId].
  split; [|split; [|split; [|split]]].
  - intros k v Hk. apply lookup_singleton_Some in Hk as [_ <-]. eauto.
  - rewrite lookup_singleton_eq. eauto.
  - apply NoDup_singleton.
  - intros o Ho. apply list_elem_of_singleton in Ho. subst o. simpl. lia.
  - intros k [v Hk]. apply lookup_singleton_Some in Hk as [<- _].
    exists (0%nat, start). split; [left|apply Qcle_refl].
Qed.

Lemma searchOpen_expand current st :
  searchInv start st -> searchOpen start st -> current ∈ openSet st ->
  searchOpen start (expand this end_ preferences current st).
Proof.
  intros (I1 & _ & _) (F & S0 & N & B & W) Hcur. unfold expand.
  rewrite getAccessibleNeighbors_all.
  match goal with |- searchOpen _ (fold_left _ ?l ?s) =>
    destruct (fold_relax_live (snd current) l s (nextId st))
      as (Hinv & Hsc & Hmono & Hdom & Hnext) end.
  { split; [exact F|]. split; [exact S0|]. split; [now apply I1|].
    cbn [openSet gScore]. split; [now apply NoDup_fst_filter|]. split.
    - intros o Ho. apply Set_delete_elem in Ho. now apply B.
    - intros k Hk. destruct (W k Hk) as (o & Ho & Hle).
      destruct (decide (fst o = fst current)) as [E|E].
      + right. now rewrite <- (NoDup_fst_eq _ _ _ N Ho Hcur E).
      + left. exists o. split; [|exact Hle].
        unfold Set_delete. apply list_elem_of_filter. now split. }
  { intros i n Hn. apply list_lookup_imap_Some in Hn as ([a b] & _ & ->).
    reflexivity. }
  cbv zeta in Hinv, Hsc, Hmono, Hdom, Hnext.
  destruct Hinv as (F' & S' & _ & N' & B' & W').
  set (north := {| latitude := latitude (snd current) + dec 1 1 * gridSize;
                   longitude := longitude (snd current) + dec 0 1 * gridSize |}).
  assert (Hopen : exists o, o ∈ openSet (fold_left
              (relax this end_ preferences (snd current))
              (imap (fun n '(i, j) =>
                 ((nextId st + n)%nat,
                  {| latitude := latitude (snd current) + dec i 1 * gridSize;
                     longitude := longitude (snd current) + dec j 1 * gridSize |}))
                 gridOffsets)
              {| openSet := Set_delete (openSet st) current;
                 cameFrom := cameFrom st; gScore := gScore st;
                 fScore := fScore st;
                 nextId := (nextId st + length gridOffsets)%nat |}) /\
            latitude (snd current) <= latitude (snd o)).
  { assert (Hlt : latitude (snd current) < latitude north).
    { unfold north. cbn [latitude].
      rewrite <- (Qcplus_0_r (latitude (snd current))) at 1.
      apply Qcplus_lt_mono_l. reflexivity. }
    destruct (W' (locationToKey north)) as [(o & Ho & Hle)|Hle].
    - apply (Hsc ((nextId st + 6)%nat, north)).
      + match goal with |- _ ∈ imap ?f _ =>
          apply (elem_of_lookup_imap_2 f gridOffsets (1, 0)%Z 6) end.
        reflexivity.
      + destruct (Hnorth (snd current)) as [d Hd].
        now apply unobstructed_measured with d.
    - exists o. split; [exact Ho|].
      apply Qclt_le_weak. eapply Qclt_le_trans; [exact Hlt|exact Hle].
    - exfalso. apply (Qclt_not_le _ _ Hlt). exact Hle. }
  destruct Hopen as (o & Ho & Hole).
  split; [exact F'|]. split; [exact S'|]. split; [exact N'|]. split.
  - rewrite Hnext. cbn [nextId]. intros x Hx. apply B' in Hx.
    rewrite length_imap in Hx. exact Hx.
  - intros k Hk. destruct (W' k Hk) as [Hex|Hle]; [exact Hex|].
    exists o. split; [exact Ho|]. now apply Qcle_trans with (latitude (snd current)).
Qed.

Lemma searchOpen_step st st' :
  searchInv start st -> searchOpen start st ->
  searchStep this end_ preferences st = Continue st' ->
  searchOpen start st'.
Proof.
  intros Hinv Hopen. unfold searchStep.
  destruct (openSet st) as [|o1 rest] eqn:Ho; [discriminate|]. rewrite <- Ho.
  destruct (getLowestFScore _ _) as [current|] eqn:Hlow; [|discriminate].
  destruct (isAtDestination _ _); [discriminate|].
  intros [= <-]. apply searchOpen_expand; try assumption.
  now apply getLowestFScore_elem in Hlow.
Qed.

Lemma searchOpen_nonempty st : searchOpen start st -> openSet st <> [].
Proof.
  intros (_ & S0 & _ & _ & W) E. destruct (W _ S0) as (o & Ho & _).
  rewrite E in Ho. inversion Ho.
Qed.

Lemma searchOpen_turns n st st' :
  searchInv start st -> searchOpen start st ->
  turns n this end_ preferences st = Some st' ->
  searchInv start st' /\ searchOpen start st'.
Proof.
  revert st. induction n as [|n IH]; intros st Hinv Hopen Ht; simpl in Ht.
  - injection Ht as <-. now split.
  - destruct (searchStep this end_ preferences st) as [st1| | |] eqn:Hs;
      try discriminate.
    apply IH with st1; [| |exact Ht].
    + now apply (searchInv_step this start end_ preferences st).
    + now apply searchOpen_step with st.
Qed.

Lemma searchLoop_no_Throw fuel st :
  searchInv start st -> searchOpen start st ->
  searchLoop fuel this end_ preferences st <> Some (Throw NoAccessibleRouteFound).
Proof.
  revert st. induction fuel as [|fuel IH]; intros st Hinv Hopen; simpl; [discriminate|].
  destruct (searchStep this end_ preferences st) as [st'|current| |e'] eqn:Hstep.
  - apply IH.
    + now apply (searchInv_step this start end_ preferences st).
    + now apply searchOpen_step with st.
  - destruct (reconstructPath _ _ _); discriminate.
  - apply searchStep_Exhausted in Hstep. now apply searchOpen_nonempty in Hopen.
  - unfold searchStep in Hstep. destruct (openSet st); [discriminate|].
    destruct (getLowestFScore _ _); [|injection Hstep as <-; discriminate].
    destruct (isAtDestination _ _); discriminate.
Qed.

End SearchLiveness.


End SearchProperties.

(** ** The navigation utilities *)

Lemma Qcinv_pos d : 0 < d -> 0 < / d.
Proof.
  unfold Qclt. change (this 0) with 0%Q. intros H.
  unfold Qcinv, Q2Qc. cbn [this]. rewrite Qred_correct.
  now apply Qinv_lt_0_compat.
Qed.

Lemma number_trunc_floor x : 0 <= x -> number_trunc x = Qfloor (this x).
Proof.
  unfold number_trunc, Qcle. change (this 0) with 0%Q.
  destruct (this x) as [n d]. unfold Qle, Qfloor. cbn [Qnum Qden].
  intros H. apply Z.quot_div_nonneg; lia.
Qed.

Lemma Qfloor_unique (x : Q) (k : Z) :
  (inject_Z k <= x)%Q -> (x < inject_Z (k + 1))%Q -> Qfloor x = k.
Proof.
  intros Hle Hlt.
  assert (H1 := Qfloor_resp_le _ _ Hle). rewrite Qfloor_Z in H1.
  assert (H2 : (Qfloor x < k + 1)%Z).
  { rewrite Zlt_Qlt. eapply Qle_lt_trans; [apply Qfloor_le|exact Hlt]. }
  lia.
Qed.

Lemma dec_floor_bounds (x : Qc) :
  dec (Qfloor (this x)) 1 <= x /\ x < dec (Qfloor (this x)) 1 + 1.
Proof.
  unfold Qcle, Qclt, Qcplus, dec, Q2Qc. cbn [this]. rewrite !Qred_correct.
  split; [apply Qfloor_le|].
  assert (H := Qlt_floor (this x)). rewrite inject_Z_plus in H. exact H.
Qed.

(** The remainder of a number that is not negative by a positive one. *)
Lemma number_rem_range n d :
  0 <= n -> 0 < d -> 0 <= number_rem n d /\ number_rem n d < d.
Proof.
  intros Hn Hd. unfold number_rem.
  assert (Hq : 0 <= n / d).
  { unfold Qcdiv. rewrite <- (Qcmult_0_l (/ d)).
    apply Qcmult_le_compat_r; [exact Hn|].
    now apply Qclt_le_weak, Qcinv_pos. }
  rewrite (number_trunc_floor _ Hq).
  assert (Ht := dec_floor_bounds (n / d)).
  assert (Hnd : n = d * (n / d)).
  { field. intros E. rewrite E in Hd. discriminate. }
  destruct Ht as [Ht1 Ht2].
  generalize dependent (dec (Qfloor (this (n / d))) 1). intros u Ht1 Ht2.
  clear Hq. generalize dependent (n / d). intros q Hnd Ht1 Ht2. subst n.
  split.
  - replace (d * q - d * u) with ((q - u) * d) by ring.
    rewrite <- (Qcmult_0_l d). apply Qcmult_le_compat_r.
    + apply -> Qcle_minus_iff. exact Ht1.
    + now apply Qclt_le_weak.
  - replace (d * q - d * u) with ((q - u) * d) by ring.
    rewrite <- (Qcmult_1_l d) at 2. apply Qcmult_lt_compat_r; [exact Hd|].
    apply Qclt_minus_iff. replace (1 + - (q - u)) with (u + 1 + - q) by ring.
    now apply -> Qclt_minus_iff.
Qed.

Lemma Math_round_nonneg x : 0 <= x -> (0 <= Math_round x)%Z.
Proof.
  intros Hx. unfold Math_round.
  change 0%Z with (Qfloor 0). apply Qfloor_resp_le.
  unfold Qcle in Hx. change (this 0) with 0%Q in Hx.
  apply Qle_trans with (this x); [exact Hx|].
  rewrite <- (Qplus_0_r (this x)) at 1. now apply Qplus_le_r.
Qed.

Lemma getCardinalDirection_defined bearing :
  0 <= bearing ->
  exists direction,
    getCardinalDirection bearing = Some direction /\ direction ∈ directions.
Proof.
  intros Hb. unfold getCardinalDirection. cbv zeta.
  assert (Hr : (0 <= Math_round (bearing / dec 45 1))%Z).
  { apply Math_round_nonneg. unfold Qcdiv.
    rewrite <- (Qcmult_0_l (/ dec 45 1)).
    apply Qcmult_le_compat_r; [exact Hb|]. now apply Qclt_le_weak, Qcinv_pos. }
  generalize dependent (Math_round (bearing / dec 45 1)). intros r Hr.
  assert (H0 : (0 <= Z.rem r 8)%Z) by (apply Z.rem_nonneg; lia).
  assert (H8 : (Z.rem r 8 < 8)%Z) by (apply Z.rem_bound_pos; lia).
  destruct (Z.ltb_spec (Z.rem r 8) 0) as [Hneg|_]; [lia|].
  destruct (lookup_lt_is_Some_2 directions (Z.to_nat (Z.rem r 8))) as [d Hd].
  { simpl. lia. }
  exists d. split; [exact Hd|]. now apply list_elem_of_lookup_2 in Hd.
Qed.

Section NavigationProperties.

Context {M : MathLib}.

Lemma bearing_nonneg p t :
  0 < p -> - p <= t -> 0 <= t * dec 180 1 / p + dec 360 1.
Proof.
  intros Hp Ht.
  assert (E : dec 360 1 = dec 180 1 + dec 180 1) by now apply Qc_is_canon.
  assert (H180 : 0 <= dec 180 1) by (apply dec_nonneg; lia).
  replace (t * dec 180 1 / p + dec 360 1)
    with ((t + p) * (dec 180 1 * / p) + dec 180 1).
  - replace 0 with (0 + 0) at 1 by ring. apply Qcplus_le_compat; [|exact H180].
    rewrite <- (Qcmult_0_l (dec 180 1 * / p)). apply Qcmult_le_compat_r.
    + apply Qcle_minus_iff in Ht. now replace (t + - - p) with (t + p) in Ht by ring.
    + rewrite <- (Qcmult_0_l (/ p)). apply Qcmult_le_compat_r; [exact H180|].
      now apply Qclt_le_weak, Qcinv_pos.
  - rewrite E. field. intros Ep. rewrite Ep in Hp. discriminate.
Qed.

(** X16. A bearing is a number of degrees from 0 up to, not
    including, 360, and it always names one of the eight directions:
    no guidance message says [undefined]. *)
Theorem getBearing_range {R : MathRange M} start end_ :
  0 <= getBearing start end_ /\ getBearing start end_ < dec 360 1 /\
  exists direction,
    getCardinalDirection (getBearing start end_) = Some direction /\
    direction ∈ directions.
Proof.
  assert (H : 0 <= getBearing start end_ /\ getBearing start end_ < dec 360 1).
  { unfold getBearing. cbv zeta. apply number_rem_range; [|reflexivity].
    apply bearing_nonneg; [apply Math_PI_pos|apply Math_atan2_range]. }
  destruct H as [H0 H360]. split; [exact H0|]. split; [exact H360|].
  now apply getCardinalDirection_defined.
Qed.

End NavigationProperties.

(** X17. The direction of a bearing is that of the nearest multiple of
    45 degrees, halves upward; a bearing from -337.5 up to -22.5 has
    no direction (the index is negative). *)
Theorem getCardinalDirection_sector bearing k :
  dec 45 1 * dec k 1 - dec 225 10 <= bearing ->
  bearing < dec 45 1 * dec k 1 + dec 225 10 ->
  ((0 <= k)%Z -> getCardinalDirection bearing = directions !! Z.to_nat (k mod 8)) /\
  ((-8 < k < 0)%Z -> getCardinalDirection bearing = None).
Proof.
  intros Hlo Hhi.
  assert (Hr : Math_round (bearing / dec 45 1) = k).
  { unfold Math_round.
    unfold Qcle, Qcminus, Qcplus, Qcmult, Qcopp, dec, Q2Qc in Hlo.
    cbn [this] in Hlo. rewrite !Qred_correct in Hlo.
    unfold Qclt, Qcplus, Qcmult, dec, Q2Qc in Hhi.
    cbn [this] in Hhi. rewrite !Qred_correct in Hhi.
    change (k # 1)%Q with (inject_Z k) in Hlo, Hhi.
    apply Qfloor_unique; [|rewrite inject_Z_plus; change (inject_Z 1) with 1%Q];
      unfold Qcdiv, Qcmult, Qcinv, dec, Q2Qc; cbn [this]; rewrite !Qred_correct;
      change (/ (45 # 1))%Q with (1 # 45)%Q;
      revert Hlo Hhi; generalize (inject_Z k) (this bearing);
      intros x y Hlo Hhi; lra. }
  unfold getCardinalDirection. cbv zeta. rewrite Hr. split; intros Hk.
  - rewrite Z.rem_mod_nonneg by lia.
    destruct (Z.ltb_spec (k mod 8) 0) as [Hneg|_]; [|reflexivity].
    assert (0 <= k mod 8)%Z by (apply Z.mod_pos_bound; lia). lia.
  - assert (E : Z.rem k 8 = k).
    { replace k with (- - k)%Z at 1 by lia. rewrite Z.rem_opp_l by lia.
      rewrite Z.rem_small by lia. lia. }
    rewrite E. destruct (Z.ltb_spec k 0) as [_|Hpos]; [reflexivity|lia].
Qed.

(** ** The guidance of the assistant *)

Section GuidanceProperties.

Context {M : MathLib}.

Lemma minAnnouncementInterval_bounds distance :
  dec 3000 1 <= minAnnouncementInterval distance /\
  minAnnouncementInterval distance <= dec 10000 1.
Proof.
  unfold minAnnouncementInterval.
  destruct (number_ltb distance (Fin (dec 50 1)));
    [|destruct (number_ltb distance (Fin (dec 100 1)))];
    split; apply Qc_ltb_false; reflexivity.
Qed.

(** X18. The assistant does not speak more often than every three
    seconds and, called ten seconds or more after its last
    announcement, always speaks: it stops the speech in progress and
    says one sentence, after at most one haptic signal.  In both cases
    it records the distance. *)
Theorem provideGuidance_throttle now refs current dest :
  let result := provideGuidance now refs current dest in
  lastDistanceRef (fst result) = calculateDistance current dest /\
  (now - lastAnnouncementRef refs < dec 3000 1 ->
   snd result = [] /\
   lastAnnouncementRef (fst result) = lastAnnouncementRef refs) /\
  (dec 10000 1 <= now - lastAnnouncementRef refs ->
   lastAnnouncementRef (fst result) = now /\
   exists haptics message,
     snd result = haptics ++ [SpeechStop; SpeechSpeak message (Some guidanceVoice)] /\
     (length haptics <= 1)%nat).
Proof.
  cbv zeta. unfold provideGuidance. cbv zeta.
  destruct (minAnnouncementInterval_bounds (calculateDistance current dest))
    as [Hmin Hmax].
  destruct (Qc_ltb (now - lastAnnouncementRef refs)
              (minAnnouncementInterval (calculateDistance current dest))) eqn:Ht.
  - apply Qc_ltb_true in Ht. cbn [fst snd lastDistanceRef lastAnnouncementRef].
    split; [reflexivity|]. split; [intros _; now split|].
    intros Hlate. exfalso. apply (Qclt_not_le _ _ Ht).
    now apply Qcle_trans with (dec 10000 1).
  - apply Qc_ltb_false in Ht.
    destruct (number_ltb (calculateDistance current dest) (Fin (dec 5 1)));
      [|destruct (number_ltb (calculateDistance current dest) (Fin (dec 20 1)));
        [|destruct (number_ltb (calculateDistance current dest) (Fin (dec 50 1)));
          [|destruct (number_ltb (calculateDistance current dest)
                       (lastDistanceRef refs))]]];
      cbn [fst snd lastDistanceRef lastAnnouncementRef];
      (split; [reflexivity|]);
      (split;
       [intros Hsoon; exfalso; apply (Qclt_not_le _ _ Hsoon);
        now apply Qcle_trans with
          (minAnnouncementInterval (calculateDistance current dest))
       |intros _; split; [reflexivity|]; eexists _, _; split;
        [reflexivity|simpl; lia]]).
Qed.

Lemma provideGuidance_arrival now refs current dest :
  number_ltb (calculateDistance current dest) (Fin (dec 5 1)) = true ->
  dec 3000 1 <= now - lastAnnouncementRef refs ->
  provideGuidance now refs current dest =
  ({| lastAnnouncementRef := now;
      lastDistanceRef := calculateDistance current dest |},
   [Haptics NotificationSuccess; SpeechStop;
    SpeechSpeak "You have arrived at your destination" (Some guidanceVoice)]).
Proof.
  intros Hd Ht. unfold provideGuidance. cbv zeta.
  assert (H50 : number_ltb (calculateDistance current dest) (Fin (dec 50 1)) = true).
  { apply number_ltb_Fin_r in Hd as (d & -> & Hd). simpl.
    apply Qc_ltb_true. eapply Qclt_trans; [exact Hd|reflexivity]. }
  unfold minAnnouncementInterval. rewrite H50.
  apply Qc_ltb_false in Ht. rewrite Ht, Hd. reflexivity.
Qed.

(** X19. The router and the assistant agree on arrival: at the last
    point of a route that [findAccessibleRoute] returns, the assistant
    (three seconds or more after its last announcement) announces the
    arrival at the destination of the search. *)
Theorem provideGuidance_at_route_end fuel start end_ preferences this route this'
    final now refs :
  findAccessibleRoute fuel start end_ preferences this = Some (Return route, this') ->
  last route = Some final ->
  dec 3000 1 <= now - lastAnnouncementRef refs ->
  provideGuidance now refs final end_ =
  ({| lastAnnouncementRef := now;
      lastDistanceRef := calculateDistance final end_ |},
   [Haptics NotificationSuccess; SpeechStop;
    SpeechSpeak "You have arrived at your destination" (Some guidanceVoice)]).
Proof.
  unfold findAccessibleRoute. intros H Hlast Ht.
  destruct (searchLoop fuel this end_ preferences _) as [c|] eqn:Hr; [|discriminate].
  simpl in H. injection H as -> _.
  apply (searchLoop_Return this start end_ preferences) in Hr
    as [_ (final' & Hlast' & Hd)]; [|apply searchInv_initial].
  rewrite Hlast in Hlast'. injection Hlast' as <-.
  apply provideGuidance_arrival; [|exact Ht].
  rewrite calculateDistance_eq. destruct Hd as (d & -> & Hd). simpl.
  now apply Qc_ltb_true.
Qed.

End GuidanceProperties.

(** ** The handlers of the screen *)

(** X20. [convertToNavigationLocation] keeps the latitude and the
    longitude, and keeps an altitude, a heading and an accuracy
    exactly when they are present and not 0: a heading of 0 degrees
    (north) and an altitude of 0 m are dropped. *)
Theorem convertToNavigationLocation_spec coords :
  let location := convertToNavigationLocation coords in
  toLocation location =
    {| latitude := Expo.latitude coords; longitude := Expo.longitude coords |} /\
  (forall v, Nav.altitude location = Some v <->
     Expo.altitude coords = Some v /\ v <> 0) /\
  (forall v, Nav.heading location = Some v <->
     Expo.heading coords = Some v /\ v <> 0) /\
  (forall v, Nav.accuracy location = Some v <->
     Expo.accuracy coords = Some v /\ v <> 0).
Proof.
  assert (H : forall value v,
            orUndefined value = Some v <-> value = Some v /\ v <> 0).
  { intros [x|] v; unfold orUndefined.
    - case_bool_decide as E; split.
      + discriminate.
      + intros [[= ->] Hv]. contradiction.
      + intros [= <-]. now split.
      + now intros [[= ->] _].
    - split; [discriminate|now intros [? _]]. }
  cbv zeta. unfold convertToNavigationLocation, toLocation. cbn.
  split; [reflexivity|]. split; [|split]; intros v; apply H.
Qed.

Section ScreenProperties.

Context {M : MathLib}.

(** X21. [handleDestinationSelect] without a current location logs the
    error and shows the alert.  With a current location, a call that
    completes does the same when the search throws, and otherwise
    starts the navigation: it stores the destination and a route from
    the current location to less than 5 m from the destination, and
    makes one haptic signal and two announcements; the service of the
    screen has no features to announce. *)
Theorem handleDestinationSelect_spec fuel screen location :
  let failure :=
    [ConsoleError "Error finding accessible route:";
     AlertAlert "Navigation Error"
       "Unable to find an accessible route to this destination. Please try another destination or adjust your accessibility preferences."] in
  match currentLocation (navigationState screen) with
  | None => handleDestinationSelect fuel screen location = Some failure
  | Some current =>
      forall effects,
        handleDestinationSelect fuel screen location = Some effects ->
        (effects = failure /\
         exists e,
           findAccessibleRoute fuel (toLocation current) (toLocation location)
             (accessibilityPreferences screen) routingService
           = Some (Throw e, routingService)) \/
        exists updater haptic first second,
          effects = [SetState updater; Haptics haptic;
                     SpeechSpeak first (Some guidanceVoice);
                     SpeechSpeak second (Some guidanceVoice)] /\
          forall prev,
            let next := navigationState (updater prev) in
            isNavigating next = true /\
            destination next = Some location /\
            currentLocation next = currentLocation (navigationState prev) /\
            head (route next) = Some (toLocation current) /\
            (exists final, last (route next) = Some final /\
               exists d, calculateBaseDistance final (toLocation location) = Fin d /\
                 d < dec 5 1) /\
            accessibilityPreferences (updater prev) = accessibilityPreferences prev
  end.
Proof.
  cbv zeta. unfold handleDestinationSelect. cbv zeta.
  destruct (currentLocation (navigationState screen)) as [current|] eqn:Hcur;
    [|reflexivity].
  intros effects H.
  unfold findAccessibleRoute in H |- *.
  destruct (searchLoop fuel routingService (toLocation location)
              (accessibilityPreferences screen) _) as [[accessibleRoute|e]|] eqn:Hr;
    simpl in H; [| |discriminate].
  - right. injection H as <-.
    apply (searchLoop_Return routingService (toLocation current)) in Hr
      as [Hhead Hlast]; [|apply searchInv_initial].
    unfold startNavigation. rewrite Hcur.
    rewrite getAccessibleFeaturesOnRoute_no_features by reflexivity.
    cbn [length Nat.ltb Nat.leb app].
    eexists _, _, _, _. split; [reflexivity|].
    intros prev. cbv zeta. cbn. repeat split; try assumption.
  - left. injection H as <-. split; [reflexivity|]. now exists e.
Qed.

(** X22. [handlePreferencesSave] first stores the preferences and
    leaves the navigation state; whatever the preferences are, the rest
    of what it does is the same: the route that it computes with the
    service of the screen does not depend on them. *)
Theorem handlePreferencesSave_spec fuel screen preferences :
  (forall preferences',
     tail <$> handlePreferencesSave fuel screen preferences =
     tail <$> handlePreferencesSave fuel screen preferences') /\
  (forall effects,
     handlePreferencesSave fuel screen preferences = Some effects ->
     exists updater rest,
       effects = SetState updater :: rest /\
       (forall prev,
          accessibilityPreferences (updater prev) = preferences /\
          navigationState (updater prev) = navigationState prev)).
Proof.
  unfold handlePreferencesSave. cbv zeta. split.
  - intros preferences'.
    destruct (destination (navigationState screen)) as [dest|]; [|reflexivity].
    destruct (currentLocation (navigationState screen)) as [current|]; [|reflexivity].
    rewrite (findAccessibleRoute_no_knowledge routingService fuel _ _
               preferences preferences') by reflexivity.
    destruct (findAccessibleRoute fuel _ _ preferences' routingService)
      as [[[newRoute|e] this']|]; reflexivity.
  - intros effects H.
    destruct (destination (navigationState screen)) as [dest|].
    2: { injection H as <-. eexists _, []. split; [reflexivity|].
         intros prev; now split. }
    destruct (currentLocation (navigationState screen)) as [current|].
    2: { injection H as <-. eexists _, []. split; [reflexivity|].
         intros prev; now split. }
    destruct (findAccessibleRoute fuel _ _ preferences routingService)
      as [[[newRoute|e] this']|]; [| |discriminate];
      injection H as <-; eexists _, _; (split; [reflexivity|]);
      intros prev; now split.
Qed.

End ScreenProperties.

(** ** Growing the knowledge base *)

Section Monotone.

Context {M : MathLib} {L : MathLaws M}.

Lemma obstaclesLoop_app preferences l l' weight :
  obstaclesLoop preferences weight (l ++ l') =
  match obstaclesLoop preferences weight l with
  | Some weight' => obstaclesLoop preferences weight' l'
  | None => None
  end.
Proof.
  revert weight. induction l as [|o l IH]; intros weight; simpl; [reflexivity|].
  destruct (requiresWheelchairAccess preferences && isBarrier (otype o));
    [reflexivity|apply IH].
Qed.

Lemma featuresLoop_app preferences l l' weight :
  featuresLoop preferences weight (l ++ l') =
  featuresLoop preferences (featuresLoop preferences weight l) l'.
Proof.
  revert weight. induction l as [|f l IH]; intros weight; simpl; [reflexivity|].
  apply IH.
Qed.

Lemma Qc_unit x : Qc_ltb x 0 = false -> Qc_ltb 1 x = false -> 0 <= x /\ x <= 1.
Proof. intros H0 H1. split; now apply Qc_ltb_false. Qed.

Lemma Qc_unit_mul a b :
  0 <= a /\ a <= 1 -> 0 <= b /\ b <= 1 -> 0 <= a * b /\ a * b <= 1.
Proof.
  intros [Ha0 Ha1] [Hb0 Hb1]. split; [now apply Qcmult_nonneg_nonneg|].
  apply Qcle_trans with (a * 1).
  - now apply Qcmult_le_mono_nonneg_l.
  - now rewrite Qcmult_1_r.
Qed.

Lemma Qc_above_mul a b : 1 <= a -> 1 <= b -> 1 <= a * b.
Proof.
  intros Ha Hb.
  assert (H0 : 0 <= a) by (eapply Qcle_trans; [|exact Ha]; now apply dec_nonneg with (d := 1%positive)).
  apply Qcle_trans with (a * 1).
  - now rewrite Qcmult_1_r.
  - now apply Qcmult_le_mono_nonneg_l.
Qed.

(** On a finite weight, the loop over the features multiplies by a
    factor of at most 1, and the loop over the obstacles, when it does
    not exclude the edge, by a factor of at least 1. *)
Lemma featuresLoop_scale preferences l :
  exists c, (0 <= c /\ c <= 1) /\
    forall w, featuresLoop preferences (Fin w) l = Fin (w * c).
Proof.
  induction l as [|f l (c & Hc & IH)].
  - exists 1. split; [now apply Qc_unit|]. intros w. simpl. f_equal. ring.
  - simpl.
    destruct (requiresWheelchairAccess preferences && _),
             (needsRestStops preferences && _); cbn [number_mul].
    + exists (dec 8 10 * dec 9 10 * c). split.
      * apply Qc_unit_mul; [|exact Hc]. now apply Qc_unit.
      * intros w. rewrite IH. f_equal. ring.
    + exists (dec 8 10 * c). split.
      * apply Qc_unit_mul; [|exact Hc]. now apply Qc_unit.
      * intros w. rewrite IH. f_equal. ring.
    + exists (dec 9 10 * c). split.
      * apply Qc_unit_mul; [|exact Hc]. now apply Qc_unit.
      * intros w. rewrite IH. f_equal. ring.
    + exists c. split; [exact Hc|exact IH].
Qed.

Lemma obstaclesLoop_scale preferences l :
  (forall w, obstaclesLoop preferences (Fin w) l = None) \/
  exists c, 1 <= c /\
    forall w, obstaclesLoop preferences (Fin w) l = Some (Fin (w * c)).
Proof.
  induction l as [|o l IH].
  - right. exists 1. split; [apply Qcle_refl|]. intros w. simpl.
    do 2 f_equal. ring.
  - simpl.
    destruct (requiresWheelchairAccess preferences && isBarrier (otype o));
      [now left|].
    destruct (preferWellLit preferences && _); cbn [number_mul].
    + destruct IH as [IH|(c & Hc & IH)]; [left; intros w; apply IH|right].
      exists (dec 15 10 * c). split.
      * apply Qc_above_mul; [|exact Hc]. apply Qc_ltb_false. reflexivity.
      * intros w. rewrite IH. do 2 f_equal. ring.
    + exact IH.
Qed.

Lemma obstaclesLoop_NaN preferences l :
  obstaclesLoop preferences NaN l = None \/
  obstaclesLoop preferences NaN l = Some NaN.
Proof.
  induction l as [|o l IH]; simpl; [now right|].
  destruct (requiresWheelchairAccess preferences && isBarrier (otype o));
    [now left|].
  destruct (preferWellLit preferences && _); exact IH.
Qed.

Lemma featuresLoop_NaN preferences l : featuresLoop preferences NaN l = NaN.
Proof.
  induction l as [|f l IH]; simpl; [reflexivity|].
  destruct (requiresWheelchairAccess preferences && _),
           (needsRestStops preferences && _); exact IH.
Qed.

(** X23. The knowledge base is monotone: adding an obstacle never
    lowers the weight of an edge and never makes a point accessible,
    adding a feature never raises the weight of an edge and leaves the
    accessibility of every point as it is. *)
Theorem knowledge_base_monotone this start end_ location preferences :
  (forall obstacle,
     number_ltb
       (calculatePathWeight (addObstacle obstacle this) start end_ preferences)
       (calculatePathWeight this start end_ preferences) = false /\
     (isLocationAccessible (addObstacle obstacle this) location preferences = true ->
      isLocationAccessible this location preferences = true)) /\
  (forall feature,
     number_ltb
       (calculatePathWeight this start end_ preferences)
       (calculatePathWeight (addFeature feature this) start end_ preferences) = false /\
     isLocationAccessible (addFeature feature this) location preferences =
     isLocationAccessible this location preferences).
Proof.
  split.
  - intros obstacle. split.
    + unfold calculatePathWeight, findObstaclesOnPath, findFeaturesOnPath, addObstacle.
      cbn [obstacles features]. rewrite filter_app, obstaclesLoop_app.
      destruct (calculateBaseDistance start end_) as [d| |] eqn:Hd.
      * apply calculateBaseDistance_nonneg in Hd.
        match goal with |- context [obstaclesLoop _ (Fin d) ?l] =>
          destruct (obstaclesLoop_scale preferences l) as [E|(c1 & Hc1 & E)] end;
          rewrite E; [reflexivity|].
        match goal with |- context [obstaclesLoop _ (Fin (d * c1)) ?l] =>
          destruct (obstaclesLoop_scale preferences l) as [E2|(c2 & Hc2 & E2)] end;
          rewrite E2; [reflexivity|].
        match goal with |- context [featuresLoop _ _ ?l] =>
          destruct (featuresLoop_scale preferences l) as (cf & [Hf0 Hf1] & Ef) end.
        rewrite !Ef. cbn [number_ltb]. apply Qc_ltb_false.
        apply Qcmult_le_compat_r; [|exact Hf0].
        rewrite <- (Qcmult_1_r (d * c1)) at 1.
        apply Qcmult_le_mono_nonneg_l; [|exact Hc2].
        apply Qcmult_nonneg_nonneg; [exact Hd|].
        eapply Qcle_trans; [|exact Hc1]. now apply Qc_ltb_false.
      * now apply calculateBaseDistance_not_Infinity in Hd.
      * match goal with |- context [obstaclesLoop _ NaN ?l] =>
          destruct (obstaclesLoop_NaN preferences l) as [E|E] end;
          rewrite E; [reflexivity|].
        match goal with |- context [obstaclesLoop _ NaN ?l] =>
          destruct (obstaclesLoop_NaN preferences l) as [E2|E2] end;
          rewrite E2; [reflexivity|].
        now rewrite featuresLoop_NaN.
    + intros Hnew.
      destruct (isLocationAccessible this location preferences) eqn:Hold;
        [reflexivity|].
      apply isLocationAccessible_false in Hold as (Hw & o & Ho & Ht & Hnear).
      assert (Hfalse : isLocationAccessible (addObstacle obstacle this) location
                         preferences = false).
      { apply isLocationAccessible_false. split; [exact Hw|]. exists o.
        split; [|now split]. unfold addObstacle. cbn [obstacles].
        apply elem_of_app. now left. }
      congruence.
  - intros feature. split; [|reflexivity].
    unfold calculatePathWeight, findObstaclesOnPath, findFeaturesOnPath, addFeature.
    cbn [obstacles features]. rewrite filter_app.
    destruct (calculateBaseDistance start end_) as [d| |] eqn:Hd.
    + apply calculateBaseDistance_nonneg in Hd.
      match goal with |- context [obstaclesLoop _ (Fin d) ?l] =>
        destruct (obstaclesLoop_scale preferences l) as [E|(c1 & Hc1 & E)] end;
        rewrite E; [reflexivity|].
      rewrite featuresLoop_app.
      match goal with |- context [featuresLoop _ (featuresLoop _ _ ?l) ?l'] =>
        destruct (featuresLoop_scale preferences l) as (cf & [Hf0 Hf1] & Ef);
        destruct (featuresLoop_scale preferences l') as (cf' & [Hf0' Hf1'] & Ef') end.
      rewrite !Ef, Ef'. cbn [number_ltb]. apply Qc_ltb_false.
      rewrite <- (Qcmult_1_r (d * c1 * cf)) at 2.
      apply Qcmult_le_mono_nonneg_l; [|exact Hf1'].
      apply Qcmult_nonneg_nonneg; [|exact Hf0].
      apply Qcmult_nonneg_nonneg; [exact Hd|].
      eapply Qcle_trans; [|exact Hc1]. now apply Qc_ltb_false.
    + now apply calculateBaseDistance_not_Infinity in Hd.
    + match goal with |- context [obstaclesLoop _ NaN ?l] =>
        destruct (obstaclesLoop_NaN preferences l) as [E|E] end;
        rewrite E; [reflexivity|].
      now rewrite featuresLoop_app, !featuresLoop_NaN.
Qed.

End Monotone.

(** ** The shape of a route *)

Section RouteShape.

Context {M : MathLib} {L : MathLaws M}.

Lemma linked_before (g : gmap (Qc * Qc) number) (T : Qc * Qc -> nat)
    (cf : gmap (Qc * Qc) Location) (route : list Location) :
  (forall k c, cf !! k = Some c -> before g T (locationToKey c) k) ->
  (forall i a b, route !! i = Some a -> route !! S i = Some b ->
     cf !! locationToKey b = Some a) ->
  forall d i a b, route !! i = Some a -> route !! (i + S d)%nat = Some b ->
    before g T (locationToKey a) (locationToKey b).
Proof.
  intros Hord Hlink. induction d as [|d IH]; intros i a b Ha Hb.
  - apply Hord. apply Hlink with i; [exact Ha|].
    now replace (S i) with (i + 1)%nat by lia.
  - destruct (lookup_lt_is_Some_2 route (i + S d)) as [c Hc].
    { apply lookup_lt_Some in Hb. lia. }
    apply before_trans with (locationToKey c); [now apply IH with i|].
    apply Hord. apply Hlink with (i + S d)%nat; [exact Hc|].
    now replace (S (i + S d)) with (i + S (S d))%nat by lia.
Qed.

Lemma searchLoop_Return_NoDup this start end_ preferences fuel st route :
  searchInv start st -> searchOrder st ->
  searchLoop fuel this end_ preferences st = Some (Return route) ->
  NoDup route.
Proof.
  revert st. induction fuel as [|fuel IH]; intros st Hinv Hord Hr; simpl in Hr;
    [discriminate|].
  destruct (searchStep this end_ preferences st) as [st'|current| |e] eqn:Hstep.
  - apply IH with st'; [| |exact Hr].
    + now apply (searchInv_step this start end_ preferences st).
    + now apply (searchOrder_step this start end_ preferences st).
  - unfold reconstructPath in Hr.
    destruct (reconstructLoop fuel _ _ _) as [r|] eqn:Hrec; [|discriminate].
    injection Hr as <-.
    assert (Hone : forall i a b, [current] !! i = Some a ->
              [current] !! S i = Some b ->
              cameFrom st !! locationToKey b = Some a)
      by (intros n x y _ Hy; destruct n; discriminate Hy).
    assert (Hl := reconstructLoop_linked _ _ _ _ _ Hone Hrec).
    destruct Hord as (_ & T & HT).
    assert (Hlt : forall i j x, (i < j)%nat ->
              r !! i = Some x -> r !! j = Some x -> False).
    { intros i j x Hij Hi Hj.
      apply (before_irrefl (gScore st) T (locationToKey x)).
      apply (linked_before _ T _ r HT Hl (j - S i) i); [exact Hi|].
      now replace (i + S (j - S i))%nat with j by lia. }
    apply NoDup_alt. intros i j x Hi Hj.
    destruct (Nat.lt_trichotomy i j) as [Hij|[Hij|Hij]]; [|exact Hij|].
    + exfalso. now apply (Hlt i j x).
    + exfalso. now apply (Hlt j i x).
  - discriminate.
  - discriminate.
Qed.

(** X24. A route that [findAccessibleRoute] returns visits no point
    twice. *)
Theorem findAccessibleRoute_NoDup fuel start end_ preferences this route this' :
  findAccessibleRoute fuel start end_ preferences this = Some (Return route, this') ->
  NoDup route.
Proof.
  unfold findAccessibleRoute. intros H.
  destruct (searchLoop fuel this end_ preferences _) as [c|] eqn:Hr; [|discriminate].
  simpl in H. injection H as -> _.
  apply (searchLoop_Return_NoDup this start end_ preferences fuel
           (initialState start end_)); [| |exact Hr].
  - apply searchInv_initial.
  - apply searchOrder_initial.
Qed.

End RouteShape.

(** ** The scenarios of the rest *)

Import Beside.

Lemma Clamped_range : MathRange Clamped.lib.
Proof.
  split.
  - reflexivity.
  - intros y x. unfold Math_atan2, Math_PI, Clamped.lib, Clamped.atan2. cbv zeta.
    assert (Hpi : - Ref.PI <= Ref.PI) by (apply Qc_ltb_false; reflexivity).
    destruct (Qc_ltb (Ref.atan2 y x) (- Ref.PI)) eqn:Hlo.
    + split; [apply Qcle_refl|exact Hpi].
    + destruct (Qc_ltb Ref.PI (Ref.atan2 y x)) eqn:Hhi.
      * split; [exact Hpi|apply Qcle_refl].
      * split; now apply Qc_ltb_false.
Qed.

Lemma removeObstacle_addObstacle_witness :
  removeObstacle (olocation theStairs) (addObstacle theStairs emptyService) =
  removeObstacle (olocation theStairs) emptyService.
Proof. exact (removeObstacle_addObstacle theStairs emptyService). Defined.

Lemma getAccessibleFeaturesOnRoute_addFeature_inactive_witness :
  getAccessibleFeaturesOnRoute (addFeature closedRamp annotatedService) threePoints =
  getAccessibleFeaturesOnRoute annotatedService threePoints.
Proof.
  apply (getAccessibleFeaturesOnRoute_addFeature_inactive closedRamp
           annotatedService threePoints).
  reflexivity.
Defined.

Lemma no_preference_ignores_knowledge_base_witness :
  (forall a b,
     calculatePathWeight stairsService a b plain = calculateBaseDistance a b) /\
  (forall l, isLocationAccessible stairsService l plain = true) /\
  (forall fuel start end_,
     fst <$> findAccessibleRoute fuel start end_ plain stairsService =
     fst <$> findAccessibleRoute fuel start end_ plain emptyService).
Proof.
  apply (no_preference_ignores_knowledge_base plain stairsService emptyService);
    reflexivity.
Defined.

Lemma empty_knowledge_base_ignores_preferences_witness :
  (forall fuel start end_ p p',
     findAccessibleRoute fuel start end_ p emptyService =
     findAccessibleRoute fuel start end_ p' emptyService) /\
  (forall route, getAccessibleFeaturesOnRoute emptyService route = []).
Proof.
  apply (empty_knowledge_base_ignores_preferences emptyService); reflexivity.
Defined.

Lemma calculatePathWeight_Infinity_iff_witness :
  calculatePathWeight stairsService origin east10 wheelchairOnly = Infinity <->
  requiresWheelchairAccess wheelchairOnly = true /\
  exists obstacle, obstacle ∈ obstacles stairsService /\
    (otype obstacle = stairs \/ otype obstacle = narrow_path) /\
    isPointNearLine (olocation obstacle) origin east10 (dec 20 1) = true.
Proof.
  apply (calculatePathWeight_Infinity_iff stairsService origin east10 wheelchairOnly).
  reflexivity.
Defined.

Lemma calculatePathWeight_bounds_witness :
  let w := weightOf (calculatePathWeight stairsService origin east10 wellLit) in
  exists d, calculateBaseDistance origin east10 = Fin d /\
    0 <= w /\
    (preferWellLit wellLit = false -> w <= d) /\
    (requiresWheelchairAccess wellLit = false ->
     needsRestStops wellLit = false ->
     d <= w).
Proof.
  intros w.
  apply (calculatePathWeight_bounds stairsService origin east10 wellLit w).
  vm_compute. reflexivity.
Defined.

Lemma isPointNearLine_ends_witness :
  isPointNearLine east30 origin east10 (dec 20 1) =
  isPointNearLine east30 east10 origin (dec 20 1) /\
  (calculateBaseDistance origin east10 <> NaN ->
   isPointNearLine origin origin east10 (dec 20 1) = true /\
   isPointNearLine east10 origin east10 (dec 20 1) = true) /\
  (calculateBaseDistance origin east10 = NaN ->
   isPointNearLine east30 origin east10 (dec 20 1) = false).
Proof. exact (isPointNearLine_ends east30 origin east10 (dec 20 1)). Defined.

(** The ends of the step east of [origin] are near it; the ends of the
    segment from a point to its antipode are not. *)
Example isPointNearLine_of_ends :
  isPointNearLine origin origin east10 (dec 20 1) = true /\
  isPointNearLine Antipodes.here Antipodes.here Antipodes.there (dec 20 1) = false.
Proof. split; vm_compute; reflexivity. Qed.

Lemma findAccessibleRoute_safe_witness :
  let route :=
    routeOf (findAccessibleRoute 5 origin east10 wheelchair sideStairsService) in
  let b := default origin (route !! 1%nat) in
  isLocationAccessible sideStairsService b wheelchair = true /\
  (exists w, calculatePathWeight sideStairsService origin b wheelchair = Fin w) /\
  (requiresWheelchairAccess wheelchair = true ->
   forall obstacle, obstacle ∈ obstacles sideStairsService ->
     otype obstacle = stairs \/ otype obstacle = narrow_path ->
     number_ltb (calculateBaseDistance b (olocation obstacle)) (Fin (dec 20 1))
       = false /\
     isPointNearLine (olocation obstacle) origin b (dec 20 1) = false).
Proof.
  intros route b.
  apply (findAccessibleRoute_safe 5 origin east10 wheelchair sideStairsService
           route sideStairsService) with (i := 0%nat).
  - vm_compute. reflexivity.
  - vm_compute. reflexivity.
  - vm_compute. reflexivity.
Defined.

(** With the reference library every step to the north has a length:
    its haversine term is the square of the sine of half the step. *)
Lemma Ref_northMeasured : northMeasured.
Proof.
  intros a. apply calculateBaseDistance_Fin. rewrite calculateBaseDistance_NaN.
  set (half := (dec 1 1 * gridSize * Math_PI / dec 180 1) / dec 2 1).
  assert (E : haversineTerm a (northOf a) = Math_sin half * Math_sin half).
  { unfold haversineTerm, northOf, half. cbv zeta. cbn [latitude longitude].
    change (dec 0 1) with 0.
    replace (latitude a + dec 1 1 * gridSize - latitude a)
      with (dec 1 1 * gridSize) by ring.
    replace (longitude a + 0 * gridSize - longitude a) with 0 by ring.
    replace (0 * Math_PI / dec 180 1 / dec 2 1) with 0 by (unfold Qcdiv; ring).
    rewrite Math_sin_0. ring. }
  rewrite E. intros [H|H]; revert H; apply Qcle_not_lt, Qc_ltb_false;
    vm_compute; reflexivity.
Qed.


Lemma findAccessibleRoute_at_destination_witness :
  findAccessibleRoute 2 origin nearby wheelchair blockedService =
  Some (Return [origin], blockedService).
Proof.
  apply (findAccessibleRoute_at_destination 0 origin nearby wheelchair blockedService).
  vm_compute. reflexivity.
Defined.

Lemma getBearing_range_witness :
  0 <= @getBearing Clamped.lib origin east10 /\
  @getBearing Clamped.lib origin east10 < dec 360 1 /\
  exists direction,
    getCardinalDirection (@getBearing Clamped.lib origin east10) = Some direction /\
    direction ∈ directions.
Proof. exact (@getBearing_range Clamped.lib Clamped_range origin east10). Defined.

Lemma getCardinalDirection_sector_witness :
  ((0 <= 2)%Z -> getCardinalDirection (dec 90 1) = directions !! Z.to_nat (2 mod 8)) /\
  ((-8 < 2 < 0)%Z -> getCardinalDirection (dec 90 1) = None).
Proof.
  apply (getCardinalDirection_sector (dec 90 1) 2).
  - apply Qc_ltb_false. reflexivity.
  - reflexivity.
Defined.

Lemma provideGuidance_at_route_end_witness :
  let route := routeOf (findAccessibleRoute 5 origin east10 plain emptyService) in
  let final := default origin (last route) in
  provideGuidance (dec 5000 1) initialRefs final east10 =
  ({| lastAnnouncementRef := dec 5000 1;
      lastDistanceRef := calculateDistance final east10 |},
   [Haptics NotificationSuccess; SpeechStop;
    SpeechSpeak "You have arrived at your destination" (Some guidanceVoice)]).
Proof.
  apply (provideGuidance_at_route_end 5 origin east10 plain emptyService
           (routeOf (findAccessibleRoute 5 origin east10 plain emptyService))
           emptyService).
  - vm_compute. reflexivity.
  - vm_compute. reflexivity.
  - apply Qc_ltb_false. reflexivity.
Defined.

Lemma knowledge_base_monotone_witness :
  (forall obstacle,
     number_ltb
       (calculatePathWeight (addObstacle obstacle stairsService) origin east10 wellLit)
       (calculatePathWeight stairsService origin east10 wellLit) = false /\
     (isLocationAccessible (addObstacle obstacle stairsService) east30 wellLit = true ->
      isLocationAccessible stairsService east30 wellLit = true)) /\
  (forall feature,
     number_ltb
       (calculatePathWeight stairsService origin east10 wellLit)
       (calculatePathWeight (addFeature feature stairsService) origin east10 wellLit)
       = false /\
     isLocationAccessible (addFeature feature stairsService) east30 wellLit =
     isLocationAccessible stairsService east30 wellLit).
Proof. exact (knowledge_base_monotone stairsService origin east10 east30 wellLit). Defined.

Lemma findAccessibleRoute_NoDup_witness :
  NoDup (routeOf (findAccessibleRoute 5 origin east10 plain emptyService)).
Proof.
  apply (findAccessibleRoute_NoDup 5 origin east10 plain emptyService _ emptyService).
  vm_compute. reflexivity.
Defined.
